(** * A fixed-pool first-fit allocator (main.c): byte-level model and properties

    The allocator of [main.c] keeps its block headers inside the pool it
    manages, and its integrity check sums the raw bytes of a header.  The
    model therefore keeps memory as bytes: a header field is read and
    written through its offset in [block_header_t], and the layout of that
    struct (which the C compiler fixes, not the source) is a parameter
    [abi] with the two usual data models, ILP32 and LP64.

    Conventions.  Addresses and [size_t] values are integers below
    [size_modulus], with the wrap-around of every [size_t] operation
    written out ([to_size]); [NULL] is address 0.  The two [int] counters
    ([allocation_count], [free_block_count]) move by one per call or per
    block and are kept as plain integers.  The loops that follow [next]
    links take a [fuel] and answer that they did not end within it when
    it runs out; what is proved about calls is proved with the fuel that
    makes them end.  The [printf] diagnostics are not modelled.

    Contents: the model of [main.c]; clients and observers of the block
    list; the shape of the list between calls; lemmas on bytes, header
    fields, the search, allocation, deallocation and runs; the properties
    of the specification, C1 to C10. *)

From Stdlib Require Import ZArith List Lia Bool.
Import ListNotations.
Open Scope Z_scope.

(** ** Configuration (main.c, lines 15-17) *)

Definition POOL_SIZE : Z := 1024 * 64.
Definition ALIGNMENT : Z := 8.
Definition MAGIC_COOKIE : Z := 0xDEADBEEF.
Definition NULL : Z := 0.

(** ** Data models

    [size_t] and pointers have [word_bytes] bytes; [uint32_t] has four and
    [uint8_t] one.  Scalars are little-endian and naturally aligned. *)

Inductive abi : Set := ILP32 | LP64.

Definition word_bytes (a : abi) : nat :=
  match a with ILP32 => 4%nat | LP64 => 8%nat end.

Definition word (a : abi) : Z := Z.of_nat (word_bytes a).

(** Unsigned wrap-around of [size_t] (and of pointers), of [uint32_t], and
    the conversion of an out-of-range value to [int]. *)
Definition size_modulus (a : abi) : Z := 2 ^ (8 * word a).
Definition to_size (a : abi) (x : Z) : Z := x mod size_modulus a.
Definition to_u32 (x : Z) : Z := x mod 2 ^ 32.
Definition to_int (x : Z) : Z := (x + 2 ^ 31) mod 2 ^ 32 - 2 ^ 31.

(** ** Memory: a byte at every address *)

Definition memory := Z -> Z.

Definition zero_memory : memory := fun _ => 0.

Definition load8 (m : memory) (p : Z) : Z := m p mod 256.

Definition store8 (m : memory) (p v : Z) : memory :=
  fun q => if q =? p then v mod 256 else m q.

Fixpoint load (n : nat) (m : memory) (p : Z) : Z :=
  match n with
  | O => 0
  | S k => load8 m p + 256 * load k m (p + 1)
  end.

Fixpoint store (n : nat) (m : memory) (p v : Z) : memory :=
  match n with
  | O => m
  | S k => store k (store8 m p v) (p + 1) (v / 256)
  end.

(** ** The block header (main.c, lines 24-33) *)

Inductive field : Set :=
  f_magic | f_size | f_free | f_next | f_prev | f_checksum.

Definition round_up (x al : Z) : Z := (x + al - 1) / al * al.

Definition width (a : abi) (f : field) : nat :=
  match f with
  | f_magic => 4%nat
  | f_size => word_bytes a
  | f_free => 1%nat
  | f_next => word_bytes a
  | f_prev => word_bytes a
  | f_checksum => 4%nat
  end.

Definition field_align (a : abi) (f : field) : Z :=
  match f with
  | f_magic | f_checksum => 4
  | f_free => 1
  | f_size | f_next | f_prev => word a
  end.

(** Every member is placed at the first multiple of its alignment after
    the member before it. *)
Definition offset (a : abi) (f : field) : Z :=
  let o_magic := 0 in
  let o_size := round_up (o_magic + 4) (field_align a f_size) in
  let o_free := round_up (o_size + word a) (field_align a f_free) in
  let o_next := round_up (o_free + 1) (field_align a f_next) in
  let o_prev := round_up (o_next + word a) (field_align a f_prev) in
  let o_checksum := round_up (o_prev + word a) (field_align a f_checksum) in
  match f with
  | f_magic => o_magic
  | f_size => o_size
  | f_free => o_free
  | f_next => o_next
  | f_prev => o_prev
  | f_checksum => o_checksum
  end.

(** [sizeof(block_header_t)]: the end of the last member, rounded up to
    the alignment of the struct (that of its widest member). *)
Definition sizeof_block_header (a : abi) : Z :=
  round_up (offset a f_checksum + 4) (word a).

(** [HEADER_SIZE], line 33. *)
Definition HEADER_SIZE (a : abi) : Z :=
  Z.land (to_size a (sizeof_block_header a + ALIGNMENT - 1))
         (to_size a (Z.lnot (ALIGNMENT - 1))).

(** [header->f] and [header->f = v]. *)
Definition get (a : abi) (f : field) (m : memory) (header : Z) : Z :=
  load (width a f) m (header + offset a f).

Definition set (a : abi) (f : field) (m : memory) (header v : Z) : memory :=
  store (width a f) m (header + offset a f) v.

(** ** calculate_checksum and verify_header (lines 71-90) *)

Fixpoint sum_bytes (n : nat) (m : memory) (p sum : Z) : Z :=
  match n with
  | O => sum
  | S k => sum_bytes k m (p + 1) (to_u32 (sum + load8 m p))
  end.

Definition calculate_checksum (a : abi) (m : memory) (header : Z) : Z :=
  sum_bytes (Z.to_nat (sizeof_block_header a - 4)) m header 0.

Definition verify_header (a : abi) (m : memory) (header : Z) : bool :=
  if negb (get a f_magic m header =? MAGIC_COOKIE) then false
  else if negb (get a f_checksum m header =? calculate_checksum a m header)
       then false
       else true.

(** ** Allocator state: the pool and the statics of lines 44-50 *)

Record allocator : Type := mkAllocator {
  pool : memory;
  memory_pool : Z;
  free_list_head : Z;
  total_allocated : Z;
  total_free : Z;
  allocation_count : Z;
  fragmentation_score : Z
}.

(** The statics as the loader leaves them; [base] is the address the
    linker gave to [memory_pool_union]. *)
Definition boot (base : Z) : allocator :=
  {| pool := zero_memory;
     memory_pool := base;
     free_list_head := NULL;
     total_allocated := 0;
     total_free := POOL_SIZE;
     allocation_count := 0;
     fragmentation_score := 0 |}.

(** ** init_allocator (lines 96-117) *)

Definition init_allocator (a : abi) (st : allocator) : allocator :=
  let first_block := memory_pool st in
  let m := pool st in
  let m := set a f_magic m first_block MAGIC_COOKIE in
  let m := set a f_size m first_block (to_size a (POOL_SIZE - HEADER_SIZE a)) in
  let m := set a f_free m first_block 1 in
  let m := set a f_next m first_block NULL in
  let m := set a f_prev m first_block NULL in
  let m := set a f_checksum m first_block (calculate_checksum a m first_block) in
  {| pool := m;
     memory_pool := memory_pool st;
     free_list_head := first_block;
     total_allocated := total_allocated st;
     total_free := get a f_size m first_block;
     allocation_count := allocation_count st;
     fragmentation_score := fragmentation_score st |}.

(** ** my_malloc (lines 123-185) *)

(** [(size + ALIGNMENT - 1) & ~(ALIGNMENT - 1)] in [size_t], line 126. *)
Definition align_size (a : abi) (size : Z) : Z :=
  Z.land (to_size a (size + ALIGNMENT - 1)) (to_size a (Z.lnot (ALIGNMENT - 1))).

(** How the search loop of lines 133-143 ends.  The loop follows [next]
    links through memory and need not end on a cyclic list: [Timeout]
    says it was still running after [fuel] iterations. *)
Inductive search : Set :=
| Found (best_fit : Z)
| Corrupt (current : Z)
| NoFit
| Timeout.

Fixpoint first_fit (a : abi) (fuel : nat) (m : memory)
         (current aligned_size : Z) : search :=
  if current =? NULL then NoFit
  else match fuel with
       | O => Timeout
       | S fuel' =>
         if negb (verify_header a m current) then Corrupt current
         else if negb (get a f_free m current =? 0)
                 && (aligned_size <=? get a f_size m current)
              then Found current
              else first_fit a fuel' m (get a f_next m current) aligned_size
       end.

(** The body of the [if] of lines 155-171. *)
Definition split_block (a : abi) (m : memory)
           (best_fit aligned_size remaining_size : Z) : memory :=
  let new_block := to_size a (best_fit + HEADER_SIZE a + aligned_size) in
  let m := set a f_magic m new_block MAGIC_COOKIE in
  let m := set a f_size m new_block (to_size a (remaining_size - HEADER_SIZE a)) in
  let m := set a f_free m new_block 1 in
  let m := set a f_next m new_block (get a f_next m best_fit) in
  let m := set a f_prev m new_block best_fit in
  let m := set a f_checksum m new_block (calculate_checksum a m new_block) in
  let m := if negb (get a f_next m best_fit =? NULL)
           then set a f_prev m (get a f_next m best_fit) new_block
           else m in
  set a f_next m best_fit new_block.

(** Lines 153-184, once [best_fit] is chosen. *)
Definition take_block (a : abi) (st : allocator)
           (best_fit aligned_size : Z) : Z * allocator :=
  let m := pool st in
  let remaining_size := to_size a (get a f_size m best_fit - aligned_size) in
  let m := if to_size a (HEADER_SIZE a + ALIGNMENT) <=? remaining_size
           then split_block a m best_fit aligned_size remaining_size
           else m in
  let m := set a f_free m best_fit 0 in
  let m := set a f_size m best_fit aligned_size in
  let m := set a f_checksum m best_fit (calculate_checksum a m best_fit) in
  (to_size a (best_fit + HEADER_SIZE a),
   {| pool := m;
      memory_pool := memory_pool st;
      free_list_head := free_list_head st;
      total_allocated := to_size a (total_allocated st + aligned_size);
      total_free := to_size a (total_free st - aligned_size);
      allocation_count := allocation_count st + 1;
      fragmentation_score := fragmentation_score st |}).

(** [None]: the search did not end within [fuel] iterations.  Otherwise
    the returned pointer ([NULL] on failure) and the new state. *)
Definition my_malloc (a : abi) (fuel : nat) (st : allocator) (size : Z)
  : option (Z * allocator) :=
  if size =? 0 then Some (NULL, st)
  else
    let aligned_size := align_size a size in
    match first_fit a fuel (pool st) (free_list_head st) aligned_size with
    | Timeout => None
    | Corrupt _ => Some (NULL, st)
    | NoFit => Some (NULL, st)
    | Found best_fit => Some (take_block a st best_fit aligned_size)
    end.

(** ** my_free (lines 191-258) *)

(** Lines 221-236. *)
Definition coalesce_next (a : abi) (m : memory) (header : Z) : memory :=
  if negb (get a f_next m header =? NULL)
     && negb (get a f_free m (get a f_next m header) =? 0)
  then
    let next := get a f_next m header in
    if verify_header a m next then
      let m := set a f_size m header
                   (to_size a (get a f_size m header
                               + to_size a (HEADER_SIZE a + get a f_size m next))) in
      let m := set a f_next m header (get a f_next m next) in
      let m := if negb (get a f_next m next =? NULL)
               then set a f_prev m (get a f_next m next) header
               else m in
      set a f_checksum m header (calculate_checksum a m header)
    else m
  else m.

(** Lines 239-255. *)
Definition coalesce_prev (a : abi) (m : memory) (header : Z) : memory :=
  if negb (get a f_prev m header =? NULL)
     && negb (get a f_free m (get a f_prev m header) =? 0)
  then
    let prev := get a f_prev m header in
    if verify_header a m prev then
      let m := set a f_size m prev
                   (to_size a (get a f_size m prev
                               + to_size a (HEADER_SIZE a + get a f_size m header))) in
      let m := set a f_next m prev (get a f_next m header) in
      let m := if negb (get a f_next m header =? NULL)
               then set a f_prev m (get a f_next m header) prev
               else m in
      set a f_checksum m prev (calculate_checksum a m prev)
    else m
  else m.

Definition my_free (a : abi) (st : allocator) (ptr : Z) : allocator :=
  if ptr =? NULL then st
  else
    let header := to_size a (ptr - HEADER_SIZE a) in
    let m := pool st in
    if negb (verify_header a m header) then st
    else if negb (get a f_free m header =? 0) then st
    else
      let m := set a f_free m header 1 in
      let m := set a f_checksum m header (calculate_checksum a m header) in
      let released := get a f_size m header in
      let m := coalesce_next a m header in
      let m := coalesce_prev a m header in
      {| pool := m;
         memory_pool := memory_pool st;
         free_list_head := free_list_head st;
         total_allocated := to_size a (total_allocated st - released);
         total_free := to_size a (total_free st + released);
         allocation_count := allocation_count st - 1;
         fragmentation_score := fragmentation_score st |}.

(** ** calculate_fragmentation (lines 264-286) *)

Fixpoint frag_walk (a : abi) (fuel : nat) (m : memory) (current : Z)
         (free_block_count largest_free_block total_free_space : Z)
  : option (Z * Z * Z) :=
  if current =? NULL
  then Some (free_block_count, largest_free_block, total_free_space)
  else match fuel with
       | O => None
       | S fuel' =>
         if verify_header a m current && negb (get a f_free m current =? 0)
         then
           frag_walk a fuel' m (get a f_next m current)
                     (free_block_count + 1)
                     (if largest_free_block <? get a f_size m current
                      then get a f_size m current else largest_free_block)
                     (to_size a (total_free_space + get a f_size m current))
         else
           frag_walk a fuel' m (get a f_next m current)
                     free_block_count largest_free_block total_free_space
       end.

(** Lines 281-285: the score from the three figures of the walk. *)
Definition score_of (a : abi) (free_block_count largest total : Z) : Z :=
  if (1 <? free_block_count) && (0 <? total)
  then to_int (to_size a (100 - to_size a (largest * 100) / total))
  else 0.

Definition calculate_fragmentation (a : abi) (fuel : nat) (st : allocator)
  : option allocator :=
  match frag_walk a fuel (pool st) (free_list_head st) 0 0 0 with
  | None => None
  | Some (k, l, t) =>
    Some {| pool := pool st;
            memory_pool := memory_pool st;
            free_list_head := free_list_head st;
            total_allocated := total_allocated st;
            total_free := total_free st;
            allocation_count := allocation_count st;
            fragmentation_score := score_of a k l t |}
  end.

(** ** Clients: finite sequences of calls

    A client calls [my_malloc] with a size, or [my_free] with a pointer an
    earlier [my_malloc] of the run returned ([Free k] passes the result of
    the [k]-th allocation, or [NULL] when there is none). *)

Inductive call : Set :=
| Malloc (size : Z)
| Free (k : nat).

Record client : Type := mkClient {
  heap : allocator;
  returned : list Z
}.

Definition step (a : abi) (fuel : nat) (c : client) (op : call)
  : option client :=
  match op with
  | Malloc size =>
    match my_malloc a fuel (heap c) size with
    | None => None
    | Some (p, st) => Some {| heap := st; returned := returned c ++ [p] |}
    end
  | Free k =>
    Some {| heap := my_free a (heap c) (nth k (returned c) NULL);
            returned := returned c |}
  end.

Fixpoint run (a : abi) (fuel : nat) (c : client) (ops : list call)
  : option client :=
  match ops with
  | [] => Some c
  | op :: rest =>
    match step a fuel c op with
    | None => None
    | Some c' => run a fuel c' rest
    end
  end.

(** The allocator right after [init_allocator()], lines 399 and 96. *)
Definition fresh (a : abi) (base : Z) : client :=
  {| heap := init_allocator a (boot base); returned := [] |}.

(** ** Observers of the block list *)

(** The blocks met when following [next] from [current]. *)
Fixpoint block_list (a : abi) (fuel : nat) (m : memory) (current : Z)
  : option (list Z) :=
  if current =? NULL then Some []
  else match fuel with
       | O => None
       | S fuel' =>
         option_map (cons current)
                    (block_list a fuel' m (get a f_next m current))
       end.

Definition blocks_of (a : abi) (fuel : nat) (st : allocator) : option (list Z) :=
  block_list a fuel (pool st) (free_list_head st).

Definition sumZ (l : list Z) : Z := fold_right Z.add 0 l.

(** [sum (H + b.size)] over the blocks. *)
Definition coverage (a : abi) (m : memory) (bs : list Z) : Z :=
  sumZ (map (fun b => HEADER_SIZE a + get a f_size m b) bs).

(** [sum b.size] over the blocks with [b.free == 0]. *)
Definition allocated_bytes (a : abi) (m : memory) (bs : list Z) : Z :=
  sumZ (map (fun b => if get a f_free m b =? 0 then get a f_size m b else 0) bs).

(** ** Specification-side figures *)

(** The plain sum of [n] bytes from [p]. *)
Fixpoint byte_sum (n : nat) (m : memory) (p : Z) : Z :=
  match n with
  | O => 0
  | S k => load8 m p + byte_sum k m (p + 1)
  end.

(** [b] satisfies the test of line 138. *)
Definition fits (a : abi) (m : memory) (aligned_size b : Z) : bool :=
  negb (get a f_free m b =? 0) && (aligned_size <=? get a f_size m b).

(** The blocks the search passes over: they verify and do not fit. *)
Definition passed_over (a : abi) (m : memory) (aligned_size x : Z) : Prop :=
  verify_header a m x = true /\ fits a m aligned_size x = false.

(** Lines 211-212 of [my_free]: the block is marked free and its checksum
    renewed, before any neighbour is looked at. *)
Definition mark_free (a : abi) (m : memory) (header : Z) : memory :=
  let m := set a f_free m header 1 in
  set a f_checksum m header (calculate_checksum a m header).

(** The blocks [calculate_fragmentation] counts: those that verify and
    are free. *)
Definition counted (a : abi) (m : memory) (b : Z) : bool :=
  verify_header a m b && negb (get a f_free m b =? 0).

Definition free_sizes (a : abi) (m : memory) (bs : list Z) : list Z :=
  map (get a f_size m) (filter (counted a m) bs).

Definition maxZ (l : list Z) : Z := fold_right Z.max 0 l.

(** [0] if [k <= 1] or [F == 0], otherwise [100 - floor (100 * L / F)]. *)
Definition fragmentation_formula (k L F : Z) : Z :=
  if (k <=? 1) || (F =? 0) then 0 else 100 - 100 * L / F.

(** ** Concrete scenarios *)

(** An address for the pool, eight-aligned as the union of lines 39-44
    makes it. *)
Definition example_base : Z := 0x100000.

(** The calls of [demo_basic], lines 368-379: [p1], [p2] and [p3] are the
    results of the allocations number 0, 1 and 2. *)
Definition demo_basic : list call :=
  [Malloc 128; Malloc 256; Malloc 64; Free 1%nat; Free 0%nat; Free 2%nat].

(** The state a run from a fresh allocator ends in. *)
Definition state_after (a : abi) (fuel : nat) (base : Z) (ops : list call)
  : allocator :=
  match run a fuel (fresh a base) ops with
  | Some c => heap c
  | None => heap (fresh a base)
  end.

(** Blocks [used 16][free 256][used 64][free 8][used 8][free ...]. *)
Definition islands : allocator :=
  state_after ILP32 16 example_base
    [Malloc 16; Malloc 256; Malloc 64; Malloc 8; Malloc 8;
     Free 1%nat; Free 3%nat].

(** A client writing one byte where it should not. *)
Definition overwrite (st : allocator) (p v : Z) : allocator :=
  {| pool := store8 (pool st) p v;
     memory_pool := memory_pool st;
     free_list_head := free_list_head st;
     total_allocated := total_allocated st;
     total_free := total_free st;
     allocation_count := allocation_count st;
     fragmentation_score := fragmentation_score st |}.

(** ** The shape of the block list

    What the list looks like between two calls on ILP32, where the header
    takes 24 bytes.  A segment [l] of the list is read with a cursor: the
    first address a header may start at ([lo]), the block before ([pv])
    and the link to follow ([p]). *)

Definition good_header (m : memory) (b pv : Z) : Prop :=
  b mod 8 = 0
  /\ get ILP32 f_magic m b = MAGIC_COOKIE
  /\ get ILP32 f_prev m b = pv
  /\ (get ILP32 f_free m b = 0 \/ get ILP32 f_free m b = 1)
  /\ get ILP32 f_size m b mod 8 = 0.

Fixpoint seg (m : memory) (lo pv p : Z) (l : list Z) (lo' pv' q : Z) : Prop :=
  match l with
  | [] => lo <= lo' /\ pv = pv' /\ p = q
  | b :: r =>
    p = b /\ lo <= b /\ good_header m b pv
    /\ seg m (b + 24 + get ILP32 f_size m b) b (get ILP32 f_next m b) r lo' pv' q
  end.

(** An address that holds no header the allocator would accept as an
    allocated block: its first byte is not the low byte of the magic
    cookie, or the byte of its [free] member is not zero. *)
Definition not_a_live_header (m : memory) (x : Z) : Prop :=
  load8 m x <> 239 \/ load8 m (x + 8) <> 0.

Definition payload_pointer (p : Z) : Prop :=
  p = NULL \/ (p mod 8 = 0 /\ 24 <= p < 2 ^ 32).

(** What holds between the calls of a client on ILP32: [bs] are the
    blocks of the list, in address order inside the pool, each after the
    end of the one before and linked to it both ways; the counters follow
    the payload in use; no aligned address outside the list would pass
    for an allocated block (a pointer to a block that has since been
    absorbed by a neighbour is refused by [my_free]); and every pointer
    given out is [NULL] or an aligned payload address. *)
Record invariant (base : Z) (c : client) (bs : list Z) : Prop := {
  inv_pool : memory_pool (heap c) = base;
  inv_head : free_list_head (heap c) = base;
  inv_seg : exists e last,
      seg (pool (heap c)) base NULL base bs e last NULL
      /\ e <= base + POOL_SIZE;
  inv_alloc : total_allocated (heap c)
              = allocated_bytes ILP32 (pool (heap c)) bs;
  inv_free : total_free (heap c) = POOL_SIZE - 24 - total_allocated (heap c);
  inv_stale : forall x, x mod 8 = 0 -> ~ In x bs ->
                        not_a_live_header (pool (heap c)) x;
  inv_returned : Forall payload_pointer (returned c)
}.

(** Where the linker may put the pool. *)
Definition pool_address (a : abi) (base : Z) : Prop :=
  0 < base /\ base mod 8 = 0 /\ base + POOL_SIZE < size_modulus a.

(** The six stores of lines 157-162 (and of lines 103-108), with the
    values they store. *)
Definition write_header (m : memory) (header size next prev checksum : Z)
  : memory :=
  set ILP32 f_checksum
    (set ILP32 f_prev
      (set ILP32 f_next
        (set ILP32 f_free
          (set ILP32 f_size
            (set ILP32 f_magic m header MAGIC_COOKIE) header size)
          header 1)
        header next)
      header prev)
    header checksum.

(** ** print_memory_map (lines 292-335)

    What the function prints, one [map_line] per [printf] group: a row
    for a block, or the warning of line 303.  The loop is left at an
    unverifiable block, at the last block, or once [block_num] exceeds
    100, so it runs at most 101 times whatever the memory holds; [left]
    counts these iterations down and is never exhausted from 101. *)

Definition VISUALIZER_WIDTH : Z := 60.

Inductive map_line : Set :=
| Row (block_num visual_size size : Z) (is_free : bool) (first last : Z)
| Warning.

(** Lines 307-308: the number of bar characters [memset] writes. *)
Definition visual_size_of (a : abi) (size : Z) : Z :=
  let visual_size := to_int (to_size a (size * VISUALIZER_WIDTH) / POOL_SIZE) in
  if visual_size <? 1 then 1 else visual_size.

(** Lines 307-324: the row printed for the block at [current]. *)
Definition map_row (a : abi) (m : memory) (current block_num : Z) : map_line :=
  Row block_num
      (visual_size_of a (get a f_size m current))
      (get a f_size m current)
      (negb (get a f_free m current =? 0))
      current
      (to_size a (current + HEADER_SIZE a + get a f_size m current)).

Fixpoint map_rows (a : abi) (left : nat) (m : memory)
         (current block_num : Z) : list map_line :=
  match left with
  | O => []
  | S left' =>
    if negb (verify_header a m current) then [Warning]
    else
      map_row a m current block_num
      :: (if get a f_next m current =? NULL then []
          else if 100 <? block_num + 1 then []
               else map_rows a left' m (get a f_next m current) (block_num + 1))
  end.

Definition print_memory_map (a : abi) (st : allocator) : list map_line :=
  map_rows a 101 (pool st) (memory_pool st) 0.

(** ** Block lists in address order *)

(** Where a block ends: the address after its payload. *)
Definition block_end (a : abi) (m : memory) (b : Z) : Z :=
  b + HEADER_SIZE a + get a f_size m b.

(** The blocks [bs] lie one after the other between [lo] and [hi]: each
    starts at or after the end of the one before, [ends] giving the end
    of a block. *)
Fixpoint one_after_another (ends : Z -> Z) (lo : Z) (bs : list Z) (hi : Z)
  : Prop :=
  match bs with
  | [] => lo <= hi
  | b :: r => lo <= b /\ one_after_another ends (ends b) r hi
  end.

Definition in_address_order (a : abi) (m : memory) (lo : Z) (bs : list Z)
           (hi : Z) : Prop :=
  one_after_another (block_end a m) lo bs hi.

(** Every block of [bs] has the block before it (or [pv] for the first)
    in its [prev] member. *)
Fixpoint back_linked (a : abi) (m : memory) (pv : Z) (bs : list Z) : Prop :=
  match bs with
  | [] => True
  | b :: r => get a f_prev m b = pv /\ back_linked a m b r
  end.

(** ** What the memory map should show

    The number of bar characters of a line, and the rows for a list of
    blocks: one per block, numbered from [block_num], up to the first
    block that does not verify, where the warning stands. *)

Definition bar_length (l : map_line) : Z :=
  match l with
  | Row _ visual_size _ _ _ _ => visual_size
  | Warning => 0
  end.

Fixpoint rows_of (a : abi) (m : memory) (block_num : Z) (bs : list Z)
  : list map_line :=
  match bs with
  | [] => []
  | b :: r =>
    if verify_header a m b
    then map_row a m b block_num :: rows_of a m (block_num + 1) r
    else [Warning]
  end.

(** ** Headers and payloads as sets of addresses *)



(** ** print_statistics (lines 341-356)

    The seven figures printed, after [calculate_fragmentation] has
    stored the score. *)

Record statistics : Set := mkStatistics {
  shown_pool_size : Z;
  shown_allocated : Z;
  shown_free : Z;
  shown_active : Z;
  shown_score : Z;
  shown_header_size : Z;
  shown_alignment : Z
}.

Definition print_statistics (a : abi) (fuel : nat) (st : allocator)
  : option (statistics * allocator) :=
  match calculate_fragmentation a fuel st with
  | None => None
  | Some st' =>
    Some ({| shown_pool_size := POOL_SIZE;
             shown_allocated := total_allocated st';
             shown_free := total_free st';
             shown_active := allocation_count st';
             shown_score := fragmentation_score st';
             shown_header_size := HEADER_SIZE a;
             shown_alignment := ALIGNMENT |}, st')
  end.

(** ** demo_basic and main (lines 362-410)

    What the program prints, banners aside: the memory maps and the
    statistics, in the order of the calls.  [None] when a loop of the
    allocator is still running after [fuel] iterations. *)

Inductive output : Set :=
| Map (rows : list map_line)
| Stats (figures : statistics).

Definition and_then {A B : Type} (x : option A) (f : A -> option B)
  : option B :=
  match x with
  | Some v => f v
  | None => None
  end.

Definition demo_basic_output (a : abi) (fuel : nat) (st : allocator)
  : option (list output * allocator) :=
  and_then (my_malloc a fuel st 128) (fun r1 =>
  and_then (my_malloc a fuel (snd r1) 256) (fun r2 =>
  and_then (my_malloc a fuel (snd r2) 64) (fun r3 =>
  let st := snd r3 in
  let map1 := print_memory_map a st in
  and_then (print_statistics a fuel st) (fun s1 =>
  let st := my_free a (snd s1) (fst r2) in
  let map2 := print_memory_map a st in
  let st := my_free a st (fst r1) in
  let st := my_free a st (fst r3) in
  let map3 := print_memory_map a st in
  and_then (print_statistics a fuel st) (fun s2 =>
  Some ([Map map1; Stats (fst s1); Map map2; Map map3; Stats (fst s2)],
        snd s2)))))).

Definition main (a : abi) (fuel : nat) (base : Z) : option (list output) :=
  let st := init_allocator a (boot base) in
  and_then (demo_basic_output a fuel st) (fun d =>
  and_then (print_statistics a fuel (snd d)) (fun s =>
  Some (fst d ++ [Stats (fst s)]))).

(** The 24 bytes of the header at [h] are the same in [m'] as in [m]. *)
Definition same_header (m m' : memory) (h : Z) : Prop :=
  forall q, h <= q < h + 24 -> load8 m' q = load8 m q.

(** ** The list as a chain of links

    [l] is what following [next] from [p] meets, up to [NULL]. *)
Fixpoint linked (next : Z -> Z) (p : Z) (l : list Z) : Prop :=
  match l with
  | [] => p = NULL
  | b :: r => p = b /\ b <> NULL /\ linked next (next b) r
  end.

(** The number of blocks of [bs] with [free == 0]. *)
Definition blocks_in_use (a : abi) (m : memory) (bs : list Z) : Z :=
  Z.of_nat (length (filter (fun b => get a f_free m b =? 0) bs)).
(** * Bytes, loads and stores *)

Lemma load8_range (m : memory) (p : Z) : 0 <= load8 m p < 256.
Proof. unfold load8. apply Z.mod_pos_bound. lia. Qed.

Lemma load8_store8 (m : memory) (p v q : Z) :
  load8 (store8 m p v) q = if q =? p then v mod 256 else load8 m q.
Proof.
  unfold load8, store8. destruct (q =? p); [apply Z.mod_mod; lia | reflexivity].
Qed.

Lemma load8_store_out (n : nat) : forall (m : memory) (p v q : Z),
  q < p \/ p + Z.of_nat n <= q -> load8 (store n m p v) q = load8 m q.
Proof.
  induction n as [|n IH]; intros m p v q Hq; simpl; [reflexivity|].
  rewrite IH by lia. rewrite load8_store8.
  destruct (Z.eqb_spec q p); [lia | reflexivity].
Qed.

Lemma load8_store_in (n : nat) : forall (m : memory) (p v q : Z),
  p <= q < p + Z.of_nat n ->
  load8 (store n m p v) q = (v / 256 ^ (q - p)) mod 256.
Proof.
  induction n as [|n IH]; intros m p v q Hq; simpl; [lia|].
  destruct (Z.eq_dec q p) as [->|Hne].
  - rewrite load8_store_out by lia. rewrite load8_store8, Z.eqb_refl.
    rewrite Z.sub_diag. simpl. now rewrite Z.div_1_r.
  - rewrite IH by lia. rewrite Z.div_div by lia.
    replace (256 * 256 ^ (q - (p + 1))) with (256 ^ (q - p)); [reflexivity|].
    replace (q - p) with (Z.succ (q - (p + 1))) by lia.
    rewrite Z.pow_succ_r by lia. reflexivity.
Qed.

Lemma load_range (n : nat) : forall (m : memory) (p : Z),
  0 <= load n m p < 256 ^ Z.of_nat n.
Proof.
  induction n as [|n IH]; intros m p.
  - simpl. lia.
  - cbn [load]. pose proof (load8_range m p). specialize (IH m (p + 1)).
    rewrite Nat2Z.inj_succ, Z.pow_succ_r by lia. lia.
Qed.

Lemma load_ext (n : nat) : forall (m m' : memory) (p : Z),
  (forall q, p <= q < p + Z.of_nat n -> load8 m' q = load8 m q) ->
  load n m' p = load n m p.
Proof.
  induction n as [|n IH]; intros m m' p Hq; cbn [load]; [reflexivity|].
  rewrite Hq by lia. rewrite (IH m m' (p + 1)); [reflexivity|].
  intros q Hr. apply Hq. lia.
Qed.

Lemma load_store_other (n k : nat) (m : memory) (p v q : Z) :
  q + Z.of_nat k <= p \/ p + Z.of_nat n <= q ->
  load k (store n m p v) q = load k m q.
Proof.
  intros Hd. apply load_ext. intros r Hr. apply load8_store_out. lia.
Qed.

Lemma load_store_same (n : nat) : forall (m : memory) (p v : Z),
  load n (store n m p v) p = v mod 256 ^ Z.of_nat n.
Proof.
  induction n as [|n IH]; intros m p v.
  - simpl. now rewrite Z.mod_1_r.
  - cbn [load store]. rewrite IH.
    rewrite load8_store_out by lia. rewrite load8_store8, Z.eqb_refl.
    rewrite Nat2Z.inj_succ, Z.pow_succ_r by lia.
    rewrite Z.rem_mul_r by lia. reflexivity.
Qed.

Lemma sum_bytes_ext (n : nat) : forall (m m' : memory) (p s : Z),
  (forall q, p <= q < p + Z.of_nat n -> load8 m' q = load8 m q) ->
  sum_bytes n m' p s = sum_bytes n m p s.
Proof.
  induction n as [|n IH]; intros m m' p s Hq; cbn [sum_bytes]; [reflexivity|].
  rewrite Hq by lia. apply IH. intros q Hr. apply Hq. lia.
Qed.

(** * Header fields *)

Lemma header_size_value (a : abi) :
  HEADER_SIZE a = match a with ILP32 => 24 | LP64 => 48 end.
Proof. destruct a; reflexivity. Qed.

Lemma sizeof_value (a : abi) : sizeof_block_header a = HEADER_SIZE a.
Proof. destruct a; reflexivity. Qed.

Lemma size_modulus_value (a : abi) :
  size_modulus a = match a with ILP32 => 2 ^ 32 | LP64 => 2 ^ 64 end.
Proof. destruct a; reflexivity. Qed.

Lemma field_inside (a : abi) (f : field) :
  0 <= offset a f /\ offset a f + Z.of_nat (width a f) <= HEADER_SIZE a.
Proof. destruct a, f; vm_compute; split; discriminate. Qed.

Lemma fields_apart (a : abi) (f f' : field) :
  f <> f' ->
  offset a f' + Z.of_nat (width a f') <= offset a f
  \/ offset a f + Z.of_nat (width a f) <= offset a f'.
Proof.
  destruct a, f, f'; intros Hne; try congruence;
    vm_compute; ((left; discriminate) || (right; discriminate)).
Qed.

Lemma get_range (a : abi) (f : field) (m : memory) (b : Z) :
  0 <= get a f m b < 256 ^ Z.of_nat (width a f).
Proof. apply load_range. Qed.

Lemma get_set_same (a : abi) (f : field) (m : memory) (b v : Z) :
  get a f (set a f m b v) b = v mod 256 ^ Z.of_nat (width a f).
Proof. apply load_store_same. Qed.

Lemma get_set_field (a : abi) (f f' : field) (m : memory) (b v : Z) :
  f <> f' -> get a f' (set a f m b v) b = get a f' m b.
Proof.
  intros Hne. apply load_store_other.
  destruct (fields_apart a f f' Hne); lia.
Qed.

Lemma get_set_block (a : abi) (f f' : field) (m : memory) (b b' v : Z) :
  b' + HEADER_SIZE a <= b \/ b + HEADER_SIZE a <= b' ->
  get a f' (set a f m b v) b' = get a f' m b'.
Proof.
  intros Hd. apply load_store_other.
  pose proof (field_inside a f). pose proof (field_inside a f'). lia.
Qed.

Lemma size_t_width (a : abi) (f : field) :
  f = f_size \/ f = f_next \/ f = f_prev ->
  256 ^ Z.of_nat (width a f) = size_modulus a.
Proof. destruct a; intros [->|[->| ->]]; reflexivity. Qed.

Lemma to_size_range (a : abi) (x : Z) : 0 <= to_size a x < size_modulus a.
Proof. apply Z.mod_pos_bound. destruct a; reflexivity. Qed.

Lemma to_size_small (a : abi) (x : Z) :
  0 <= x < size_modulus a -> to_size a x = x.
Proof. intros. apply Z.mod_small. assumption. Qed.

(** * The checksum *)

Lemma checksum_set_block (a : abi) (f : field) (m : memory) (b b' v : Z) :
  b' + HEADER_SIZE a <= b \/ b + HEADER_SIZE a <= b' ->
  calculate_checksum a (set a f m b v) b' = calculate_checksum a m b'.
Proof.
  intros Hd. apply sum_bytes_ext. intros q Hq. apply load8_store_out.
  pose proof (field_inside a f). rewrite <- sizeof_value in *.
  assert (0 <= sizeof_block_header a - 4) by (destruct a; vm_compute; discriminate).
  rewrite Z2Nat.id in Hq by assumption. lia.
Qed.

Lemma verify_set_block (a : abi) (f : field) (m : memory) (b b' v : Z) :
  b' + HEADER_SIZE a <= b \/ b + HEADER_SIZE a <= b' ->
  verify_header a (set a f m b v) b' = verify_header a m b'.
Proof.
  intros Hd. unfold verify_header.
  rewrite !get_set_block, checksum_set_block by assumption. reflexivity.
Qed.

(** On ILP32 the struct has no padding after [checksum]: the summed range
    ends where that field begins. *)
Lemma checksum_skips_own_field_ILP32 (m : memory) (b v : Z) :
  calculate_checksum ILP32 (set ILP32 f_checksum m b v) b
  = calculate_checksum ILP32 m b.
Proof.
  apply sum_bytes_ext. intros q Hq. apply load8_store_out.
  change (Z.of_nat (Z.to_nat (sizeof_block_header ILP32 - 4))) with 20 in Hq.
  change (offset ILP32 f_checksum) with 20. lia.
Qed.

Lemma to_u32_add_l (x y : Z) : to_u32 (to_u32 x + y) = to_u32 (x + y).
Proof. unfold to_u32. apply Zplus_mod_idemp_l. Qed.

Lemma sum_bytes_byte_sum (n : nat) : forall (m : memory) (p s : Z),
  sum_bytes n m p (to_u32 s) = to_u32 (s + byte_sum n m p).
Proof.
  induction n as [|n IH]; intros m p s; cbn [sum_bytes byte_sum].
  - now rewrite Z.add_0_r.
  - rewrite to_u32_add_l, IH. f_equal. lia.
Qed.

Lemma byte_sum_range (n : nat) : forall (m : memory) (p : Z),
  0 <= byte_sum n m p <= 255 * Z.of_nat n.
Proof.
  induction n as [|n IH]; intros m p; cbn [byte_sum]; [lia|].
  pose proof (load8_range m p). specialize (IH m (p + 1)). lia.
Qed.

Lemma checksum_byte_sum (a : abi) (m : memory) (b : Z) :
  calculate_checksum a m b
  = byte_sum (Z.to_nat (sizeof_block_header a - 4)) m b.
Proof.
  unfold calculate_checksum. change 0 with (to_u32 0) at 1.
  rewrite sum_bytes_byte_sum, Z.add_0_l.
  apply Z.mod_small.
  pose proof (byte_sum_range (Z.to_nat (sizeof_block_header a - 4)) m b).
  assert (Z.of_nat (Z.to_nat (sizeof_block_header a - 4)) <= 44)
    by (destruct a; vm_compute; discriminate).
  lia.
Qed.

Lemma byte_sum_ext (n : nat) : forall (m m' : memory) (p : Z),
  (forall q, p <= q < p + Z.of_nat n -> load8 m' q = load8 m q) ->
  byte_sum n m' p = byte_sum n m p.
Proof.
  induction n as [|n IH]; intros m m' p Hq; cbn [byte_sum]; [reflexivity|].
  rewrite Hq by lia. rewrite (IH m m' (p + 1)); [reflexivity|].
  intros q Hr. apply Hq. lia.
Qed.

Lemma byte_sum_store8 (n : nat) : forall (m : memory) (p q v : Z),
  p <= q < p + Z.of_nat n ->
  byte_sum n (store8 m q v) p = byte_sum n m p - load8 m q + v mod 256.
Proof.
  induction n as [|n IH]; intros m p q v Hq; cbn [byte_sum]; [lia|].
  rewrite load8_store8. destruct (Z.eqb_spec p q) as [->|Hne].
  - rewrite (byte_sum_ext n m (store8 m q v) (q + 1)); [lia|].
    intros r Hr. rewrite load8_store8.
    destruct (Z.eqb_spec r q); [lia | reflexivity].
  - rewrite IH by lia. lia.
Qed.

(** The checksum depends on every byte of the range it sums: changing one
    of them changes it. *)
Lemma checksum_depends_on_every_byte (a : abi) (m : memory) (b i v : Z) :
  0 <= i < sizeof_block_header a - 4 ->
  v mod 256 <> load8 m (b + i) ->
  calculate_checksum a (store8 m (b + i) v) b <> calculate_checksum a m b.
Proof.
  intros Hi Hv. rewrite !checksum_byte_sum.
  rewrite byte_sum_store8; [lia|].
  rewrite Z2Nat.id by lia. lia.
Qed.

(** * The search loop and the block list *)

Lemma block_list_cons (a : abi) (fuel : nat) (m : memory) (head b : Z)
      (l : list Z) :
  block_list a fuel m head = Some (b :: l) ->
  head <> NULL /\ b = head /\
  exists fuel', fuel = S fuel'
                /\ block_list a fuel' m (get a f_next m head) = Some l.
Proof.
  destruct fuel as [|fuel']; cbn [block_list];
    destruct (Z.eqb_spec head NULL) as [E|E]; try discriminate.
  destruct (block_list a fuel' m (get a f_next m head)) as [l'|] eqn:El;
    cbn [option_map]; [|discriminate].
  intros [= <- <-]. repeat split; eauto.
Qed.

Lemma block_list_nil (a : abi) (fuel : nat) (m : memory) (head : Z) :
  block_list a fuel m head = Some [] -> head = NULL.
Proof.
  destruct fuel as [|fuel']; cbn [block_list];
    destruct (Z.eqb_spec head NULL) as [E|E]; try discriminate; auto.
  destruct (block_list a fuel' m (get a f_next m head)); discriminate.
Qed.

Lemma block_list_more_fuel (a : abi) (m : memory) (bs : list Z) :
  forall (fuel fuel' : nat) (head : Z),
  block_list a fuel m head = Some bs -> (fuel <= fuel')%nat ->
  block_list a fuel' m head = Some bs.
Proof.
  induction bs as [|b bs IH]; intros fuel fuel' head Hl Hle.
  - apply block_list_nil in Hl. subst head. destruct fuel'; reflexivity.
  - apply block_list_cons in Hl. destruct Hl as (Hn & -> & f & -> & Hl).
    destruct fuel' as [|f']; [lia|]. cbn [block_list].
    destruct (Z.eqb_spec head NULL); [contradiction|].
    rewrite (IH f f') by (assumption || lia). reflexivity.
Qed.

Section Search.
Variables (a : abi) (m : memory) (aligned_size : Z).

Lemma search_passes (l1 : list Z) (b : Z) (l2 : list Z) :
  forall (fuel : nat) (head : Z),
  block_list a fuel m head = Some (l1 ++ b :: l2) ->
  Forall (passed_over a m aligned_size) l1 ->
  b <> NULL /\
  exists fuel', first_fit a fuel m head aligned_size
                = first_fit a (S fuel') m b aligned_size.
Proof.
  induction l1 as [|x l1 IH]; intros fuel head Hl Hp.
  - apply block_list_cons in Hl. destruct Hl as (Hn & -> & f & -> & _).
    split; [assumption|]. now exists f.
  - cbn [app] in Hl. apply block_list_cons in Hl.
    destruct Hl as (Hn & -> & f & -> & Hl).
    inversion Hp as [|? ? [Hv Hf] Hp']; subst.
    destruct (IH f _ Hl Hp') as [Hb [f' E]]. split; [assumption|].
    exists f'. rewrite <- E. cbn [first_fit].
    destruct (Z.eqb_spec head NULL); [contradiction|].
    rewrite Hv. cbn [negb]. unfold fits in Hf. rewrite Hf. reflexivity.
Qed.

Lemma search_finds (l1 : list Z) (b : Z) (l2 : list Z) (fuel : nat) (head : Z) :
  block_list a fuel m head = Some (l1 ++ b :: l2) ->
  Forall (passed_over a m aligned_size) l1 ->
  verify_header a m b = true -> fits a m aligned_size b = true ->
  first_fit a fuel m head aligned_size = Found b.
Proof.
  intros Hl Hp Hv Hf. destruct (search_passes _ _ _ _ _ Hl Hp) as [Hb [f ->]].
  cbn [first_fit]. destruct (Z.eqb_spec b NULL); [contradiction|].
  rewrite Hv. cbn [negb]. unfold fits in Hf. now rewrite Hf.
Qed.

Lemma search_aborts (l1 : list Z) (b : Z) (l2 : list Z) (fuel : nat) (head : Z) :
  block_list a fuel m head = Some (l1 ++ b :: l2) ->
  Forall (passed_over a m aligned_size) l1 ->
  verify_header a m b = false ->
  first_fit a fuel m head aligned_size = Corrupt b.
Proof.
  intros Hl Hp Hv. destruct (search_passes _ _ _ _ _ Hl Hp) as [Hb [f ->]].
  cbn [first_fit]. destruct (Z.eqb_spec b NULL); [contradiction|].
  now rewrite Hv.
Qed.
End Search.

(** [line 126] rounds up to the next multiple of eight as long as
    [size + 7] still fits [size_t]. *)
Lemma align_size_multiple (a : abi) (size : Z) :
  align_size a size = 8 * (to_size a (size + 7) / 8).
Proof.
  unfold align_size, ALIGNMENT. replace (size + 8 - 1) with (size + 7) by lia.
  pose proof (to_size_range a (size + 7)) as Hr.
  set (x := to_size a (size + 7)) in *.
  assert (E : to_size a (Z.lnot (8 - 1)) = Z.land (Z.lnot 7) (Z.ones (8 * word a))).
  { unfold to_size, size_modulus. rewrite Z.land_ones; [reflexivity|].
    destruct a; vm_compute; discriminate. }
  rewrite E, Z.land_assoc, (Z.land_comm x), <- Z.land_assoc.
  assert (Ex : Z.land x (Z.ones (8 * word a)) = x).
  { rewrite Z.land_ones by (destruct a; vm_compute; discriminate).
    apply Z.mod_small. exact Hr. }
  rewrite Ex. rewrite Z.land_comm.
  change (Z.land x (Z.lnot 7)) with (Z.ldiff x (Z.ones 3)).
  rewrite Z.ldiff_ones_r by lia.
  rewrite Z.shiftr_div_pow2, Z.shiftl_mul_pow2 by lia.
  change (2 ^ 3) with 8. lia.
Qed.

Lemma align_size_round_up (a : abi) (size : Z) :
  0 <= size -> size + 7 < size_modulus a ->
  align_size a size = round_up size ALIGNMENT.
Proof.
  intros H0 H1. rewrite align_size_multiple. unfold round_up, ALIGNMENT.
  rewrite to_size_small by lia. replace (size + 8 - 1) with (size + 7) by lia.
  lia.
Qed.

Lemma align_size_range (a : abi) (size : Z) :
  0 <= align_size a size < size_modulus a /\ align_size a size mod 8 = 0.
Proof.
  rewrite align_size_multiple. pose proof (to_size_range a (size + 7)) as Hr.
  split.
  - pose proof (Z.mul_div_le (to_size a (size + 7)) 8). 
    assert (0 <= to_size a (size + 7) / 8) by (apply Z.div_pos; lia). lia.
  - rewrite Z.mul_comm. apply Z.mod_mul. lia.
Qed.

(** * What [take_block] leaves in the chosen header *)

Lemma take_block_header (a : abi) (st : allocator) (b n : Z) :
  0 <= n < size_modulus a ->
  let st' := snd (take_block a st b n) in
  get a f_free (pool st') b = 0 /\ get a f_size (pool st') b = n.
Proof.
  intros Hn. cbn [take_block snd pool]. split.
  - rewrite !get_set_field by discriminate. rewrite get_set_same. reflexivity.
  - rewrite get_set_field by discriminate. rewrite get_set_same.
    rewrite size_t_width by auto. apply Z.mod_small. exact Hn.
Qed.

(** * The fragmentation walk *)

Lemma maxZ_nonneg (l : list Z) : 0 <= maxZ l.
Proof. unfold maxZ. induction l; cbn [fold_right]; lia. Qed.

Lemma frag_walk_figures (a : abi) (m : memory) (bs : list Z) :
  forall (fuel : nat) (head k l t : Z),
  block_list a fuel m head = Some bs ->
  0 <= l -> 0 <= t < size_modulus a ->
  frag_walk a fuel m head k l t
  = Some (k + Z.of_nat (length (free_sizes a m bs)),
          Z.max l (maxZ (free_sizes a m bs)),
          to_size a (t + sumZ (free_sizes a m bs))).
Proof.
  induction bs as [|b bs IH]; intros fuel head k l t Hl H0 Ht.
  - apply block_list_nil in Hl. subst head.
    assert (E : frag_walk a fuel m NULL k l t = Some (k, l, t))
      by (destruct fuel; reflexivity).
    rewrite E. unfold free_sizes. cbn [filter map length sumZ maxZ fold_right].
    change (Z.of_nat 0) with 0.
    rewrite !Z.add_0_r, to_size_small by assumption.
    rewrite Z.max_l by lia. reflexivity.
  - apply block_list_cons in Hl. destruct Hl as (Hn & -> & f & -> & Hl).
    cbn [frag_walk]. destruct (Z.eqb_spec head NULL); [contradiction|].
    unfold free_sizes. cbn [filter]. fold (counted a m head).
    destruct (counted a m head) eqn:Ec.
    + rewrite (IH _ _ _ _ _ Hl);
        [|destruct (Z.ltb_spec l (get a f_size m head)); lia|apply to_size_range].
      cbn [map length sumZ maxZ fold_right].
      fold (free_sizes a m bs).
      set (fs := free_sizes a m bs). set (s := get a f_size m head).
      fold (sumZ fs). fold (maxZ fs). rewrite Nat2Z.inj_succ.
      f_equal. f_equal; [f_equal|].
      * lia.
      * destruct (Z.ltb_spec l s); lia.
      * unfold to_size. rewrite Zplus_mod_idemp_l. f_equal. lia.
    + rewrite (IH _ _ _ _ _ Hl) by assumption. reflexivity.
Qed.

Lemma free_sizes_skip (a : abi) (m : memory) (l1 : list Z) (b : Z) (l2 : list Z) :
  counted a m b = false ->
  free_sizes a m (l1 ++ b :: l2) = free_sizes a m (l1 ++ l2).
Proof.
  intros Hc. unfold free_sizes. rewrite !filter_app. cbn [filter].
  now rewrite Hc.
Qed.

(** * The block list on ILP32 *)

Section Shape.
Variable m : memory.

Lemma seg_weaken (l : list Z) (lo0 lo pv p lo' pv' q : Z) :
  lo0 <= lo -> seg m lo pv p l lo' pv' q -> seg m lo0 pv p l lo' pv' q.
Proof.
  destruct l as [|b r]; cbn [seg]; intros Hle H.
  - intuition lia.
  - intuition lia.
Qed.

Lemma seg_app (l1 l2 : list Z) : forall (lo pv p lo' pv' q : Z),
  seg m lo pv p (l1 ++ l2) lo' pv' q <->
  exists lo1 pv1 p1,
    seg m lo pv p l1 lo1 pv1 p1 /\ seg m lo1 pv1 p1 l2 lo' pv' q.
Proof.
  induction l1 as [|b r IH]; intros lo pv p lo' pv' q; cbn [app seg].
  - split.
    + intros H. exists lo, pv, p. repeat split; (lia || assumption).
    + intros (lo1 & pv1 & p1 & (Hle & -> & ->) & H).
      eapply seg_weaken; eassumption.
  - rewrite IH. split.
    + intros (Hp & Hlo & Hg & lo1 & pv1 & p1 & H1 & H2).
      exists lo1, pv1, p1. tauto.
    + intros (lo1 & pv1 & p1 & (Hp & Hlo & Hg & H1) & H2).
      do 3 (split; [assumption|]). exists lo1, pv1, p1. tauto.
Qed.

Lemma seg_range (l : list Z) : forall (lo pv p lo' pv' q : Z),
  seg m lo pv p l lo' pv' q ->
  lo <= lo' /\ forall x, In x l -> lo <= x /\ x + 24 <= lo'.
Proof.
  induction l as [|b r IH]; intros lo pv p lo' pv' q; cbn [seg].
  - intros (Hle & _). split; [assumption | intros x []].
  - intros (_ & Hlo & _ & Hr). apply IH in Hr. destruct Hr as [Hle Hin].
    pose proof (get_range ILP32 f_size m b) as Hs.
    split; [lia|]. intros x [<-|Hx]; [lia|]. apply Hin in Hx. lia.
Qed.

Lemma seg_cover (l : list Z) : forall (lo pv p lo' pv' q : Z),
  seg m lo pv p l lo' pv' q -> lo + coverage ILP32 m l <= lo'.
Proof.
  induction l as [|b r IH]; intros lo pv p lo' pv' q; cbn [seg].
  - intros (Hle & _). unfold coverage. cbn. lia.
  - intros (_ & Hlo & _ & Hr). apply IH in Hr.
    unfold coverage in *. cbn [map sumZ fold_right].
    fold (sumZ (map (fun b0 => HEADER_SIZE ILP32 + get ILP32 f_size m b0) r)).
    change (HEADER_SIZE ILP32) with 24 in *. unfold sumZ in *. lia.
Qed.

Lemma seg_last (l : list Z) : forall (lo pv p lo' pv' q : Z),
  seg m lo pv p l lo' pv' q ->
  (l = [] /\ pv' = pv) \/ (exists l' b, l = l' ++ [b] /\ pv' = b).
Proof.
  induction l as [|b r IH]; intros lo pv p lo' pv' q; cbn [seg].
  - intros (_ & -> & _). now left.
  - intros (_ & _ & _ & Hr). right. apply IH in Hr.
    destruct Hr as [[-> ->]|(l' & x & -> & ->)].
    + now exists [], b.
    + now exists (b :: l'), x.
Qed.

Lemma seg_block_list (l : list Z) : forall (fuel : nat) (lo pv p lo' pv' : Z),
  0 < lo -> seg m lo pv p l lo' pv' NULL -> (length l <= fuel)%nat ->
  block_list ILP32 fuel m p = Some l.
Proof.
  induction l as [|b r IH]; intros fuel lo pv p lo' pv' H0; cbn [seg length].
  - intros (_ & _ & ->) _. destruct fuel; reflexivity.
  - intros (-> & Hlo & _ & Hr) Hf. destruct fuel as [|fuel]; [lia|].
    cbn [block_list]. destruct (Z.eqb_spec b NULL) as [E|_]; [unfold NULL in E; lia|].
    pose proof (get_range ILP32 f_size m b).
    erewrite IH; [reflexivity| |exact Hr|]; lia.
Qed.

Lemma seg_length (l : list Z) : forall (lo pv p lo' pv' q : Z),
  seg m lo pv p l lo' pv' q -> lo + 24 * Z.of_nat (length l) <= lo'.
Proof.
  induction l as [|b r IH]; intros lo pv p lo' pv' q; cbn [seg length].
  - intros (Hle & _). lia.
  - intros (_ & Hlo & _ & Hr). apply IH in Hr.
    pose proof (get_range ILP32 f_size m b). lia.
Qed.

End Shape.

Lemma seg_cons_intro (m : memory) (b : Z) (r : list Z)
      (lo pv p lo' pv' q : Z) :
  p = b -> lo <= b -> good_header m b pv ->
  seg m (b + 24 + get ILP32 f_size m b) b (get ILP32 f_next m b) r lo' pv' q ->
  seg m lo pv p (b :: r) lo' pv' q.
Proof. intros. cbn [seg]. tauto. Qed.

Lemma seg_frame (m m' : memory) (l : list Z) : forall (lo pv p lo' pv' q : Z),
  (forall x f, In x l -> f <> f_checksum ->
               get ILP32 f m' x = get ILP32 f m x) ->
  seg m lo pv p l lo' pv' q -> seg m' lo pv p l lo' pv' q.
Proof.
  induction l as [|b r IH]; intros lo pv p lo' pv' q Hf; cbn [seg]; [tauto|].
  intros (Hp & Hlo & Hg & Hr). split; [assumption|]. split; [assumption|].
  assert (Hb : forall f, f <> f_checksum -> get ILP32 f m' b = get ILP32 f m b)
    by (intros f; apply Hf; now left).
  split.
  - unfold good_header in *. rewrite !Hb by discriminate. exact Hg.
  - rewrite !Hb by discriminate. apply IH; [|exact Hr].
    intros x f Hx. apply Hf. now right.
Qed.

Lemma allocated_bytes_app (a : abi) (m : memory) (l1 l2 : list Z) :
  allocated_bytes a m (l1 ++ l2)
  = allocated_bytes a m l1 + allocated_bytes a m l2.
Proof.
  unfold allocated_bytes, sumZ. induction l1 as [|b r IH]; cbn [app map fold_right].
  - lia.
  - rewrite IH. lia.
Qed.

Lemma coverage_app (a : abi) (m : memory) (l1 l2 : list Z) :
  coverage a m (l1 ++ l2) = coverage a m l1 + coverage a m l2.
Proof.
  unfold coverage, sumZ. induction l1 as [|b r IH]; cbn [app map fold_right].
  - lia.
  - rewrite IH. lia.
Qed.

Lemma coverage_cons (a : abi) (m : memory) (b : Z) (l : list Z) :
  coverage a m (b :: l)
  = HEADER_SIZE a + get a f_size m b + coverage a m l.
Proof. reflexivity. Qed.

Lemma allocated_bytes_frame (a : abi) (m m' : memory) (l : list Z) :
  (forall x, In x l -> get a f_free m' x = get a f_free m x
                       /\ get a f_size m' x = get a f_size m x) ->
  allocated_bytes a m' l = allocated_bytes a m l.
Proof.
  unfold allocated_bytes. intros Hf. f_equal. apply map_ext_in.
  intros x Hx. destruct (Hf x Hx) as [-> ->]. reflexivity.
Qed.

Lemma allocated_bytes_cons (a : abi) (m : memory) (b : Z) (l : list Z) :
  allocated_bytes a m (b :: l)
  = (if get a f_free m b =? 0 then get a f_size m b else 0)
    + allocated_bytes a m l.
Proof. reflexivity. Qed.

Lemma allocated_le_coverage (a : abi) (m : memory) (l : list Z) :
  0 <= allocated_bytes a m l <= coverage a m l.
Proof.
  unfold allocated_bytes, coverage, sumZ.
  induction l as [|b r IH]; cbn [map fold_right]; [lia|].
  pose proof (get_range a f_size m b) as Hs.
  assert (0 <= HEADER_SIZE a) by (rewrite header_size_value; destruct a; lia).
  destruct (get a f_free m b =? 0); lia.
Qed.

(** * Addresses that hold no live header (ILP32) *)

Lemma get_set_apart (f f' : field) (m : memory) (b x v : Z) :
  x + 24 <= b \/ b + 24 <= x ->
  get ILP32 f' (set ILP32 f m b v) x = get ILP32 f' m x.
Proof. intros H. apply get_set_block. exact H. Qed.

Lemma get_free_byte (m : memory) (b : Z) :
  get ILP32 f_free m b = load8 m (b + 8).
Proof.
  unfold get. change (width ILP32 f_free) with 1%nat.
  change (offset ILP32 f_free) with 8. cbn [load]. lia.
Qed.

Lemma magic_first_byte (m : memory) (b : Z) :
  get ILP32 f_magic m b = MAGIC_COOKIE -> load8 m b = 239.
Proof.
  unfold get. change (offset ILP32 f_magic) with 0. rewrite Z.add_0_r.
  change (width ILP32 f_magic) with 4%nat.
  change 4%nat with (S 3). cbn [load]. intros E.
  pose proof (load8_range m b). pose proof (load_range 3 m (b + 1)) as H3.
  change (256 ^ Z.of_nat 3) with 16777216 in H3.
  unfold MAGIC_COOKIE in E. lia.
Qed.

Lemma load8_set (f : field) (m : memory) (b v q : Z) :
  load8 (set ILP32 f m b v) q
  = if (b + offset ILP32 f <=? q)
       && (q <? b + offset ILP32 f + Z.of_nat (width ILP32 f))
    then (v / 256 ^ (q - (b + offset ILP32 f))) mod 256
    else load8 m q.
Proof.
  unfold set.
  destruct (Z.leb_spec (b + offset ILP32 f) q);
    destruct (Z.ltb_spec q (b + offset ILP32 f + Z.of_nat (width ILP32 f)));
    cbn [andb].
  - apply load8_store_in. lia.
  - apply load8_store_out. lia.
  - apply load8_store_out. lia.
  - apply load8_store_out. lia.
Qed.

Lemma not_live_set (f : field) (m : memory) (b v x : Z) :
  b mod 8 = 0 -> x mod 8 = 0 -> x <> b ->
  (f = f_magic -> v = MAGIC_COOKIE) ->
  (f = f_free -> v = 0 \/ v = 1) ->
  (f = f_prev ->
   v mod 8 = 0 /\ (get ILP32 f_free m b = 0 \/ get ILP32 f_free m b = 1)) ->
  not_a_live_header m x -> not_a_live_header (set ILP32 f m b v) x.
Proof.
  intros Hb Hx Hne Hmagic Hfree Hprev Hs. unfold not_a_live_header in *.
  rewrite !load8_set. rewrite get_free_byte in Hprev.
  assert (Hj : exists j, x = b + 8 * j).
  { exists ((x - b) / 8). pose proof (Z.div_mod (x - b) 8 ltac:(lia)) as E.
    assert ((x - b) mod 8 = 0) by (rewrite Zminus_mod, Hb, Hx; reflexivity).
    lia. }
  destruct Hj as [j ->].
  destruct f; cbn [width word_bytes offset];
    repeat match goal with
    | |- context [round_up ?x ?y] =>
      let r := eval vm_compute in (round_up x y) in change (round_up x y) with r
    end.
  all: repeat match goal with
       | |- context [?u <=? ?w] => destruct (Z.leb_spec u w)
       | |- context [?u <? ?w] => destruct (Z.ltb_spec u w)
       end; cbn [andb]; try tauto; try lia.
  - assert (j = -1) by lia. subst j. right.
    replace (b + 8 * -1 + 8 - (b + 0)) with 0 by lia.
    rewrite (Hmagic eq_refl). vm_compute. discriminate.
  - assert (j = 1) by lia. subst j. left.
    replace (b + 8 * 1 - (b + 8)) with 0 by lia.
    destruct (Hfree eq_refl) as [-> | ->]; vm_compute; discriminate.
  - assert (j = 2) by lia. subst j. left.
    replace (b + 8 * 2 - (b + 16)) with 0 by lia.
    rewrite Z.pow_0_r, Z.div_1_r. destruct (Hprev eq_refl) as [Hv _].
    intros E. assert (v mod 8 = 239 mod 8); [|rewrite Hv in *; discriminate].
    rewrite <- E. symmetry. apply Z.mod_mod_divide. now exists 32.
  - assert (j = 1) by lia. subst j. left.
    replace (b + 8 * 1) with (b + 8) by lia.
    destruct (Hprev eq_refl) as [_ [E | E]]; rewrite E; discriminate.
Qed.


Lemma not_live_set_plain (f : field) (m : memory) (b v x : Z) :
  f = f_size \/ f = f_next \/ f = f_checksum ->
  b mod 8 = 0 -> x mod 8 = 0 -> x <> b ->
  not_a_live_header m x -> not_a_live_header (set ILP32 f m b v) x.
Proof.
  intros Hf Hb Hx Hne. apply not_live_set; try assumption;
    intros ->; destruct Hf as [E|[E|E]]; discriminate E.
Qed.

Lemma not_live_set_magic (m : memory) (b x : Z) :
  b mod 8 = 0 -> x mod 8 = 0 -> x <> b ->
  not_a_live_header m x ->
  not_a_live_header (set ILP32 f_magic m b MAGIC_COOKIE) x.
Proof.
  intros Hb Hx Hne. apply not_live_set; try assumption;
    (reflexivity || discriminate).
Qed.

Lemma not_live_set_free (m : memory) (b v x : Z) :
  v = 0 \/ v = 1 ->
  b mod 8 = 0 -> x mod 8 = 0 -> x <> b ->
  not_a_live_header m x -> not_a_live_header (set ILP32 f_free m b v) x.
Proof.
  intros Hv Hb Hx Hne. apply not_live_set; try assumption;
    try discriminate. intros _. exact Hv.
Qed.

Lemma not_live_set_prev (m : memory) (b v x : Z) :
  v mod 8 = 0 ->
  get ILP32 f_free m b = 0 \/ get ILP32 f_free m b = 1 ->
  b mod 8 = 0 -> x mod 8 = 0 -> x <> b ->
  not_a_live_header m x -> not_a_live_header (set ILP32 f_prev m b v) x.
Proof.
  intros Hv Hf Hb Hx Hne. apply not_live_set; try assumption;
    try discriminate. intros _. split; assumption.
Qed.

(** * Reading back what was written (ILP32) *)

Lemma to_size32 (x : Z) : 0 <= x < 4294967296 -> to_size ILP32 x = x.
Proof. intros H. apply Z.mod_small. exact H. Qed.

Lemma get_set_word (f : field) (m : memory) (b v : Z) :
  f <> f_free -> 0 <= v < 4294967296 ->
  get ILP32 f (set ILP32 f m b v) b = v.
Proof.
  intros Hf Hv. rewrite get_set_same.
  replace (256 ^ Z.of_nat (width ILP32 f)) with 4294967296
    by (destruct f; try reflexivity; congruence).
  apply Z.mod_small. exact Hv.
Qed.

Lemma get_set_flag (m : memory) (b v : Z) :
  0 <= v < 256 -> get ILP32 f_free (set ILP32 f_free m b v) b = v.
Proof. intros Hv. rewrite get_set_same. apply Z.mod_small. exact Hv. Qed.

Lemma get_word_range (f : field) (m : memory) (b : Z) :
  0 <= get ILP32 f m b < 4294967296.
Proof.
  pose proof (get_range ILP32 f m b) as H.
  assert (256 ^ Z.of_nat (width ILP32 f) <= 4294967296)
    by (destruct f; vm_compute; discriminate).
  lia.
Qed.

Ltac gs :=
  repeat first
         [ rewrite get_set_flag by lia
         | rewrite get_set_word by (discriminate || lia)
         | rewrite get_set_field by discriminate
         | rewrite get_set_apart by lia ].

(** * Marking a block free (lines 211-212) *)

Section Windows.
Variable m : memory.

Lemma mark_free_window (b c lo pv p e last : Z) (l2 : list Z) :
  seg m lo pv p (b :: l2) e last NULL ->
  get ILP32 f_free m b = 0 ->
  let m' := set ILP32 f_checksum (set ILP32 f_free m b 1) b c in
  seg m' lo pv p (b :: l2) e last NULL
  /\ get ILP32 f_free m' b = 1
  /\ get ILP32 f_size m' b = get ILP32 f_size m b
  /\ allocated_bytes ILP32 m' (b :: l2)
     = allocated_bytes ILP32 m (b :: l2) - get ILP32 f_size m b
  /\ (forall x f, x + 24 <= b -> get ILP32 f m' x = get ILP32 f m x)
  /\ (forall x, x mod 8 = 0 -> x <> b ->
                not_a_live_header m x -> not_a_live_header m' x).
Proof.
  intros Hseg Hfree m'. cbn [seg] in Hseg.
  destruct Hseg as (Hp & Hlo & (Hb8 & Hmag & Hprev & _ & Hsz) & Hl2).
  pose proof (seg_range _ _ _ _ _ _ _ _ Hl2) as [_ Hr].
  pose proof (get_word_range f_size m b) as Hsr.
  assert (Fr : forall x f, x + 24 <= b \/ b + 24 <= x ->
                           get ILP32 f m' x = get ILP32 f m x).
  { intros x f Hx. unfold m'. gs. reflexivity. }
  assert (Fb : forall f, f <> f_free -> f <> f_checksum ->
                         get ILP32 f m' b = get ILP32 f m b).
  { intros f H1 H2. unfold m'. rewrite get_set_field by congruence.
    rewrite get_set_field by congruence. reflexivity. }
  assert (Ff : get ILP32 f_free m' b = 1) by (unfold m'; gs; reflexivity).
  split; [|split; [exact Ff|split; [apply Fb; discriminate|split; [|split]]]].
  - cbn [seg]. split; [assumption|]. split; [assumption|]. split.
    + unfold good_header. rewrite Ff. rewrite !Fb by discriminate.
      repeat split; auto.
    + rewrite !Fb by discriminate. apply (seg_frame m); [|exact Hl2].
      intros x f Hx _. apply Fr. apply Hr in Hx. lia.
  - rewrite !allocated_bytes_cons, Ff, Hfree. cbn [Z.eqb].
    rewrite (allocated_bytes_frame ILP32 m m' l2); [lia|].
    intros x Hx. apply Hr in Hx. split; apply Fr; lia.
  - intros x f Hx. apply Fr. now left.
  - intros x Hx Hne Hs. unfold m'.
    apply not_live_set_plain; auto. apply not_live_set_free; auto.
Qed.

(** * Splitting (lines 155-171) *)

Lemma write_header_fields (N size next prev c : Z) :
  0 <= size < 4294967296 -> 0 <= next < 4294967296 ->
  0 <= prev < 4294967296 ->
  let m' := write_header m N size next prev c in
  get ILP32 f_magic m' N = MAGIC_COOKIE
  /\ get ILP32 f_size m' N = size
  /\ get ILP32 f_free m' N = 1
  /\ get ILP32 f_next m' N = next
  /\ get ILP32 f_prev m' N = prev.
Proof.
  intros Hs Hn Hp m'. unfold m', write_header, MAGIC_COOKIE.
  repeat split; gs; reflexivity.
Qed.

Lemma write_header_apart (N size next prev c x : Z) (f : field) :
  x + 24 <= N \/ N + 24 <= x ->
  get ILP32 f (write_header m N size next prev c) x = get ILP32 f m x.
Proof. intros Hx. unfold write_header. gs. reflexivity. Qed.

Lemma write_header_not_live (N size next prev c x : Z) :
  N mod 8 = 0 -> prev mod 8 = 0 -> x mod 8 = 0 -> x <> N ->
  not_a_live_header m x ->
  not_a_live_header (write_header m N size next prev c) x.
Proof.
  intros HN Hp Hx Hne Hs. unfold write_header.
  apply not_live_set_plain; auto.
  apply not_live_set_prev; auto.
  { right. gs. reflexivity. }
  apply not_live_set_plain; auto.
  apply not_live_set_free; auto.
  apply not_live_set_plain; auto.
  apply not_live_set_magic; auto.
Qed.

Lemma split_block_eq (b n rem : Z) :
  0 <= b -> 0 <= n -> b + 24 + n + 24 <= 4294967296 ->
  24 <= rem < 4294967296 ->
  let N := b + 24 + n in
  let nb := get ILP32 f_next m b in
  exists c,
    split_block ILP32 m b n rem
    = set ILP32 f_next
          (if negb (nb =? NULL)
           then set ILP32 f_prev (write_header m N (rem - 24) nb b c) nb N
           else write_header m N (rem - 24) nb b c)
          b N.
Proof.
  intros Hb Hn HN Hrem N nb. unfold split_block. cbv zeta.
  change (HEADER_SIZE ILP32) with 24.
  rewrite (to_size32 (b + 24 + n)) by lia.
  rewrite (to_size32 (rem - 24)) by lia. fold N.
  assert (HNb : N = b + 24 + n) by reflexivity. clearbody N.
  assert (E1 : get ILP32 f_next
                   (set ILP32 f_free
                      (set ILP32 f_size
                         (set ILP32 f_magic m N MAGIC_COOKIE) N (rem - 24))
                      N 1) b = nb) by (gs; reflexivity).
  rewrite E1.
  set (c := calculate_checksum ILP32 _ N). exists c.
  assert (E2 : get ILP32 f_next
                   (set ILP32 f_checksum
                      (set ILP32 f_prev
                         (set ILP32 f_next
                            (set ILP32 f_free
                               (set ILP32 f_size
                                  (set ILP32 f_magic m N MAGIC_COOKIE) N
                                  (rem - 24)) N 1) N nb) N b) N c) b = nb)
    by (gs; reflexivity).
  rewrite E2. unfold write_header. reflexivity.
Qed.

Lemma split_window (b n lo pv p e last : Z) (l2 : list Z) :
  seg m lo pv p (b :: l2) e last NULL ->
  0 < lo -> e <= 4294967296 -> 0 <= n -> n mod 8 = 0 ->
  32 <= get ILP32 f_size m b - n ->
  let N := b + 24 + n in
  let m' := split_block ILP32 m b n (get ILP32 f_size m b - n) in
  get ILP32 f_next m' b = N
  /\ (forall f, f <> f_next -> get ILP32 f m' b = get ILP32 f m b)
  /\ (exists last', seg m' N b N (N :: l2) e last' NULL)
  /\ allocated_bytes ILP32 m' (N :: l2) = allocated_bytes ILP32 m l2
  /\ (forall x f, x + 24 <= b -> get ILP32 f m' x = get ILP32 f m x)
  /\ (forall x, x mod 8 = 0 -> x <> b -> x <> N -> ~ In x l2 ->
                not_a_live_header m x -> not_a_live_header m' x).
Proof.
  intros Hseg H0 He Hn Hn8 Hrem N m'. cbn [seg] in Hseg.
  destruct Hseg as (Hp & Hlo & (Hb8 & Hmag & Hprev & Hfr & Hsz) & Hl2).
  pose proof (seg_range _ _ _ _ _ _ _ _ Hl2) as [Hle Hr].
  pose proof (get_word_range f_size m b) as Hsr.
  pose proof (get_word_range f_next m b) as Hnr.
  destruct (split_block_eq b n (get ILP32 f_size m b - n)) as [c Em];
    try lia.
  cbv zeta in Em. fold N in Em. fold m' in Em. clearbody m'.
  assert (HN : N = b + 24 + n) by reflexivity. clearbody N.
  assert (HN8 : N mod 8 = 0).
  { subst N. rewrite <- Z.add_assoc, Zplus_mod, Hb8, (Zplus_mod 24), Hn8.
    reflexivity. }
  set (nb := get ILP32 f_next m b) in *.
  set (sz := get ILP32 f_size m b - n - 24) in *.
  destruct (write_header_fields N sz nb b c) as (W1 & W2 & W3 & W4 & W5);
    try (unfold sz; lia).
  pose proof (write_header_apart N sz nb b c) as Wa.
  pose proof (write_header_not_live N sz nb b c) as Wn.
  set (mh := write_header m N sz nb b c) in *. clearbody mh.
  assert (Hsz8 : sz mod 8 = 0).
  { unfold sz. rewrite Zminus_mod, (Zminus_mod (get ILP32 f_size m b)), Hsz, Hn8.
    reflexivity. }
  destruct l2 as [|x r2]; cbn [seg] in Hl2.
  - (* the block was the last one *)
    destruct Hl2 as (_ & Hlast & Hnb). fold nb in Hnb.
    rewrite Hnb in Em. cbn [Z.eqb negb NULL] in Em. subst m'.
    split; [gs; reflexivity|].
    split; [intros f Hf; rewrite get_set_field by congruence; apply Wa; lia|].
    split.
    { exists N. cbn [seg]. split; [reflexivity|]. split; [lia|]. split.
      - unfold good_header. gs. rewrite W1, W2, W3, W5. auto 10.
      - gs. rewrite W2, W4. unfold sz. repeat split; (lia || assumption). }
    split.
    { rewrite allocated_bytes_cons. gs. rewrite W3. reflexivity. }
    split; [intros y f Hy; gs; apply Wa; lia|].
    intros y Hy Hyb HyN _ Hs. apply not_live_set_plain; auto.
  - (* a block follows *)
    destruct Hl2 as (Hnb & Hlx & (Hx8 & Hxm & Hxp & Hxf & Hxs) & Hr2).
    fold nb in Hnb. rewrite <- Hnb in *. clear x Hnb.
    pose proof (seg_range _ _ _ _ _ _ _ _ Hr2) as [Hle2 Hr2r].
    pose proof (get_word_range f_size m nb) as Hsnb.
    assert (Hnb0 : nb <> NULL) by (unfold NULL; lia).
    destruct (Z.eqb_spec nb NULL) as [E|_]; [contradiction|].
    cbn [negb] in Em. subst m'.
    split; [gs; reflexivity|].
    split; [intros f Hf; rewrite get_set_field by congruence; gs; apply Wa; lia|].
    assert (Fnb : forall f, f <> f_prev ->
                    get ILP32 f
                      (set ILP32 f_next (set ILP32 f_prev mh nb N) b N) nb
                    = get ILP32 f m nb).
    { intros f Hf. gs. rewrite get_set_field by congruence. apply Wa. lia. }
    assert (Fr2 : forall y f, nb + 24 <= y ->
                    get ILP32 f
                      (set ILP32 f_next (set ILP32 f_prev mh nb N) b N) y
                    = get ILP32 f m y).
    { intros y f Hy. gs. apply Wa. lia. }
    split.
    { exists last. cbn [seg]. split; [reflexivity|]. split; [lia|]. split.
      - unfold good_header. gs. rewrite W1, W2, W3, W5. auto 10.
      - gs. rewrite W2, W4. split; [reflexivity|]. split; [unfold sz; lia|].
        split.
        + unfold good_header. gs. rewrite !Wa by lia.
          repeat split; (assumption || reflexivity).
        + gs. rewrite !Wa by lia. apply (seg_frame m); [|exact Hr2].
          intros y f Hy _. apply Fr2. apply Hr2r in Hy. lia. }
    split.
    { rewrite allocated_bytes_cons. gs. rewrite W3. cbn [Z.eqb].
      rewrite Z.add_0_l. apply allocated_bytes_frame.
      intros y [<-|Hy]; [split; apply Fnb; discriminate|].
      apply Hr2r in Hy. split; apply Fr2; lia. }
    split; [intros y f Hy; gs; apply Wa; lia|].
    intros y Hy Hyb HyN Hin Hs. apply not_live_set_plain; auto.
    apply not_live_set_prev; auto.
    + rewrite !Wa by lia. exact Hxf.
    + intros ->. apply Hin. now left.
Qed.

(** * Taking a block (lines 153-175) *)

Lemma take_window (st : allocator) (b n lo pv p e last : Z) (l2 : list Z) :
  pool st = m ->
  seg m lo pv p (b :: l2) e last NULL ->
  0 < lo -> e < 4294967296 ->
  fits ILP32 m n b = true -> 0 <= n -> n mod 8 = 0 ->
  let m' := pool (snd (take_block ILP32 st b n)) in
  fst (take_block ILP32 st b n) = b + 24
  /\ exists tail last',
      seg m' lo pv p (b :: tail) e last' NULL
      /\ allocated_bytes ILP32 m' (b :: tail)
         = allocated_bytes ILP32 m (b :: l2) + n
      /\ (forall x f, x + 24 <= b -> get ILP32 f m' x = get ILP32 f m x)
      /\ (forall x, x mod 8 = 0 -> ~ In x (b :: tail) ->
                    (~ In x (b :: l2) -> not_a_live_header m x) ->
                    not_a_live_header m' x).
Proof.
  intros Hm Hseg H0 He Hfit Hn Hn8 m'.
  pose proof Hseg as Hseg'. cbn [seg] in Hseg'.
  destruct Hseg' as (Hp & Hlo & (Hb8 & Hmag & Hprev & Hfr & Hsz) & Hl2).
  pose proof (seg_range _ _ _ _ _ _ _ _ Hl2) as [Hle Hr].
  pose proof (get_word_range f_size m b) as Hsr.
  unfold fits in Hfit. apply andb_true_iff in Hfit. destruct Hfit as [Hf1 Hf2].
  apply Z.leb_le in Hf2. apply negb_true_iff, Z.eqb_neq in Hf1.
  assert (Hfree : get ILP32 f_free m b = 1) by (destruct Hfr; congruence).
  split.
  { unfold take_block. cbn [fst]. change (HEADER_SIZE ILP32) with 24.
    apply to_size32. lia. }
  unfold m', take_block. cbn [snd pool]. rewrite Hm.
  change (to_size ILP32 (HEADER_SIZE ILP32 + ALIGNMENT)) with 32.
  rewrite (to_size32 (get ILP32 f_size m b - n)) by lia.
  set (c := calculate_checksum ILP32 _ b). clearbody c.
  destruct (Z.leb_spec 32 (get ILP32 f_size m b - n)) as [Hsplit|Hsplit].
  - (* split *)
    destruct (split_window b n lo pv p e last l2 Hseg H0 ltac:(lia) Hn Hn8 Hsplit)
      as (Sn & Sb & (last' & Sseg) & Sal & Sfr & Sst).
    set (ma := split_block ILP32 m b n (get ILP32 f_size m b - n)) in *.
    clearbody ma.
    pose proof (seg_range _ _ _ _ _ _ _ _ Sseg) as [_ Sr].
    exists (b + 24 + n :: l2), last'. split; [|split; [|split]].
    + apply seg_cons_intro; try assumption.
      * unfold good_header. gs. rewrite !Sb by discriminate. auto 10.
      * gs. rewrite Sn. apply (seg_frame ma); [|exact Sseg].
        intros x f Hx _. apply Sr in Hx. gs. reflexivity.
    + rewrite (allocated_bytes_cons ILP32 _ b). gs. cbn [Z.eqb].
      rewrite (allocated_bytes_cons ILP32 m b), Hfree. cbn [Z.eqb].
      rewrite <- Sal. rewrite Z.add_0_l, Z.add_comm. f_equal.
      apply allocated_bytes_frame. intros x Hx. apply Sr in Hx.
      split; gs; reflexivity.
    + intros x f Hx. gs. apply Sfr. exact Hx.
    + intros x Hx Hin Hs. cbn [In] in Hin.
      apply not_live_set_plain; auto. apply not_live_set_plain; auto.
      apply not_live_set_free; auto. apply Sst; auto.
      apply Hs. cbn [In]. tauto.
  - (* no split *)
    exists l2, last. split; [|split; [|split]].
    + apply seg_cons_intro; try assumption.
      * unfold good_header. gs. auto 10.
      * gs. apply (seg_frame m).
        { intros x f Hx _. apply Hr in Hx. gs. reflexivity. }
        eapply seg_weaken; [|exact Hl2]. lia.
    + rewrite (allocated_bytes_cons ILP32 _ b). gs. cbn [Z.eqb].
      rewrite (allocated_bytes_cons ILP32 m b), Hfree. cbn [Z.eqb].
      rewrite Z.add_0_l, Z.add_comm. f_equal.
      apply allocated_bytes_frame. intros x Hx. apply Hr in Hx.
      split; gs; reflexivity.
    + intros x f Hx. gs. reflexivity.
    + intros x Hx Hin Hs. cbn [In] in Hin.
      apply not_live_set_plain; auto. apply not_live_set_plain; auto.
      apply not_live_set_free; auto.
Qed.

(** * Coalescing with the next block (lines 221-236) *)

Lemma coalesce_next_window (b lo pv p e last : Z) (l2 : list Z) :
  seg m lo pv p (b :: l2) e last NULL ->
  0 < lo -> e < 4294967296 ->
  get ILP32 f_free m b = 1 ->
  let m' := coalesce_next ILP32 m b in
  exists l2' last',
    seg m' lo pv p (b :: l2') e last' NULL
    /\ get ILP32 f_free m' b = 1
    /\ allocated_bytes ILP32 m' (b :: l2') = allocated_bytes ILP32 m (b :: l2)
    /\ (forall x f, x + 24 <= b -> get ILP32 f m' x = get ILP32 f m x)
    /\ (forall x, x mod 8 = 0 -> ~ In x (b :: l2') ->
                  (~ In x (b :: l2) -> not_a_live_header m x) ->
                  not_a_live_header m' x).
Proof.
  intros Hseg H0 He Hfree m'.
  assert (Same : exists l2' last',
                   seg m lo pv p (b :: l2') e last' NULL
                   /\ get ILP32 f_free m b = 1
                   /\ allocated_bytes ILP32 m (b :: l2')
                      = allocated_bytes ILP32 m (b :: l2)
                   /\ (forall x f, x + 24 <= b ->
                                   get ILP32 f m x = get ILP32 f m x)
                   /\ (forall x, x mod 8 = 0 -> ~ In x (b :: l2') ->
                         (~ In x (b :: l2) -> not_a_live_header m x) ->
                         not_a_live_header m x)).
  { exists l2, last. split; [exact Hseg|]. split; [exact Hfree|].
    split; [reflexivity|]. split; [reflexivity|].
    intros x Hx Hin Hs. apply Hs. exact Hin. }
  subst m'. unfold coalesce_next.
  destruct (negb (get ILP32 f_next m b =? NULL)
            && negb (get ILP32 f_free m (get ILP32 f_next m b) =? 0)) eqn:Hc;
    [|exact Same].
  cbv zeta.
  destruct (verify_header ILP32 m (get ILP32 f_next m b)); [|exact Same].
  clear Same. apply andb_true_iff in Hc. destruct Hc as [Hc1 Hc2].
  apply negb_true_iff, Z.eqb_neq in Hc1. apply negb_true_iff, Z.eqb_neq in Hc2.
  cbn [seg] in Hseg.
  destruct Hseg as (Hp & Hlo & (Hb8 & Hmag & Hprev & Hfr & Hsz) & Hl2).
  set (nb := get ILP32 f_next m b) in *.
  destruct l2 as [|x r2]; cbn [seg] in Hl2; [tauto|].
  destruct Hl2 as (Hnb & Hlx & (Hx8 & Hxm & Hxp & Hxf & Hxs) & Hr2).
  rewrite <- Hnb in *. clear x Hnb.
  assert (Hnbf : get ILP32 f_free m nb = 1) by (destruct Hxf; congruence).
  pose proof (seg_range _ _ _ _ _ _ _ _ Hr2) as [Hle2 Hr2r].
  pose proof (get_word_range f_size m b) as Hsr.
  pose proof (get_word_range f_size m nb) as Hsnb.
  pose proof (get_word_range f_next m nb) as Hnnr.
  change (HEADER_SIZE ILP32) with 24.
  rewrite (to_size32 (24 + get ILP32 f_size m nb)) by lia.
  rewrite (to_size32 (get ILP32 f_size m b + (24 + get ILP32 f_size m nb)))
    by lia.
  set (sz := get ILP32 f_size m b + (24 + get ILP32 f_size m nb)) in *.
  assert (Hsz8 : sz mod 8 = 0).
  { unfold sz. rewrite Zplus_mod, Hsz, (Zplus_mod 24), Hxs. reflexivity. }
  assert (E1 : get ILP32 f_next (set ILP32 f_size m b sz) nb
               = get ILP32 f_next m nb) by (gs; reflexivity).
  rewrite E1. clear E1.
  set (nn := get ILP32 f_next m nb) in *.
  assert (E2 : get ILP32 f_next
                   (set ILP32 f_next (set ILP32 f_size m b sz) b nn) nb = nn)
    by (gs; reflexivity).
  rewrite E2. clear E2.
  set (c := calculate_checksum ILP32 _ b). clearbody c.
  exists r2.
  destruct r2 as [|y r3]; cbn [seg] in Hr2.
  - (* nothing follows the absorbed block *)
    destruct Hr2 as (_ & Hlast & Hnn). fold nn in Hnn.
    rewrite Hnn. cbn [Z.eqb negb NULL].
    exists b. split; [|split; [|split; [|split]]].
    + apply seg_cons_intro; try assumption.
      * unfold good_header. gs. rewrite Hfree. auto 10.
      * gs. cbn [seg]. unfold sz. repeat split; lia.
    + gs. exact Hfree.
    + rewrite !allocated_bytes_cons. gs. rewrite Hfree, Hnbf. reflexivity.
    + intros x f Hx. gs. reflexivity.
    + intros x Hx Hin Hs. cbn [In] in Hin.
      apply not_live_set_plain; auto. apply not_live_set_plain; auto.
      apply not_live_set_plain; auto.
      destruct (Z.eq_dec x nb) as [->|Hne].
      * right. rewrite <- get_free_byte, Hnbf. discriminate.
      * apply Hs. cbn [In]. intuition congruence.
  - (* a block follows the absorbed one *)
    destruct Hr2 as (Hnn & Hly & (Hy8 & Hym & Hyp & Hyf & Hys) & Hr3).
    fold nn in Hnn. rewrite <- Hnn in *. clear y Hnn.
    pose proof (seg_range _ _ _ _ _ _ _ _ Hr3) as [Hle3 Hr3r].
    pose proof (get_word_range f_size m nn) as Hsnn.
    destruct (Z.eqb_spec nn NULL) as [E|_]; [unfold NULL in E; lia|].
    cbn [negb].
    exists last. split; [|split; [|split; [|split]]].
    + apply seg_cons_intro; try assumption.
      * unfold good_header. gs. rewrite Hfree. auto 10.
      * gs. apply seg_cons_intro; [reflexivity|unfold sz; lia| |].
        { unfold good_header. gs. repeat split; (assumption || reflexivity). }
        gs. apply (seg_frame m); [|exact Hr3].
        intros x f Hx _. apply Hr3r in Hx. gs. reflexivity.
    + gs. exact Hfree.
    + rewrite !allocated_bytes_cons. gs. rewrite Hfree, Hnbf. cbn [Z.eqb].
      rewrite !Z.add_0_l. f_equal. apply allocated_bytes_frame.
      intros x Hx. apply Hr3r in Hx. split; gs; reflexivity.
    + intros x f Hx. gs. reflexivity.
    + intros x Hx Hin Hs. cbn [In] in Hin.
      apply not_live_set_plain; auto. apply not_live_set_prev; auto.
      { gs. exact Hyf. }
      apply not_live_set_plain; auto. apply not_live_set_plain; auto.
      destruct (Z.eq_dec x nb) as [->|Hne].
      * right. rewrite <- get_free_byte, Hnbf. discriminate.
      * apply Hs. cbn [In]. intuition congruence.
Qed.

(** * Coalescing with the previous block (lines 239-255) *)

Lemma coalesce_prev_none (b : Z) :
  get ILP32 f_prev m b = NULL -> coalesce_prev ILP32 m b = m.
Proof. intros E. unfold coalesce_prev. rewrite E. reflexivity. Qed.

Lemma coalesce_prev_window (pb b lo pv p e last : Z) (l2 : list Z) :
  seg m lo pv p (pb :: b :: l2) e last NULL ->
  0 < lo -> e < 4294967296 ->
  get ILP32 f_free m b = 1 ->
  let m' := coalesce_prev ILP32 m b in
  exists w' last',
    seg m' lo pv p (pb :: w') e last' NULL
    /\ allocated_bytes ILP32 m' (pb :: w')
       = allocated_bytes ILP32 m (pb :: b :: l2)
    /\ (forall x f, x + 24 <= pb -> get ILP32 f m' x = get ILP32 f m x)
    /\ (forall x, x mod 8 = 0 -> ~ In x (pb :: w') ->
                  (~ In x (pb :: b :: l2) -> not_a_live_header m x) ->
                  not_a_live_header m' x).
Proof.
  intros Hseg H0 He Hfree m'.
  assert (Same : exists w' last',
                   seg m lo pv p (pb :: w') e last' NULL
                   /\ allocated_bytes ILP32 m (pb :: w')
                      = allocated_bytes ILP32 m (pb :: b :: l2)
                   /\ (forall x f, x + 24 <= pb ->
                                   get ILP32 f m x = get ILP32 f m x)
                   /\ (forall x, x mod 8 = 0 -> ~ In x (pb :: w') ->
                         (~ In x (pb :: b :: l2) -> not_a_live_header m x) ->
                         not_a_live_header m x)).
  { exists (b :: l2), last. split; [exact Hseg|].
    split; [reflexivity|]. split; [reflexivity|].
    intros x Hx Hin Hs. apply Hs. exact Hin. }
  cbn [seg] in Hseg.
  destruct Hseg as (Hp & Hlo & (Hp8 & Hpm & Hpp & Hpf & Hps) & Hnx & Hlb
                    & (Hb8 & Hbm & Hbp & Hbf & Hbs) & Hl2).
  subst m'. unfold coalesce_prev. rewrite Hbp.
  destruct (negb (pb =? NULL) && negb (get ILP32 f_free m pb =? 0)) eqn:Hc;
    [|exact Same].
  cbv zeta.
  destruct (verify_header ILP32 m pb); [|exact Same].
  clear Same. apply andb_true_iff in Hc. destruct Hc as [_ Hc2].
  apply negb_true_iff, Z.eqb_neq in Hc2.
  assert (Hpbf : get ILP32 f_free m pb = 1) by (destruct Hpf; congruence).
  pose proof (seg_range _ _ _ _ _ _ _ _ Hl2) as [Hle2 Hr2].
  pose proof (get_word_range f_size m b) as Hsr.
  pose proof (get_word_range f_size m pb) as Hspb.
  pose proof (get_word_range f_next m b) as Hnnr.
  change (HEADER_SIZE ILP32) with 24.
  rewrite (to_size32 (24 + get ILP32 f_size m b)) by lia.
  rewrite (to_size32 (get ILP32 f_size m pb + (24 + get ILP32 f_size m b)))
    by lia.
  set (sz := get ILP32 f_size m pb + (24 + get ILP32 f_size m b)) in *.
  assert (Hsz8 : sz mod 8 = 0).
  { unfold sz. rewrite Zplus_mod, Hps, (Zplus_mod 24), Hbs. reflexivity. }
  assert (E1 : get ILP32 f_next (set ILP32 f_size m pb sz) b
               = get ILP32 f_next m b) by (gs; reflexivity).
  rewrite E1. clear E1.
  set (nn := get ILP32 f_next m b) in *.
  assert (E2 : get ILP32 f_next
                   (set ILP32 f_next (set ILP32 f_size m pb sz) pb nn) b = nn)
    by (gs; reflexivity).
  rewrite E2. clear E2.
  set (c := calculate_checksum ILP32 _ pb). clearbody c.
  exists l2.
  destruct l2 as [|y r3]; cbn [seg] in Hl2.
  - (* the absorbed block was the last one *)
    destruct Hl2 as (_ & Hlast & Hnn). fold nn in Hnn.
    rewrite Hnn. cbn [Z.eqb negb NULL].
    exists pb. split; [|split; [|split]].
    + apply seg_cons_intro; try assumption.
      * unfold good_header. gs. rewrite Hpbf. auto 10.
      * gs. cbn [seg]. unfold sz. repeat split; lia.
    + rewrite !allocated_bytes_cons. gs. rewrite Hfree, Hpbf. reflexivity.
    + intros x f Hx. gs. reflexivity.
    + intros x Hx Hin Hs. cbn [In] in Hin.
      apply not_live_set_plain; auto. apply not_live_set_plain; auto.
      apply not_live_set_plain; auto.
      destruct (Z.eq_dec x b) as [->|Hne].
      * right. rewrite <- get_free_byte, Hfree. discriminate.
      * apply Hs. cbn [In]. intuition congruence.
  - (* a block follows the absorbed one *)
    destruct Hl2 as (Hnn & Hly & (Hy8 & Hym & Hyp & Hyf & Hys) & Hr3).
    fold nn in Hnn. rewrite <- Hnn in *. clear y Hnn.
    pose proof (seg_range _ _ _ _ _ _ _ _ Hr3) as [Hle3 Hr3r].
    pose proof (get_word_range f_size m nn) as Hsnn.
    destruct (Z.eqb_spec nn NULL) as [E|_]; [unfold NULL in E; lia|].
    cbn [negb].
    exists last. split; [|split; [|split]].
    + apply seg_cons_intro; try assumption.
      * unfold good_header. gs. rewrite Hpbf. auto 10.
      * gs. apply seg_cons_intro; [reflexivity|unfold sz; lia| |].
        { unfold good_header. gs. repeat split; (assumption || reflexivity). }
        gs. apply (seg_frame m); [|exact Hr3].
        intros x f Hx _. apply Hr3r in Hx. gs. reflexivity.
    + rewrite !allocated_bytes_cons. gs. rewrite Hfree, Hpbf. cbn [Z.eqb].
      rewrite !Z.add_0_l. f_equal. apply allocated_bytes_frame.
      intros x Hx. apply Hr3r in Hx. split; gs; reflexivity.
    + intros x f Hx. gs. reflexivity.
    + intros x Hx Hin Hs. cbn [In] in Hin.
      apply not_live_set_plain; auto. apply not_live_set_prev; auto.
      { gs. exact Hyf. }
      apply not_live_set_plain; auto. apply not_live_set_plain; auto.
      destruct (Z.eq_dec x b) as [->|Hne].
      * right. rewrite <- get_free_byte, Hfree. discriminate.
      * apply Hs. cbn [In]. intuition congruence.
Qed.

End Windows.

(** * The invariant of the block list (ILP32) *)

Lemma first_fit_outcome (a : abi) (m : memory) (n : Z) (l : list Z) :
  forall (fuel : nat) (head : Z),
  block_list a fuel m head = Some l ->
  match first_fit a fuel m head n with
  | Found b => In b l /\ fits a m n b = true
  | Timeout => False
  | _ => True
  end.
Proof.
  induction l as [|x l IH]; intros fuel head Hl.
  - apply block_list_nil in Hl. subst head. destruct fuel; exact I.
  - apply block_list_cons in Hl. destruct Hl as (Hn & -> & f & -> & Hl).
    cbn [first_fit]. destruct (Z.eqb_spec head NULL); [contradiction|].
    destruct (verify_header a m head); cbn [negb]; [|exact I].
    fold (fits a m n head). destruct (fits a m n head) eqn:Hf.
    + split; [now left | exact Hf].
    + specialize (IH f _ Hl).
      destruct (first_fit a f m (get a f_next m head) n); try exact IH.
      destruct IH as [Hin Hfit]. split; [now right | exact Hfit].
Qed.

Lemma payload_pointer_nth (l : list Z) (k : nat) :
  Forall payload_pointer l -> payload_pointer (nth k l NULL).
Proof.
  intros Hl. destruct (nth_in_or_default k l NULL) as [Hin| ->].
  - rewrite Forall_forall in Hl. now apply Hl.
  - now left.
Qed.

Lemma verify_magic (a : abi) (m : memory) (b : Z) :
  verify_header a m b = true -> get a f_magic m b = MAGIC_COOKIE.
Proof.
  unfold verify_header.
  destruct (Z.eqb_spec (get a f_magic m b) MAGIC_COOKIE); [auto|discriminate].
Qed.

Lemma zero_memory_not_live (x : Z) : not_a_live_header zero_memory x.
Proof. left. vm_compute. discriminate. Qed.

Lemma init_invariant (base : Z) :
  pool_address ILP32 base -> invariant base (fresh ILP32 base) [base].
Proof.
  intros (H0 & H8 & Hend). change (size_modulus ILP32) with 4294967296 in Hend.
  unfold POOL_SIZE in *.
  unfold fresh, init_allocator, boot. cbn [heap pool memory_pool].
  change (to_size ILP32 (1024 * 64 - HEADER_SIZE ILP32)) with 65512.
  set (c := calculate_checksum ILP32 _ base). clearbody c.
  change (set ILP32 f_checksum _ base c)
    with (write_header zero_memory base 65512 NULL NULL c).
  destruct (write_header_fields zero_memory base 65512 NULL NULL c)
    as (W1 & W2 & W3 & W4 & W5); try (unfold NULL; lia).
  pose proof (write_header_not_live zero_memory base 65512 NULL NULL c) as Wn.
  set (m := write_header zero_memory base 65512 NULL NULL c) in *.
  constructor; cbn [heap pool memory_pool free_list_head total_allocated
                         total_free returned]; unfold POOL_SIZE.
  - reflexivity.
  - reflexivity.
  - exists (base + 24 + 65512), base. split; [|lia].
    apply seg_cons_intro; [reflexivity|lia| |].
    + unfold good_header. rewrite W1, W2, W3, W5. auto 10.
    + rewrite W2, W4. cbn [seg]. repeat split; lia.
  - rewrite allocated_bytes_cons, W3. reflexivity.
  - rewrite W2. reflexivity.
  - intros x Hx Hin. apply Wn; auto.
    + intros ->. apply Hin. now left.
    + apply zero_memory_not_live.
  - constructor.
Qed.

Lemma invariant_returns (base : Z) (c : client) (bs : list Z) (p : Z) :
  invariant base c bs -> payload_pointer p ->
  invariant base {| heap := heap c; returned := returned c ++ [p] |} bs.
Proof.
  intros [I1 I2 I3 I4 I5 I6 I7] Hp. constructor; cbn [heap returned]; auto.
  apply Forall_app. split; [assumption|]. constructor; [assumption|constructor].
Qed.

Lemma invariant_block_list (base : Z) (c : client) (bs : list Z) (fuel : nat) :
  pool_address ILP32 base -> invariant base c bs -> (length bs <= fuel)%nat ->
  blocks_of ILP32 fuel (heap c) = Some bs.
Proof.
  intros (H0 & _) [I1 I2 (e & last & Hseg & He) _ _ _ _] Hf.
  unfold blocks_of. rewrite I2.
  eapply seg_block_list; eassumption.
Qed.

Lemma invariant_length (base : Z) (c : client) (bs : list Z) :
  invariant base c bs -> (length bs <= Z.to_nat POOL_SIZE)%nat.
Proof.
  intros [_ _ (e & last & Hseg & He) _ _ _ _].
  apply seg_length in Hseg. unfold POOL_SIZE in *. lia.
Qed.

Lemma malloc_invariant (base : Z) (c : client) (bs : list Z) (fuel : nat)
      (size : Z) :
  pool_address ILP32 base -> invariant base c bs -> (length bs <= fuel)%nat ->
  exists c' bs',
    step ILP32 fuel c (Malloc size) = Some c' /\ invariant base c' bs'.
Proof.
  intros Hbase Hinv Hfuel.
  pose proof (invariant_block_list _ _ _ _ Hbase Hinv Hfuel) as Hbl.
  assert (Hnull : exists c' bs',
             Some {| heap := heap c; returned := returned c ++ [NULL] |}
             = Some c' /\ invariant base c' bs').
  { eexists. exists bs. split; [reflexivity|].
    apply invariant_returns; [assumption | now left]. }
  unfold step, my_malloc. destruct (size =? 0); [exact Hnull|]. cbv zeta.
  unfold blocks_of in Hbl.
  pose proof (first_fit_outcome ILP32 (pool (heap c)) (align_size ILP32 size)
                bs fuel _ Hbl) as Hout.
  destruct (first_fit ILP32 fuel (pool (heap c)) (free_list_head (heap c))
                      (align_size ILP32 size)) as [b| | |];
    [|exact Hnull|exact Hnull|contradiction].
  clear Hnull. destruct Hout as [Hin Hfit].
  destruct (align_size_range ILP32 size) as [Hn Hn8].
  set (n := align_size ILP32 size) in *. clearbody n.
  change (size_modulus ILP32) with 4294967296 in Hn.
  destruct Hbase as (H0 & H8 & Hend).
  change (size_modulus ILP32) with 4294967296 in Hend.
  destruct Hinv as [I1 I2 (e & last & Hseg & He) I4 I5 I6 I7].
  apply in_split in Hin. destruct Hin as (l1 & l2 & ->).
  apply seg_app in Hseg. destruct Hseg as (lo1 & pv1 & p1 & Hs1 & Hs2).
  pose proof (seg_range _ _ _ _ _ _ _ _ Hs1) as [Hlo1 Hr1].
  pose proof (seg_cover _ _ _ _ _ _ _ _ Hs1) as Hc1.
  pose proof (seg_cover _ _ _ _ _ _ _ _ Hs2) as Hc2.
  pose proof (allocated_le_coverage ILP32 (pool (heap c)) l1) as Ha1.
  pose proof (allocated_le_coverage ILP32 (pool (heap c)) l2) as Ha2.
  destruct (take_window (pool (heap c)) (heap c) b n lo1 pv1 p1 e last l2
              eq_refl Hs2 ltac:(lia) ltac:(unfold POOL_SIZE in *; lia) Hfit
              ltac:(lia) Hn8)
    as (Hp & tail & last' & Tseg & Tal & Tfr & Tst).
  pose proof Hs2 as Hs2'. cbn [seg] in Hs2'.
  destruct Hs2' as (_ & Hlob & (Hb8 & _ & _ & Hbf & _) & Hl2).
  pose proof (seg_range _ _ _ _ _ _ _ _ Hl2) as [Hle2 _].
  pose proof (get_word_range f_size (pool (heap c)) b) as Hsr.
  unfold fits in Hfit. apply andb_true_iff in Hfit. destruct Hfit as [Hf1 Hf2].
  apply Z.leb_le in Hf2. apply negb_true_iff, Z.eqb_neq in Hf1.
  assert (Hfree : get ILP32 f_free (pool (heap c)) b = 1)
    by (destruct Hbf; congruence).
  rewrite allocated_bytes_app, allocated_bytes_cons, Hfree in I4.
  cbn [Z.eqb] in I4.
  rewrite coverage_cons in Hc2. change (HEADER_SIZE ILP32) with 24 in Hc2.
  destruct (take_block ILP32 (heap c) b n) as [ptr st'] eqn:Etake.
  cbn [fst snd] in *.
  assert (Est : total_allocated st' = to_size ILP32 (total_allocated (heap c) + n)
                /\ total_free st' = to_size ILP32 (total_free (heap c) - n)
                /\ memory_pool st' = memory_pool (heap c)
                /\ free_list_head st' = free_list_head (heap c)).
  { unfold take_block in Etake. injection Etake as _ <-. cbn. auto. }
  destruct Est as (Et1 & Et2 & Et3 & Et4).
  eexists. exists (l1 ++ b :: tail). split; [reflexivity|].
  unfold POOL_SIZE in *.
  constructor; cbn [heap returned].
  - congruence.
  - congruence.
  - exists e, last'. split; [|assumption]. apply seg_app.
    exists lo1, pv1, p1. split; [|exact Tseg].
    apply (seg_frame (pool (heap c))); [|exact Hs1].
    intros x f Hx _. apply Tfr. apply Hr1 in Hx. lia.
  - rewrite Et1, I4, to_size32 by lia.
    rewrite allocated_bytes_app, Tal, allocated_bytes_cons, Hfree. cbn [Z.eqb].
    rewrite (allocated_bytes_frame ILP32 (pool (heap c)) (pool st') l1); [lia|].
    intros x Hx. apply Hr1 in Hx. split; apply Tfr; lia.
  - rewrite Et2, Et1, I5, I4, !to_size32 by lia. unfold POOL_SIZE. lia.
  - intros x Hx Hin. apply Tst; auto.
    + intros Hc. apply Hin. apply in_or_app. now right.
    + intros Hc. apply I6; auto. intros Hc'. apply in_app_or in Hc'.
      destruct Hc' as [Hc'|Hc']; [|contradiction].
      apply Hin. apply in_or_app. now left.
  - apply Forall_app. split; [assumption|]. constructor; [|constructor].
    right. rewrite Hp. split; [|lia].
    rewrite Zplus_mod, Hb8. reflexivity.
Qed.

Lemma free_invariant (base : Z) (c : client) (bs : list Z) (k : nat) :
  pool_address ILP32 base -> invariant base c bs ->
  exists bs',
    invariant base
              {| heap := my_free ILP32 (heap c) (nth k (returned c) NULL);
                 returned := returned c |} bs'.
Proof.
  intros Hbase Hinv.
  assert (Hsame : exists bs',
             invariant base {| heap := heap c; returned := returned c |} bs').
  { exists bs. destruct Hinv. constructor; auto. }
  pose proof (payload_pointer_nth (returned c) k (inv_returned _ _ _ Hinv))
    as Hptr.
  set (ptr := nth k (returned c) NULL) in *. clearbody ptr.
  unfold my_free. destruct (Z.eqb_spec ptr NULL) as [E|Hnn]; [exact Hsame|].
  destruct Hptr as [E|(Hp8 & Hpr)]; [contradiction|].
  cbv zeta. change (HEADER_SIZE ILP32) with 24.
  rewrite (to_size32 (ptr - 24)) by lia.
  assert (Hb8 : (ptr - 24) mod 8 = 0)
    by (rewrite Zminus_mod, Hp8; reflexivity).
  set (b := ptr - 24) in *. assert (Hb0 : 0 <= b) by (unfold b; lia).
  clearbody b. clear ptr Hnn Hp8 Hpr.
  destruct (verify_header ILP32 (pool (heap c)) b) eqn:Hv; cbn [negb];
    [|exact Hsame].
  destruct (Z.eqb_spec (get ILP32 f_free (pool (heap c)) b) 0) as [Hfree|_];
    cbn [negb]; [|exact Hsame].
  clear Hsame. apply verify_magic in Hv.
  destruct Hbase as (H0 & H8 & Hend).
  change (size_modulus ILP32) with 4294967296 in Hend.
  destruct Hinv as [I1 I2 (e & last & Hseg & He) I4 I5 I6 I7].
  set (m := pool (heap c)) in *.
  (* the header is a block of the list *)
  assert (Hin : In b bs).
  { destruct (in_dec Z.eq_dec b bs) as [Hin|Hout]; [assumption|exfalso].
    destruct (I6 b Hb8 Hout) as [Hc|Hc]; apply Hc.
    - now apply magic_first_byte.
    - rewrite <- get_free_byte. exact Hfree. }
  apply in_split in Hin. destruct Hin as (l1 & l2 & ->).
  apply seg_app in Hseg. destruct Hseg as (lo1 & pv1 & p1 & Hs1 & Hs2).
  pose proof (seg_range _ _ _ _ _ _ _ _ Hs1) as [Hlo1 Hr1].
  unfold POOL_SIZE in *.
  (* lines 211-212 *)
  set (c1 := calculate_checksum ILP32 _ b). clearbody c1.
  destruct (mark_free_window m b c1 lo1 pv1 p1 e last l2 Hs2 Hfree)
    as (Mseg & Mfree & Msize & Mal & Mfr & Mst).
  rewrite Msize.
  set (m2 := set ILP32 f_checksum (set ILP32 f_free m b 1) b c1) in *.
  clearbody m2.
  (* lines 221-236 *)
  destruct (coalesce_next_window m2 b lo1 pv1 p1 e last l2 Mseg
              ltac:(lia) ltac:(lia) Mfree)
    as (l2' & last2 & Nseg & Nfree & Nal & Nfr & Nst).
  set (m3 := coalesce_next ILP32 m2 b) in *. clearbody m3.
  (* the counters *)
  pose proof (allocated_le_coverage ILP32 m l1) as Ha1.
  pose proof (allocated_le_coverage ILP32 m l2) as Ha2.
  pose proof (seg_cover _ _ _ _ _ _ _ _ Hs1) as Hc1.
  pose proof (seg_cover _ _ _ _ _ _ _ _ Hs2) as Hc2.
  rewrite coverage_cons in Hc2. change (HEADER_SIZE ILP32) with 24 in Hc2.
  pose proof (get_word_range f_size m b) as Hsr.
  rewrite allocated_bytes_app in I4.
  assert (Eb : allocated_bytes ILP32 m (b :: l2)
               = get ILP32 f_size m b + allocated_bytes ILP32 m l2)
    by (rewrite allocated_bytes_cons, Hfree; reflexivity).
  pose proof Nseg as Nseg'. cbn [seg] in Nseg'.
  destruct Nseg' as (Hp1 & Hlob & (_ & _ & Hbp & _) & _).
  (* lines 239-255 *)
  destruct (seg_last _ _ _ _ _ _ _ _ Hs1) as [[-> ->]|(l1' & pb & -> & ->)].
  - (* the freed block is the first one *)
    rewrite coalesce_prev_none by exact Hbp.
    exists (b :: l2').
    constructor; cbn [heap returned pool memory_pool free_list_head
                           total_allocated total_free]; unfold POOL_SIZE.
    + assumption.
    + assumption.
    + exists e, last2. split; [|assumption]. cbn [seg] in Hs1.
      destruct Hs1 as (Hl & _ & Hq).
      eapply seg_weaken; [|rewrite Hq; exact Nseg]. lia.
    + change (allocated_bytes ILP32 m []) with 0 in *. cbn [app].
      rewrite I4, to_size32; lia.
    + change (allocated_bytes ILP32 m []) with 0 in *.
      rewrite I5, I4. rewrite !to_size32; lia.
    + intros x Hx Hout. apply Nst; [exact Hx|exact Hout|]. intros Hc.
      apply Mst; [exact Hx| |].
      * intros ->. apply Hc. now left.
      * apply I6; [exact Hx|exact Hc].
    + assumption.
  - (* a block comes before *)
    apply seg_app in Hs1. destruct Hs1 as (lo0 & pv0 & p0 & Hs0 & Hspb).
    pose proof (seg_range _ _ _ _ _ _ _ _ Hs0) as [Hlo0 Hr0].
    pose proof (seg_cover _ _ _ _ _ _ _ _ Hs0) as Hc0.
    pose proof (seg_range _ _ _ _ _ _ _ _ Hspb) as [_ Hrpb].
    assert (Hpb : lo0 <= pb /\ pb + 24 <= lo1) by (apply Hrpb; now left).
    assert (W : seg m3 lo0 pv0 p0 (pb :: b :: l2') e last2 NULL).
    { change (pb :: b :: l2') with ([pb] ++ b :: l2'). apply seg_app.
      exists lo1, pb, p1. split; [|exact Nseg].
      apply (seg_frame m); [|exact Hspb].
      intros x f [<-|[]] _. rewrite Nfr, Mfr by lia. reflexivity. }
    destruct (coalesce_prev_window m3 pb b lo0 pv0 p0 e last2 l2' W
                ltac:(lia) ltac:(lia) Nfree)
      as (w' & last3 & Pseg & Pal & Pfr & Pst).
    set (m4 := coalesce_prev ILP32 m3 b) in *. clearbody m4.
    exists (l1' ++ pb :: w').
    rewrite allocated_bytes_app in I4, Ha1.
    pose proof (allocated_le_coverage ILP32 m l1') as Ha0.
    pose proof (allocated_le_coverage ILP32 m [pb]) as Hapb.
    assert (Epb : allocated_bytes ILP32 m3 [pb] = allocated_bytes ILP32 m [pb]).
    { apply allocated_bytes_frame. intros x [<-|[]].
      rewrite !Nfr, !Mfr by lia. split; reflexivity. }
    assert (E0 : allocated_bytes ILP32 m4 l1' = allocated_bytes ILP32 m l1').
    { apply allocated_bytes_frame. intros x Hx. apply Hr0 in Hx.
      rewrite !Pfr, !Nfr, !Mfr by lia. split; reflexivity. }
    change (pb :: b :: l2') with ([pb] ++ b :: l2') in Pal.
    rewrite allocated_bytes_app, Epb in Pal.
    constructor; cbn [heap returned pool memory_pool free_list_head
                           total_allocated total_free]; unfold POOL_SIZE.
    + assumption.
    + assumption.
    + exists e, last3. split; [|assumption]. apply seg_app.
      exists lo0, pv0, p0. split; [|exact Pseg].
      apply (seg_frame m); [|exact Hs0].
      intros x f Hx _. apply Hr0 in Hx. rewrite Pfr, Nfr, Mfr by lia.
      reflexivity.
    + rewrite allocated_bytes_app, Pal, E0, I4. rewrite to_size32; lia.
    + rewrite I5, I4. rewrite !to_size32; lia.
    + intros x Hx Hout.
      assert (Hx1 : ~ In x l1') by (intros Hc; apply Hout, in_or_app; now left).
      assert (Hx2 : ~ In x (pb :: w'))
        by (intros Hc; apply Hout, in_or_app; now right).
      apply Pst; auto. intros Hc3. apply Nst; auto.
      * intros Hc. apply Hc3. now right.
      * intros Hc2'. apply Mst; auto.
        { intros ->. apply Hc2'. now left. }
        apply I6; auto. intros Hc. apply in_app_or in Hc.
        destruct Hc as [Hc|Hc]; [|contradiction].
        apply in_app_or in Hc. destruct Hc as [Hc|[<-|[]]]; [contradiction|].
        apply Hc3. now left.
    + assumption.
Qed.

(** * Runs on ILP32 *)

Lemma run_invariant (base : Z) (fuel : nat) (ops : list call) :
  pool_address ILP32 base -> (Z.to_nat POOL_SIZE <= fuel)%nat ->
  forall c bs, invariant base c bs ->
  exists c' bs', run ILP32 fuel c ops = Some c' /\ invariant base c' bs'.
Proof.
  intros Hbase Hfuel. induction ops as [|op ops IH]; intros c bs Hinv.
  - exists c, bs. split; [reflexivity | assumption].
  - cbn [run]. destruct op as [size|k].
    + pose proof (invariant_length _ _ _ Hinv) as Hlen.
      destruct (malloc_invariant base c bs fuel size Hbase Hinv ltac:(lia))
        as (c1 & bs1 & -> & Hinv1).
      exact (IH c1 bs1 Hinv1).
    + cbn [step]. destruct (free_invariant base c bs k Hbase Hinv) as [bs1 Hinv1].
      exact (IH _ bs1 Hinv1).
Qed.

(** * Runs on LP64: the first block never verifies *)

Lemma byte_sum_app (n k : nat) : forall (m : memory) (p : Z),
  byte_sum (n + k) m p = byte_sum n m p + byte_sum k m (p + Z.of_nat n).
Proof.
  induction n as [|n IH]; intros m p.
  - cbn [Nat.add byte_sum]. change (Z.of_nat 0) with 0.
    now rewrite Z.add_0_r.
  - cbn [Nat.add byte_sum]. rewrite IH, Nat2Z.inj_succ.
    replace (p + 1 + Z.of_nat n) with (p + Z.succ (Z.of_nat n)) by lia. lia.
Qed.

Lemma byte_sum_first (n : nat) (m : memory) (p : Z) :
  load8 m p <= byte_sum (S n) m p.
Proof. cbn [byte_sum]. pose proof (byte_sum_range n m (p + 1)). lia. Qed.

Lemma resealed_header_LP64 (m : memory) (b : Z) :
  get LP64 f_magic m b = MAGIC_COOKIE ->
  get LP64 f_checksum m b = 0 ->
  verify_header LP64 (set LP64 f_checksum m b (calculate_checksum LP64 m b)) b
  = false.
Proof.
  intros Hmag Hzero. unfold verify_header.
  rewrite get_set_field by discriminate. rewrite Hmag, Z.eqb_refl. cbn [negb].
  rewrite get_set_same.
  set (c := calculate_checksum LP64 m b).
  assert (Hc : 239 <= c <= 44 * 255).
  { unfold c. rewrite checksum_byte_sum.
    change (Z.to_nat (sizeof_block_header LP64 - 4)) with 44%nat.
    pose proof (byte_sum_range 44 m b). pose proof (byte_sum_first 43 m b).
    assert (load8 m b = 239); [|lia].
    unfold get in Hmag. change (offset LP64 f_magic) with 0 in Hmag.
    rewrite Z.add_0_r in Hmag. change (width LP64 f_magic) with (S 3) in Hmag.
    cbn [load] in Hmag. pose proof (load8_range m b).
    pose proof (load_range 3 m (b + 1)) as H3.
    change (256 ^ Z.of_nat 3) with 16777216 in H3.
    unfold MAGIC_COOKIE in Hmag. lia. }
  change (256 ^ Z.of_nat (width LP64 f_checksum)) with 4294967296.
  rewrite (Z.mod_small c) by lia.
  assert (Hne : c <> calculate_checksum LP64 (set LP64 f_checksum m b c) b);
    [|destruct (Z.eqb_spec c (calculate_checksum LP64 (set LP64 f_checksum m b c) b));
      [contradiction|reflexivity]].
  rewrite checksum_byte_sum.
  change (Z.to_nat (sizeof_block_header LP64 - 4)) with (40 + 4)%nat.
  rewrite byte_sum_app.
  assert (E40 : byte_sum 40 (set LP64 f_checksum m b c) b = byte_sum 40 m b).
  { apply byte_sum_ext. intros q Hq. apply load8_store_out.
    change (offset LP64 f_checksum) with 40. lia. }
  assert (Ec : c = byte_sum 40 m b + byte_sum 4 m (b + Z.of_nat 40)).
  { unfold c. rewrite checksum_byte_sum.
    change (Z.to_nat (sizeof_block_header LP64 - 4)) with (40 + 4)%nat.
    apply byte_sum_app. }
  assert (Eold : byte_sum 4 m (b + Z.of_nat 40) = 0).
  { unfold get in Hzero. change (offset LP64 f_checksum) with 40 in Hzero.
    change (width LP64 f_checksum) with 4%nat in Hzero.
    change (Z.of_nat 40) with 40. cbn [load byte_sum] in *.
    pose proof (load8_range m (b + 40)). pose proof (load8_range m (b + 40 + 1)).
    pose proof (load8_range m (b + 40 + 1 + 1)).
    pose proof (load8_range m (b + 40 + 1 + 1 + 1)). lia. }
  rewrite E40.
  assert (Enew : 0 < byte_sum 4 (set LP64 f_checksum m b c) (b + Z.of_nat 40)).
  { change (Z.of_nat 40) with 40. unfold set.
    change (offset LP64 f_checksum) with 40.
    change (width LP64 f_checksum) with 4%nat. cbn [byte_sum].
    rewrite !load8_store_in by lia.
    replace (b + 40 - (b + 40)) with 0 by lia.
    replace (b + 40 + 1 - (b + 40)) with 1 by lia.
    pose proof (Z.mod_pos_bound (c / 256 ^ 0) 256 ltac:(lia)).
    pose proof (Z.mod_pos_bound (c / 256 ^ 1) 256 ltac:(lia)).
    pose proof (Z.mod_pos_bound
                  (c / 256 ^ (b + 40 + 1 + 1 - (b + 40))) 256 ltac:(lia)).
    pose proof (Z.mod_pos_bound
                  (c / 256 ^ (b + 40 + 1 + 1 + 1 - (b + 40))) 256 ltac:(lia)).
    assert (0 < (c / 256 ^ 0) mod 256 + (c / 256 ^ 1) mod 256); [|lia].
    change (256 ^ 0) with 1. change (256 ^ 1) with 256. rewrite Z.div_1_r.
    pose proof (Z.div_mod c 256 ltac:(lia)).
    assert (c / 256 < 256) by (apply Z.div_lt_upper_bound; lia).
    assert (0 <= c / 256) by (apply Z.div_pos; lia).
    rewrite (Z.mod_small (c / 256)) by lia.
    pose proof (Z.mod_pos_bound c 256 ltac:(lia)). lia. }
  lia.
Qed.

Lemma fresh_LP64_fields (base : Z) :
  let m := pool (heap (fresh LP64 base)) in
  verify_header LP64 m base = false
  /\ get LP64 f_size m base = 65488
  /\ get LP64 f_free m base = 1
  /\ get LP64 f_next m base = NULL.
Proof.
  cbv zeta. unfold fresh, init_allocator, boot. cbn [heap pool memory_pool].
  change (to_size LP64 (POOL_SIZE - HEADER_SIZE LP64)) with 65488.
  split; [|repeat split].
  - apply resealed_header_LP64.
    + rewrite !get_set_field by discriminate. rewrite get_set_same. reflexivity.
    + rewrite !get_set_field by discriminate. unfold get, zero_memory.
      reflexivity.
  - rewrite !get_set_field by discriminate. rewrite get_set_same. reflexivity.
  - rewrite !get_set_field by discriminate. rewrite get_set_same. reflexivity.
  - rewrite !get_set_field by discriminate. rewrite get_set_same. reflexivity.
Qed.

Lemma run_LP64 (base : Z) (fuel : nat) (ops : list call) :
  base <> NULL -> (0 < fuel)%nat ->
  forall c,
    heap c = heap (fresh LP64 base) -> Forall (eq NULL) (returned c) ->
    exists c', run LP64 fuel c ops = Some c'
               /\ heap c' = heap (fresh LP64 base).
Proof.
  intros Hbase Hfuel. destruct (fresh_LP64_fields base) as (Hv & _).
  cbv zeta in Hv.
  induction ops as [|op ops IH]; intros c Hc Hr.
  - exists c. split; [reflexivity | assumption].
  - cbn [run]. destruct op as [size|k]; cbn [step].
    + assert (E : my_malloc LP64 fuel (heap c) size = Some (NULL, heap c)).
      { unfold my_malloc. destruct (size =? 0); [reflexivity|]. cbv zeta.
        rewrite Hc. destruct fuel as [|f]; [lia|]. cbn [first_fit].
        change (free_list_head (heap (fresh LP64 base))) with base.
        destruct (Z.eqb_spec base NULL); [contradiction|].
        rewrite Hv. reflexivity. }
      rewrite E. apply IH; cbn [heap returned]; [assumption|].
      apply Forall_app. split; [assumption|]. repeat constructor.
    + assert (E : nth k (returned c) NULL = NULL).
      { destruct (nth_in_or_default k (returned c) NULL) as [Hin|E]; [|exact E].
        rewrite Forall_forall in Hr. symmetry. now apply Hr. }
      rewrite E. unfold my_free. cbn [Z.eqb NULL]. apply IH; assumption.
Qed.

(** * What holds after every run from a fresh allocator *)

Lemma sum_free_sizes_le (a : abi) (m : memory) (bs : list Z) :
  0 <= sumZ (free_sizes a m bs) <= coverage a m bs
  /\ 0 <= maxZ (free_sizes a m bs) <= sumZ (free_sizes a m bs).
Proof.
  unfold free_sizes, coverage, sumZ, maxZ.
  induction bs as [|b bs IH]; cbn [filter map fold_right]; [lia|].
  pose proof (get_range a f_size m b) as Hs.
  assert (0 <= HEADER_SIZE a) by (rewrite header_size_value; destruct a; lia).
  destruct (counted a m b); cbn [map fold_right]; lia.
Qed.

Lemma reachable_summary (a : abi) (base : Z) (fuel : nat) (ops : list call) :
  pool_address a base -> (Z.to_nat POOL_SIZE <= fuel)%nat ->
  exists c bs,
    run a fuel (fresh a base) ops = Some c
    /\ blocks_of a fuel (heap c) = Some bs
    /\ total_allocated (heap c) = allocated_bytes a (pool (heap c)) bs
    /\ total_allocated (heap c) + total_free (heap c)
       = POOL_SIZE - HEADER_SIZE a
    /\ coverage a (pool (heap c)) bs <= POOL_SIZE.
Proof.
  intros Hbase Hfuel. destruct a.
  - destruct (run_invariant base fuel ops Hbase Hfuel _ _
                (init_invariant base Hbase)) as (c & bs & Hrun & Hinv).
    exists c, bs. split; [exact Hrun|].
    pose proof (invariant_length _ _ _ Hinv) as Hlen.
    split; [apply (invariant_block_list base); (assumption || lia)|].
    destruct Hinv as [I1 I2 (e & last & Hseg & He) I4 I5 I6 I7].
    split; [exact I4|]. split; [rewrite I5; change (HEADER_SIZE ILP32) with 24; lia|].
    apply seg_cover in Hseg. lia.
  - destruct Hbase as (H0 & _).
    destruct (run_LP64 base fuel ops) with (c := fresh LP64 base)
      as (c & Hrun & Hc); try (unfold NULL, POOL_SIZE in *; lia);
      [reflexivity|constructor|].
    destruct (fresh_LP64_fields base) as (_ & Hsz & Hfr & Hnx).
    cbv zeta in *. exists c, [base]. split; [exact Hrun|]. rewrite Hc.
    split.
    { unfold blocks_of. change (free_list_head (heap (fresh LP64 base))) with base.
      destruct fuel as [|f]; [unfold POOL_SIZE in *; lia|]. cbn [block_list].
      destruct (Z.eqb_spec base NULL) as [E|_]; [unfold NULL in E; lia|].
      rewrite Hnx. destruct f; reflexivity. }
    split; [rewrite allocated_bytes_cons, Hfr; reflexivity|].
    split.
    { change (total_allocated (heap (fresh LP64 base))) with 0.
      change (total_free (heap (fresh LP64 base)))
        with (get LP64 f_size (pool (heap (fresh LP64 base))) base).
      rewrite Hsz. reflexivity. }
    rewrite coverage_cons, Hsz. vm_compute. discriminate.
Qed.

Lemma size_le_coverage (a : abi) (m : memory) (bs : list Z) (b : Z) :
  In b bs -> HEADER_SIZE a + get a f_size m b <= coverage a m bs.
Proof.
  assert (H0 : forall l, 0 <= coverage a m l).
  { intros l. pose proof (allocated_le_coverage a m l). lia. }
  induction bs as [|x bs IH]; intros Hin; [contradiction|].
  rewrite coverage_cons. destruct Hin as [->|Hin].
  - specialize (H0 bs). lia.
  - specialize (IH Hin). pose proof (get_range a f_size m x).
    assert (0 <= HEADER_SIZE a) by (rewrite header_size_value; destruct a; lia).
    lia.
Qed.

(** A request larger than any block can be, and small enough for line 126
    not to wrap, is refused after every run. *)
Lemma oversize_request_fails (a : abi) (base : Z) (fuel : nat)
      (ops : list call) (n : Z) :
  pool_address a base -> (Z.to_nat POOL_SIZE <= fuel)%nat ->
  POOL_SIZE - HEADER_SIZE a < n -> n + 7 < size_modulus a ->
  exists c,
    run a fuel (fresh a base) ops = Some c
    /\ my_malloc a fuel (heap c) n = Some (NULL, heap c).
Proof.
  intros Hbase Hfuel Hbig Hwrap.
  destruct (reachable_summary a base fuel ops Hbase Hfuel)
    as (c & bs & Hrun & Hbl & _ & _ & Hcov).
  exists c. split; [exact Hrun|]. unfold my_malloc.
  destruct (n =? 0); [reflexivity|]. cbv zeta. unfold blocks_of in Hbl.
  pose proof (first_fit_outcome a (pool (heap c)) (align_size a n) bs fuel _ Hbl)
    as Hout.
  destruct (first_fit a fuel (pool (heap c)) (free_list_head (heap c))
                      (align_size a n)) as [b| | |];
    [exfalso|reflexivity|reflexivity|contradiction].
  destruct Hout as [Hin Hfit].
  apply (size_le_coverage a (pool (heap c))) in Hin.
  unfold fits in Hfit. apply andb_true_iff in Hfit. destruct Hfit as [_ Hf].
  apply Z.leb_le in Hf.
  assert (Hn0 : 0 <= n).
  { assert (HEADER_SIZE a <= POOL_SIZE)
      by (rewrite header_size_value; destruct a; vm_compute; discriminate).
    lia. }
  rewrite align_size_round_up in Hf by assumption.
  unfold round_up, ALIGNMENT in Hf.
  pose proof (Z.div_mod (n + 8 - 1) 8 ltac:(lia)) as E.
  pose proof (Z.mod_pos_bound (n + 8 - 1) 8 ltac:(lia)). lia.
Qed.

(** Whatever its neighbours are, a call of [my_free] that gets past the
    checks of lines 192-209 moves the counters by the size of the block. *)
Lemma my_free_counters (a : abi) (st : allocator) (ptr : Z) :
  let header := to_size a (ptr - HEADER_SIZE a) in
  ptr <> NULL ->
  verify_header a (pool st) header = true ->
  get a f_free (pool st) header = 0 ->
  total_allocated (my_free a st ptr)
  = to_size a (total_allocated st - get a f_size (pool st) header)
  /\ total_free (my_free a st ptr)
     = to_size a (total_free st + get a f_size (pool st) header)
  /\ allocation_count (my_free a st ptr) = allocation_count st - 1.
Proof.
  intros header Hp Hv Hf. unfold my_free.
  destruct (Z.eqb_spec ptr NULL); [contradiction|]. cbv zeta.
  fold header. rewrite Hv, Hf. cbn [negb Z.eqb].
  cbn [total_allocated total_free allocation_count].
  rewrite !get_set_field by discriminate. auto.
Qed.

(** * More on the checksum *)

Lemma load_byte (n : nat) : forall (m : memory) (p j : Z),
  0 <= j < Z.of_nat n ->
  (load n m p / 256 ^ j) mod 256 = load8 m (p + j).
Proof.
  induction n as [|n IH]; intros m p j Hj; [lia|].
  cbn [load]. pose proof (load8_range m p) as Hr.
  destruct (Z.eq_dec j 0) as [->|Hne].
  - rewrite Z.pow_0_r, Z.div_1_r, Z.add_0_r.
    rewrite (Z.mul_comm 256), Z.mod_add by lia.
    apply Z.mod_small. exact Hr.
  - replace (256 ^ j) with (256 * 256 ^ (j - 1)).
    + rewrite <- Z.div_div by lia.
      replace ((load8 m p + 256 * load n m (p + 1)) / 256)
        with (load n m (p + 1)).
      * rewrite IH by lia. f_equal. lia.
      * rewrite (Z.mul_comm 256), Z.div_add by lia.
        rewrite (Z.div_small (load8 m p)) by lia. lia.
    + replace j with (Z.succ (j - 1)) at 2 by lia.
      rewrite Z.pow_succ_r by lia. reflexivity.
Qed.

Lemma load_store8_changes (n : nat) (m : memory) (p j v : Z) :
  0 <= j < Z.of_nat n -> v mod 256 <> load8 m (p + j) ->
  load n (store8 m (p + j) v) p <> load n m p.
Proof.
  intros Hj Hv E. apply Hv.
  rewrite <- (load_byte n m p j Hj), <- E, load_byte by exact Hj.
  rewrite load8_store8, Z.eqb_refl. reflexivity.
Qed.

Lemma load_store8_other (n : nat) (m : memory) (p q v : Z) :
  q < p \/ p + Z.of_nat n <= q -> load n (store8 m q v) p = load n m p.
Proof.
  intros Hq. apply load_ext. intros r Hr. rewrite load8_store8.
  destruct (Z.eqb_spec r q); [lia | reflexivity].
Qed.

Lemma checksum_store8_other (a : abi) (m : memory) (b q v : Z) :
  q < b \/ b + (sizeof_block_header a - 4) <= q ->
  calculate_checksum a (store8 m q v) b = calculate_checksum a m b.
Proof.
  intros Hq. apply sum_bytes_ext. intros r Hr. rewrite load8_store8.
  assert (0 <= sizeof_block_header a - 4) by (destruct a; vm_compute; discriminate).
  rewrite Z2Nat.id in Hr by assumption.
  destruct (Z.eqb_spec r q); [lia | reflexivity].
Qed.

Lemma checksum_range (a : abi) (m : memory) (b : Z) :
  0 <= calculate_checksum a m b < 2 ^ 32.
Proof.
  rewrite checksum_byte_sum.
  pose proof (byte_sum_range (Z.to_nat (sizeof_block_header a - 4)) m b).
  assert (Z.of_nat (Z.to_nat (sizeof_block_header a - 4)) <= 44)
    by (destruct a; vm_compute; discriminate).
  lia.
Qed.

Lemma verify_true (a : abi) (m : memory) (b : Z) :
  verify_header a m b = true <->
  get a f_magic m b = MAGIC_COOKIE
  /\ get a f_checksum m b = calculate_checksum a m b.
Proof.
  unfold verify_header.
  destruct (Z.eqb_spec (get a f_magic m b) MAGIC_COOKIE);
    destruct (Z.eqb_spec (get a f_checksum m b) (calculate_checksum a m b));
    cbn [negb]; intuition congruence.
Qed.

Lemma sealed_verifies (m : memory) (b : Z) :
  get ILP32 f_magic m b = MAGIC_COOKIE ->
  verify_header ILP32
    (set ILP32 f_checksum m b (calculate_checksum ILP32 m b)) b = true.
Proof.
  intros Hm. apply verify_true. split.
  - rewrite get_set_field by discriminate. exact Hm.
  - rewrite checksum_skips_own_field_ILP32, get_set_same.
    apply Z.mod_small. change (256 ^ Z.of_nat (width ILP32 f_checksum)) with (2 ^ 32).
    apply checksum_range.
Qed.
(** * After a run: either data model *)

Lemma run_LP64_nothing (base : Z) (fuel : nat) (ops : list call) :
  base <> NULL -> (0 < fuel)%nat ->
  forall c,
    heap c = heap (fresh LP64 base) -> Forall (eq NULL) (returned c) ->
    exists c', run LP64 fuel c ops = Some c'
               /\ heap c' = heap (fresh LP64 base)
               /\ Forall (eq NULL) (returned c').
Proof.
  intros Hbase Hfuel. destruct (fresh_LP64_fields base) as (Hv & _).
  cbv zeta in Hv.
  induction ops as [|op ops IH]; intros c Hc Hr.
  - exists c. auto.
  - cbn [run]. destruct op as [size|k]; cbn [step].
    + assert (E : my_malloc LP64 fuel (heap c) size = Some (NULL, heap c)).
      { unfold my_malloc. destruct (size =? 0); [reflexivity|]. cbv zeta.
        rewrite Hc. destruct fuel as [|f]; [lia|]. cbn [first_fit].
        change (free_list_head (heap (fresh LP64 base))) with base.
        destruct (Z.eqb_spec base NULL); [contradiction|].
        rewrite Hv. reflexivity. }
      rewrite E. apply IH; cbn [heap returned]; [assumption|].
      apply Forall_app. split; [assumption|]. repeat constructor.
    + assert (E : nth k (returned c) NULL = NULL).
      { destruct (nth_in_or_default k (returned c) NULL) as [Hin|E]; [|exact E].
        rewrite Forall_forall in Hr. symmetry. now apply Hr. }
      rewrite E. unfold my_free. cbn [Z.eqb NULL]. apply IH; assumption.
Qed.

Lemma reachable_cases (a : abi) (base : Z) (fuel : nat) (ops : list call) :
  pool_address a base -> (Z.to_nat POOL_SIZE <= fuel)%nat ->
  exists c,
    run a fuel (fresh a base) ops = Some c
    /\ match a with
       | ILP32 => exists bs, invariant base c bs
       | LP64 => heap c = heap (fresh LP64 base)
                 /\ Forall (eq NULL) (returned c)
       end.
Proof.
  intros Hbase Hfuel. destruct a.
  - destruct (run_invariant base fuel ops Hbase Hfuel _ _
                (init_invariant base Hbase)) as (c & bs & Hrun & Hinv).
    exists c. split; [exact Hrun|]. now exists bs.
  - destruct Hbase as (H0 & _).
    destruct (run_LP64_nothing base fuel ops) with (c := fresh LP64 base)
      as (c & Hrun & Hc & Hr); try (unfold NULL, POOL_SIZE in *; lia);
      [reflexivity|constructor|].
    exists c. auto.
Qed.

(** * The layout of the list *)

Lemma one_after_another_weaken (ends : Z -> Z) (l : list Z) :
  forall lo hi hi', one_after_another ends lo l hi -> hi <= hi' ->
                    one_after_another ends lo l hi'.
Proof.
  induction l as [|b r IH]; intros lo hi hi'; cbn [one_after_another].
  - lia.
  - intros [Hlo Hr] Hle. split; [assumption|]. eapply IH; eassumption.
Qed.

Lemma one_after_another_bounds (ends : Z -> Z) (l : list Z) :
  (forall b, b <= ends b) ->
  forall lo hi, one_after_another ends lo l hi ->
  lo <= hi /\ forall b, In b l -> lo <= b /\ ends b <= hi.
Proof.
  intros Hmono. induction l as [|x r IH]; intros lo hi; cbn [one_after_another].
  - intros Hle. split; [assumption | intros b []].
  - intros [Hlo Hr]. destruct (IH _ _ Hr) as [Hle Hin].
    pose proof (Hmono x). split; [lia|].
    intros b [<-|Hb]; [lia|]. apply Hin in Hb. lia.
Qed.

Lemma one_after_another_app (ends : Z -> Z) (l1 l2 : list Z) :
  forall lo hi, one_after_another ends lo (l1 ++ l2) hi ->
  exists mid, one_after_another ends lo l1 mid
              /\ one_after_another ends mid l2 hi.
Proof.
  induction l1 as [|x r IH]; intros lo hi; cbn [app one_after_another].
  - intros H. exists lo. split; [lia | assumption].
  - intros [Hlo Hr]. destruct (IH _ _ Hr) as (mid & H1 & H2).
    exists mid. auto.
Qed.

Lemma one_after_another_pair (ends : Z -> Z) (l1 l2 l3 : list Z) (b1 b2 : Z) :
  (forall b, b <= ends b) ->
  forall lo hi,
    one_after_another ends lo (l1 ++ b1 :: l2 ++ b2 :: l3) hi ->
    ends b1 <= b2.
Proof.
  intros Hmono lo hi H.
  apply one_after_another_app in H. destruct H as (mid & _ & H).
  cbn [one_after_another] in H. destruct H as [_ H].
  apply one_after_another_app in H. destruct H as (mid2 & H2 & H3).
  apply (one_after_another_bounds ends l2 Hmono) in H2.
  cbn [one_after_another] in H3. lia.
Qed.

Lemma block_end_mono (a : abi) (m : memory) (b : Z) : b <= block_end a m b.
Proof.
  unfold block_end. pose proof (get_range a f_size m b).
  rewrite header_size_value. destruct a; lia.
Qed.

Lemma seg_in_order (m : memory) (l : list Z) : forall lo pv p lo' pv' q,
  seg m lo pv p l lo' pv' q -> in_address_order ILP32 m lo l lo'.
Proof.
  unfold in_address_order.
  induction l as [|b r IH]; intros lo pv p lo' pv' q; cbn [seg one_after_another].
  - tauto.
  - intros (_ & Hlo & _ & Hr). split; [assumption|].
    apply IH in Hr. exact Hr.
Qed.

Lemma seg_back_linked (m : memory) (l : list Z) : forall lo pv p lo' pv' q,
  seg m lo pv p l lo' pv' q -> back_linked ILP32 m pv l.
Proof.
  induction l as [|b r IH]; intros lo pv p lo' pv' q; cbn [seg back_linked].
  - tauto.
  - intros (_ & _ & (_ & _ & Hp & _) & Hr). split; [assumption|].
    apply IH in Hr. exact Hr.
Qed.

Lemma seg_good (m : memory) (l : list Z) : forall lo pv p lo' pv' q,
  seg m lo pv p l lo' pv' q ->
  Forall (fun b => b mod 8 = 0 /\ get ILP32 f_size m b mod 8 = 0
                   /\ get ILP32 f_magic m b = MAGIC_COOKIE
                   /\ (get ILP32 f_free m b = 0 \/ get ILP32 f_free m b = 1)) l.
Proof.
  induction l as [|b r IH]; intros lo pv p lo' pv' q; cbn [seg].
  - constructor.
  - intros (_ & _ & (H8 & Hm & _ & Hf & Hs) & Hr). constructor; [auto|].
    apply IH in Hr. exact Hr.
Qed.

Lemma seg_head (m : memory) (l : list Z) (lo pv p lo' pv' : Z) :
  0 < lo -> seg m lo pv p l lo' pv' NULL -> hd NULL l = p.
Proof.
  destruct l as [|b r]; cbn [seg hd].
  - intros _ (_ & _ & ->). reflexivity.
  - intros _ (-> & _). reflexivity.
Qed.

Lemma fresh_LP64_more (base : Z) :
  let m := pool (heap (fresh LP64 base)) in
  get LP64 f_magic m base = MAGIC_COOKIE
  /\ get LP64 f_prev m base = NULL.
Proof.
  cbv zeta. unfold fresh, init_allocator, boot. cbn [heap pool memory_pool].
  split.
  - rewrite !get_set_field by discriminate. rewrite get_set_same. reflexivity.
  - rewrite !get_set_field by discriminate. rewrite get_set_same. reflexivity.
Qed.

Lemma reachable_layout (a : abi) (base : Z) (fuel : nat) (ops : list call) :
  pool_address a base -> (Z.to_nat POOL_SIZE <= fuel)%nat ->
  exists c bs,
    run a fuel (fresh a base) ops = Some c
    /\ blocks_of a fuel (heap c) = Some bs
    /\ hd NULL bs = base
    /\ in_address_order a (pool (heap c)) base bs (base + POOL_SIZE)
    /\ back_linked a (pool (heap c)) NULL bs
    /\ Forall (fun b => b mod 8 = 0
                        /\ get a f_size (pool (heap c)) b mod 8 = 0
                        /\ get a f_magic (pool (heap c)) b = MAGIC_COOKIE
                        /\ (get a f_free (pool (heap c)) b = 0
                            \/ get a f_free (pool (heap c)) b = 1)) bs
    /\ Forall (fun p => p = NULL \/ p mod 8 = 0) (returned c).
Proof.
  intros Hbase Hfuel.
  destruct (reachable_cases a base fuel ops Hbase Hfuel) as (c & Hrun & Hc).
  exists c. destruct a.
  - destruct Hc as [bs Hinv]. exists bs. split; [exact Hrun|].
    pose proof (invariant_length _ _ _ Hinv) as Hlen.
    split; [apply (invariant_block_list base); (assumption || lia)|].
    destruct Hbase as (H0 & _).
    destruct Hinv as [I1 I2 (e & last & Hseg & He) I4 I5 I6 I7].
    split; [eapply seg_head; eassumption|].
    split; [eapply one_after_another_weaken;
            [eapply seg_in_order; eassumption | exact He]|].
    split; [eapply seg_back_linked; eassumption|].
    split; [eapply seg_good; eassumption|].
    eapply Forall_impl; [|exact I7]. intros p [->|[H8 _]]; auto.
  - destruct Hc as [Hc Hr]. destruct Hbase as (H0 & H8 & Hend).
    destruct (fresh_LP64_fields base) as (_ & Hsz & Hfr & Hnx).
    destruct (fresh_LP64_more base) as (Hmg & Hpv).
    cbv zeta in *. exists [base]. split; [exact Hrun|]. rewrite Hc.
    split.
    { unfold blocks_of. change (free_list_head (heap (fresh LP64 base))) with base.
      destruct fuel as [|f]; [unfold POOL_SIZE in *; lia|]. cbn [block_list].
      destruct (Z.eqb_spec base NULL) as [E|_]; [unfold NULL in E; lia|].
      rewrite Hnx. destruct f; reflexivity. }
    split; [reflexivity|].
    split.
    { unfold in_address_order. cbn [one_after_another]. unfold block_end.
      rewrite Hsz. change (HEADER_SIZE LP64) with 48. unfold POOL_SIZE. lia. }
    split; [cbn [back_linked]; auto|].
    split.
    { constructor; [|constructor]. rewrite Hsz, Hfr. auto. }
    eapply Forall_impl; [|exact Hr]. intros p <-. now left.
Qed.
(** * What a successful search has checked *)

Lemma first_fit_found (a : abi) (m : memory) (n b : Z) :
  forall (fuel : nat) (head : Z),
  first_fit a fuel m head n = Found b ->
  verify_header a m b = true /\ fits a m n b = true.
Proof.
  induction fuel as [|f IH]; intros head; cbn [first_fit].
  - destruct (head =? NULL); discriminate.
  - destruct (head =? NULL); [discriminate|].
    destruct (verify_header a m head) eqn:Hv; cbn [negb]; [|discriminate].
    fold (fits a m n head). destruct (fits a m n head) eqn:Hf.
    + intros E. injection E as <-. auto.
    + apply IH.
Qed.

Lemma align_size_bounds (a : abi) (size : Z) :
  0 <= size -> size + 7 < size_modulus a ->
  size <= align_size a size < size + 8.
Proof.
  intros H0 Hw. rewrite align_size_round_up by assumption.
  unfold round_up, ALIGNMENT.
  pose proof (Z.div_mod (size + 8 - 1) 8 ltac:(lia)) as E.
  pose proof (Z.mod_pos_bound (size + 8 - 1) 8 ltac:(lia)). lia.
Qed.

(** * The block [my_malloc] hands out *)

Lemma malloc_block_ILP32 (base : Z) (c : client) (bs : list Z) (fuel : nat)
      (size p : Z) (st' : allocator) :
  pool_address ILP32 base -> invariant base c bs -> (length bs <= fuel)%nat ->
  my_malloc ILP32 fuel (heap c) size = Some (p, st') ->
  (p = NULL /\ st' = heap c)
  \/ exists b,
      In b bs /\ p = b + 24 /\ b mod 8 = 0
      /\ base <= b
      /\ b + 24 + align_size ILP32 size <= base + POOL_SIZE
      /\ verify_header ILP32 (pool (heap c)) b = true
      /\ get ILP32 f_free (pool (heap c)) b = 1
      /\ verify_header ILP32 (pool st') b = true
      /\ get ILP32 f_free (pool st') b = 0
      /\ get ILP32 f_size (pool st') b = align_size ILP32 size
      /\ total_allocated st' = total_allocated (heap c) + align_size ILP32 size
      /\ total_free st' = total_free (heap c) - align_size ILP32 size
      /\ allocation_count st' = allocation_count (heap c) + 1
      /\ 0 <= total_allocated (heap c)
      /\ total_allocated st' <= POOL_SIZE - 24.
Proof.
  intros Hbase Hinv Hfuel.
  pose proof (invariant_block_list _ _ _ _ Hbase Hinv Hfuel) as Hbl.
  unfold blocks_of in Hbl. unfold my_malloc.
  destruct (size =? 0); [intros E; injection E as <- <-; now left|]. cbv zeta.
  pose proof (first_fit_outcome ILP32 (pool (heap c)) (align_size ILP32 size)
                bs fuel _ Hbl) as Hout.
  destruct (first_fit ILP32 fuel (pool (heap c)) (free_list_head (heap c))
                      (align_size ILP32 size)) as [b| | |] eqn:Ef;
    try (intros E; injection E as <- <-; now left); [|contradiction].
  apply first_fit_found in Ef. destruct Ef as [Hv _].
  destruct Hout as [Hin Hfit]. intros Etake. right. exists b.
  split; [exact Hin|].
  destruct (align_size_range ILP32 size) as [Hn Hn8].
  set (n := align_size ILP32 size) in *. clearbody n.
  change (size_modulus ILP32) with 4294967296 in Hn.
  destruct Hbase as (H0 & H8 & Hend).
  change (size_modulus ILP32) with 4294967296 in Hend.
  destruct Hinv as [I1 I2 (e & last & Hseg & He) I4 I5 I6 I7].
  apply in_split in Hin. destruct Hin as (l1 & l2 & ->).
  apply seg_app in Hseg. destruct Hseg as (lo1 & pv1 & p1 & Hs1 & Hs2).
  pose proof (seg_range _ _ _ _ _ _ _ _ Hs1) as [Hlo1 Hr1].
  pose proof (seg_cover _ _ _ _ _ _ _ _ Hs1) as Hc1.
  pose proof (seg_cover _ _ _ _ _ _ _ _ Hs2) as Hc2.
  pose proof (allocated_le_coverage ILP32 (pool (heap c)) l1) as Ha1.
  pose proof (allocated_le_coverage ILP32 (pool (heap c)) l2) as Ha2.
  destruct (take_window (pool (heap c)) (heap c) b n lo1 pv1 p1 e last l2
              eq_refl Hs2 ltac:(lia) ltac:(unfold POOL_SIZE in *; lia) Hfit
              ltac:(lia) Hn8)
    as (Hp & tail & last' & Tseg & _).
  pose proof (take_block_header ILP32 (heap c) b n Hn) as Hth.
  cbv zeta in Hth. destruct Hth as [Hf0 Hsz].
  pose proof Hs2 as Hs2'. cbn [seg] in Hs2'.
  destruct Hs2' as (_ & Hlob & (Hb8 & _ & _ & Hbf & _) & Hl2).
  pose proof (seg_range _ _ _ _ _ _ _ _ Hl2) as [Hle2 _].
  pose proof (get_word_range f_size (pool (heap c)) b) as Hsr.
  unfold fits in Hfit. apply andb_true_iff in Hfit. destruct Hfit as [Hf1 Hf2].
  apply Z.leb_le in Hf2. apply negb_true_iff, Z.eqb_neq in Hf1.
  assert (Hfree : get ILP32 f_free (pool (heap c)) b = 1)
    by (destruct Hbf; congruence).
  rewrite allocated_bytes_app, allocated_bytes_cons, Hfree in I4.
  cbn [Z.eqb] in I4.
  rewrite coverage_cons in Hc2. change (HEADER_SIZE ILP32) with 24 in Hc2.
  cbn [seg] in Tseg. destruct Tseg as (_ & _ & (_ & Hmag & _) & _).
  destruct (take_block ILP32 (heap c) b n) as [ptr st1] eqn:Et.
  injection Etake as <- <-. cbn [fst snd] in *.
  assert (Est : total_allocated st1 = to_size ILP32 (total_allocated (heap c) + n)
                /\ total_free st1 = to_size ILP32 (total_free (heap c) - n)
                /\ allocation_count st1 = allocation_count (heap c) + 1
                /\ exists m1,
                    pool st1 = set ILP32 f_checksum m1 b
                                   (calculate_checksum ILP32 m1 b)).
  { unfold take_block in Et. cbv zeta in Et. injection Et as _ <-.
    cbn [total_allocated total_free allocation_count pool].
    split; [reflexivity|]. split; [reflexivity|]. split; [reflexivity|].
    eexists. reflexivity. }
  destruct Est as (Et1 & Et2 & Et3 & m1 & Em1).
  unfold POOL_SIZE in *.
  split; [exact Hp|]. split; [exact Hb8|]. split; [lia|]. split; [lia|].
  split; [exact Hv|]. split; [exact Hfree|].
  split.
  { rewrite Em1. apply sealed_verifies.
    rewrite Em1, get_set_field in Hmag by discriminate. exact Hmag. }
  split; [exact Hf0|]. split; [exact Hsz|].
  rewrite Et1, Et2, I5, I4, !to_size32 by lia.
  split; [reflexivity|]. split; [reflexivity|]. split; [exact Et3|]. lia.
Qed.

(** * Freeing twice *)

(** Merging a block into the one before leaves its own [free] member
    alone, when the headers involved do not overlap. *)
Lemma coalesce_prev_keeps_flag (m : memory) (b : Z) :
  get ILP32 f_prev m b + 24 <= b \/ b + 24 <= get ILP32 f_prev m b ->
  get ILP32 f_next m b = NULL
  \/ get ILP32 f_next m b + 24 <= b \/ b + 24 <= get ILP32 f_next m b ->
  get ILP32 f_free (coalesce_prev ILP32 m b) b = get ILP32 f_free m b.
Proof.
  intros Hp Hn. unfold coalesce_prev.
  destruct (negb (get ILP32 f_prev m b =? NULL)
            && negb (get ILP32 f_free m (get ILP32 f_prev m b) =? 0));
    [|reflexivity].
  destruct (verify_header ILP32 m (get ILP32 f_prev m b)); [|reflexivity].
  cbv zeta. set (pb := get ILP32 f_prev m b) in *.
  rewrite get_set_apart by lia.
  rewrite !(get_set_apart _ f_next _ pb b) by lia.
  destruct (Z.eqb_spec (get ILP32 f_next m b) NULL) as [E|E]; cbn [negb].
  - rewrite !get_set_apart by lia. reflexivity.
  - rewrite (get_set_apart f_prev) by lia.
    rewrite !get_set_apart by lia. reflexivity.
Qed.

Lemma free_marks_free (base : Z) (c : client) (bs : list Z) (p : Z) :
  pool_address ILP32 base -> invariant base c bs -> payload_pointer p ->
  my_free ILP32 (heap c) p = heap c
  \/ (p <> NULL
      /\ get ILP32 f_free (pool (my_free ILP32 (heap c) p))
             (to_size ILP32 (p - HEADER_SIZE ILP32)) = 1).
Proof.
  intros Hbase Hinv Hptr.
  unfold my_free. destruct (Z.eqb_spec p NULL) as [E|Hnn]; [now left|].
  destruct Hptr as [E|(Hp8 & Hpr)]; [contradiction|].
  cbv zeta. change (HEADER_SIZE ILP32) with 24.
  rewrite (to_size32 (p - 24)) by lia.
  assert (Hb8 : (p - 24) mod 8 = 0)
    by (rewrite Zminus_mod, Hp8; reflexivity).
  set (b := p - 24) in *. assert (Hb0 : 0 <= b) by (unfold b; lia).
  clearbody b.
  destruct (verify_header ILP32 (pool (heap c)) b) eqn:Hv; cbn [negb];
    [|now left].
  destruct (Z.eqb_spec (get ILP32 f_free (pool (heap c)) b) 0) as [Hfree|_];
    cbn [negb]; [|now left].
  right. split; [exact Hnn|]. cbn [pool].
  apply verify_magic in Hv.
  destruct Hbase as (H0 & H8 & Hend).
  change (size_modulus ILP32) with 4294967296 in Hend.
  destruct Hinv as [I1 I2 (e & last & Hseg & He) I4 I5 I6 I7].
  set (m := pool (heap c)) in *.
  assert (Hin : In b bs).
  { destruct (in_dec Z.eq_dec b bs) as [Hin|Hout]; [assumption|exfalso].
    destruct (I6 b Hb8 Hout) as [Hc|Hc]; apply Hc.
    - now apply magic_first_byte.
    - rewrite <- get_free_byte. exact Hfree. }
  apply in_split in Hin. destruct Hin as (l1 & l2 & ->).
  apply seg_app in Hseg. destruct Hseg as (lo1 & pv1 & p1 & Hs1 & Hs2).
  pose proof (seg_range _ _ _ _ _ _ _ _ Hs1) as [Hlo1 Hr1].
  unfold POOL_SIZE in *.
  set (c1 := calculate_checksum ILP32 _ b). clearbody c1.
  destruct (mark_free_window m b c1 lo1 pv1 p1 e last l2 Hs2 Hfree)
    as (Mseg & Mfree & _).
  set (m2 := set ILP32 f_checksum (set ILP32 f_free m b 1) b c1) in *.
  clearbody m2.
  destruct (coalesce_next_window m2 b lo1 pv1 p1 e last l2 Mseg
              ltac:(lia) ltac:(lia) Mfree)
    as (l2' & last2 & Nseg & Nfree & _).
  set (m3 := coalesce_next ILP32 m2 b) in *. clearbody m3.
  cbn [seg] in Nseg.
  destruct Nseg as (Hp1 & Hlob & (_ & _ & Hbp & _) & Ntail).
  destruct (seg_last _ _ _ _ _ _ _ _ Hs1) as [[-> ->]|(l1' & pb & -> & ->)].
  - rewrite coalesce_prev_none by exact Hbp. exact Nfree.
  - rewrite coalesce_prev_keeps_flag; [exact Nfree| |].
    + rewrite Hbp. left.
      assert (Hpb : In pb (l1' ++ [pb])) by (apply in_or_app; right; now left).
      apply Hr1 in Hpb. lia.
    + pose proof (get_word_range f_size m3 b).
      destruct l2' as [|x r]; cbn [seg] in Ntail.
      * left. tauto.
      * right. right. destruct Ntail as (-> & Hx & _). lia.
Qed.

Lemma free_twice_ILP32 (base : Z) (c : client) (bs : list Z) (p : Z) :
  pool_address ILP32 base -> invariant base c bs -> payload_pointer p ->
  my_free ILP32 (my_free ILP32 (heap c) p) p = my_free ILP32 (heap c) p.
Proof.
  intros Hbase Hinv Hptr.
  destruct (free_marks_free base c bs p Hbase Hinv Hptr) as [E|[Hnn Hf]].
  - rewrite !E. reflexivity.
  - set (st1 := my_free ILP32 (heap c) p) in *. clearbody st1.
    unfold my_free. destruct (Z.eqb_spec p NULL); [reflexivity|]. cbv zeta.
    destruct (verify_header ILP32 (pool st1) _); cbn [negb]; [|reflexivity].
    rewrite Hf. reflexivity.
Qed.

(** * Giving back what was just taken *)

Lemma malloc_then_free_ILP32 (base : Z) (c : client) (bs : list Z)
      (fuel : nat) (size p : Z) (st' : allocator) :
  pool_address ILP32 base -> invariant base c bs -> (length bs <= fuel)%nat ->
  my_malloc ILP32 fuel (heap c) size = Some (p, st') ->
  total_allocated (my_free ILP32 st' p) = total_allocated (heap c)
  /\ total_free (my_free ILP32 st' p) = total_free (heap c)
  /\ allocation_count (my_free ILP32 st' p) = allocation_count (heap c).
Proof.
  intros Hbase Hinv Hfuel Hm.
  destruct (malloc_block_ILP32 base c bs fuel size p st' Hbase Hinv Hfuel Hm)
    as [[-> ->]|(b & Hin & Hp & Hb8 & Hlo & Hhi & _ & _ & Hv & Hf & Hs
                 & Ta & Tf & Tc & T0 & T1)].
  - unfold my_free. cbn [Z.eqb NULL]. auto.
  - destruct Hbase as (H0 & H8 & Hend).
    change (size_modulus ILP32) with 4294967296 in Hend.
    destruct (align_size_range ILP32 size) as [Hn _].
    unfold POOL_SIZE in *.
    assert (Eb : to_size ILP32 (p - HEADER_SIZE ILP32) = b).
    { change (HEADER_SIZE ILP32) with 24. rewrite Hp.
      replace (b + 24 - 24) with b by lia. apply to_size32. lia. }
    assert (Hnn : p <> NULL) by (unfold NULL; lia).
    pose proof (my_free_counters ILP32 st' p) as Hc. cbv zeta in Hc.
    rewrite Eb in Hc. destruct (Hc Hnn Hv Hf) as (C1 & C2 & C3).
    rewrite C1, C2, C3, Hs, Ta, Tf, Tc.
    pose proof (inv_free _ _ _ Hinv) as I5. unfold POOL_SIZE in I5.
    rewrite !to_size32 by lia. lia.
Qed.

(** * The memory map *)

Lemma visual_size_bounds (a : abi) (size : Z) :
  0 <= size < POOL_SIZE -> 1 <= visual_size_of a size < VISUALIZER_WIDTH.
Proof.
  intros Hs. unfold visual_size_of, VISUALIZER_WIDTH, POOL_SIZE in *.
  change (1024 * 64) with 65536 in *.
  assert (Hmod : 4294967296 <= size_modulus a)
    by (destruct a; vm_compute; discriminate).
  rewrite to_size_small by lia.
  assert (Hq : 0 <= size * 60 / 65536 < 60).
  { split; [apply Z.div_pos; lia|]. apply Z.div_lt_upper_bound; lia. }
  assert (Ei : to_int (size * 60 / 65536) = size * 60 / 65536).
  { unfold to_int. rewrite Z.mod_small by lia. lia. }
  cbv zeta. rewrite Ei.
  destruct (Z.ltb_spec (size * 60 / 65536) 1); lia.
Qed.

Lemma map_rows_length (a : abi) (m : memory) :
  forall (left : nat) (current block_num : Z),
  Z.of_nat (length (map_rows a left m current block_num))
  <= Z.max 1 (101 - block_num).
Proof.
  induction left as [|l IH]; intros current bn; cbn [map_rows].
  - cbn [length]. lia.
  - destruct (verify_header a m current); cbn [negb]; [|cbn [length]; lia].
    cbn [length]. destruct (get a f_next m current =? NULL); [cbn [length]; lia|].
    destruct (Z.ltb_spec 100 (bn + 1)); [cbn [length]; lia|].
    specialize (IH (get a f_next m current) (bn + 1)). lia.
Qed.

Lemma map_rows_left (a : abi) (m : memory) :
  forall (left left' : nat) (current block_num : Z),
  block_num <= 100 ->
  101 - block_num <= Z.of_nat left -> 101 - block_num <= Z.of_nat left' ->
  map_rows a left m current block_num = map_rows a left' m current block_num.
Proof.
  induction left as [|l IH]; intros left' current bn Hbn Hl Hl'; [lia|].
  destruct left' as [|l']; [lia|]. cbn [map_rows].
  destruct (verify_header a m current); cbn [negb]; [|reflexivity].
  f_equal. destruct (get a f_next m current =? NULL); [reflexivity|].
  destruct (Z.ltb_spec 100 (bn + 1)); [reflexivity|].
  apply IH; lia.
Qed.

Lemma map_rows_list (a : abi) (m : memory) :
  forall (left : nat) (bs : list Z) (fuel : nat) (current block_num : Z),
  block_list a fuel m current = Some bs -> current <> NULL ->
  Z.of_nat left = 101 - block_num ->
  map_rows a left m current block_num
  = rows_of a m block_num (firstn left bs).
Proof.
  induction left as [|l IH]; intros bs fuel current bn Hbl Hc Hl.
  - reflexivity.
  - destruct bs as [|b r].
    { apply block_list_nil in Hbl. contradiction. }
    apply block_list_cons in Hbl. destruct Hbl as (_ & -> & f & -> & Hr).
    cbn [map_rows firstn rows_of].
    destruct (verify_header a m current); cbn [negb]; [|reflexivity].
    f_equal. destruct (Z.eqb_spec (get a f_next m current) NULL) as [E|E].
    + rewrite E in Hr.
      assert (r = []) by (destruct f; cbn in Hr; congruence).
      subst r. destruct l; reflexivity.
    + destruct (Z.ltb_spec 100 (bn + 1)).
      * assert (l = 0%nat) by lia. subst l. reflexivity.
      * apply (IH r f); [exact Hr | exact E | lia].
Qed.

Lemma rows_of_bars (a : abi) (m : memory) (bs : list Z) :
  Forall (fun b => get a f_size m b < POOL_SIZE) bs ->
  forall block_num,
    Forall (fun l => l = Warning \/ 1 <= bar_length l < VISUALIZER_WIDTH)
           (rows_of a m block_num bs).
Proof.
  induction 1 as [|b r Hb Hr IH]; intros bn; cbn [rows_of]; [constructor|].
  destruct (verify_header a m b).
  - constructor; [|apply IH]. right. cbn [map_row bar_length].
    apply visual_size_bounds. pose proof (get_range a f_size m b). lia.
  - constructor; [now left | constructor].
Qed.

(** * A step of either data model *)

Lemma malloc_LP64_fresh (base : Z) (fuel : nat) (st : allocator) (size : Z) :
  base <> NULL -> (0 < fuel)%nat -> st = heap (fresh LP64 base) ->
  my_malloc LP64 fuel st size = Some (NULL, st).
Proof.
  intros Hbase Hfuel ->. destruct (fresh_LP64_fields base) as (Hv & _).
  cbv zeta in Hv. unfold my_malloc.
  destruct (size =? 0); [reflexivity|]. cbv zeta.
  destruct fuel as [|f]; [lia|]. cbn [first_fit].
  change (free_list_head (heap (fresh LP64 base))) with base.
  destruct (Z.eqb_spec base NULL); [contradiction|].
  rewrite Hv. reflexivity.
Qed.

Lemma nth_all_null (l : list Z) (k : nat) :
  Forall (eq NULL) l -> nth k l NULL = NULL.
Proof.
  intros Hr. destruct (nth_in_or_default k l NULL) as [Hin|E]; [|exact E].
  rewrite Forall_forall in Hr. symmetry. now apply Hr.
Qed.

Lemma align_size_fixed (a : abi) (size : Z) :
  0 <= size -> size + 7 < size_modulus a ->
  align_size a (align_size a size) = align_size a size.
Proof.
  intros H0 Hw.
  destruct (align_size_range a size) as [Hr H8].
  pose proof (align_size_bounds a size H0 Hw) as Hb.
  assert (Hm : size_modulus a mod 8 = 0) by (destruct a; reflexivity).
  assert (Hw' : align_size a size + 7 < size_modulus a).
  { pose proof (Z.div_mod (align_size a size) 8 ltac:(lia)).
    pose proof (Z.div_mod (size_modulus a) 8 ltac:(lia)). lia. }
  pose proof (align_size_bounds a (align_size a size) ltac:(lia) Hw') as Hb'.
  destruct (align_size_range a (align_size a size)) as [_ H8'].
  pose proof (Z.div_mod (align_size a size) 8 ltac:(lia)).
  pose proof (Z.div_mod (align_size a (align_size a size)) 8 ltac:(lia)).
  lia.
Qed.

Lemma reachable_heads (a : abi) (base : Z) (fuel : nat) (ops : list call)
      (c : client) :
  pool_address a base -> (Z.to_nat POOL_SIZE <= fuel)%nat ->
  run a fuel (fresh a base) ops = Some c ->
  memory_pool (heap c) = base /\ free_list_head (heap c) = base.
Proof.
  intros Hbase Hfuel Hrun.
  destruct (reachable_cases a base fuel ops Hbase Hfuel) as (c' & Hrun' & Hc).
  rewrite Hrun in Hrun'. injection Hrun' as <-. destruct a.
  - destruct Hc as [bs [I1 I2 _ _ _ _ _]]. auto.
  - destruct Hc as [-> _]. split; reflexivity.
Qed.

Lemma sizes_below_pool (a : abi) (m : memory) (base : Z) (bs : list Z) :
  in_address_order a m base bs (base + POOL_SIZE) ->
  Forall (fun b => get a f_size m b < POOL_SIZE) bs.
Proof.
  intros Hord. unfold in_address_order in Hord.
  destruct (one_after_another_bounds _ _ (block_end_mono a m) _ _ Hord)
    as [_ Hb].
  apply Forall_forall. intros b Hin. apply Hb in Hin. unfold block_end in Hin.
  rewrite header_size_value in Hin. destruct a; lia.
Qed.

Lemma in_first_blocks (n : nat) (l : list Z) (x : Z) :
  In x (firstn n l) -> In x l.
Proof.
  intros H. rewrite <- (firstn_skipn n l). apply in_or_app. now left.
Qed.
(** * Which bytes a call writes *)

Lemma load8_set_outside (f : field) (m : memory) (b v x : Z) :
  x < b \/ b + 24 <= x -> load8 (set ILP32 f m b v) x = load8 m x.
Proof.
  intros H. unfold set. apply load8_store_out.
  pose proof (field_inside ILP32 f) as [H0 H1].
  change (HEADER_SIZE ILP32) with 24 in H1. lia.
Qed.

Lemma write_header_outside (m : memory) (N size next prev c x : Z) :
  x < N \/ N + 24 <= x ->
  load8 (write_header m N size next prev c) x = load8 m x.
Proof.
  intros H. unfold write_header. rewrite !load8_set_outside by exact H.
  reflexivity.
Qed.

(** Lines 153-175 write into the block taken and, when it is split, into
    what was its payload and into the header of the block behind. *)
Lemma take_block_bytes (m : memory) (st : allocator)
      (b n lo pv p e last : Z) (l2 : list Z) (x : Z) :
  pool st = m ->
  seg m lo pv p (b :: l2) e last NULL ->
  0 < lo -> e < 4294967296 ->
  fits ILP32 m n b = true -> 0 <= n ->
  x < b \/ b + 24 + get ILP32 f_size m b <= x ->
  (forall h, In h l2 -> x < h \/ h + 24 <= x) ->
  load8 (pool (snd (take_block ILP32 st b n))) x = load8 m x.
Proof.
  intros Hm Hseg H0 He Hfit Hn Hx Hl2.
  cbn [seg] in Hseg. destruct Hseg as (_ & Hlo & _ & Hr).
  pose proof (seg_range _ _ _ _ _ _ _ _ Hr) as [Hle _].
  pose proof (get_word_range f_size m b) as Hsr.
  unfold fits in Hfit. apply andb_true_iff in Hfit. destruct Hfit as [_ Hf2].
  apply Z.leb_le in Hf2.
  unfold take_block. cbv zeta. cbn [snd pool]. rewrite Hm.
  rewrite !load8_set_outside by lia.
  change (HEADER_SIZE ILP32 + ALIGNMENT) with 32.
  rewrite (to_size32 32) by lia.
  rewrite (to_size32 (get ILP32 f_size m b - n)) by lia.
  destruct (Z.leb_spec 32 (get ILP32 f_size m b - n)) as [Hsplit|_];
    [|reflexivity].
  destruct (split_block_eq m b n (get ILP32 f_size m b - n)
              ltac:(lia) Hn ltac:(lia) ltac:(lia)) as [c ->].
  rewrite load8_set_outside by lia.
  destruct (Z.eqb_spec (get ILP32 f_next m b) NULL) as [E|E]; cbn [negb].
  - apply write_header_outside. lia.
  - rewrite load8_set_outside; [apply write_header_outside; lia|].
    apply Hl2. destruct l2 as [|y r]; cbn [seg] in Hr.
    + destruct Hr as (_ & _ & Hq). contradiction.
    + destruct Hr as (-> & _). now left.
Qed.

(** Lines 221-236 write into the header of the block and of the block
    two links on. *)
Lemma coalesce_next_bytes (m : memory) (b x : Z) :
  get ILP32 f_next m b = NULL
  \/ ((get ILP32 f_next m b + 24 <= b \/ b + 24 <= get ILP32 f_next m b)
      /\ (get ILP32 f_next m (get ILP32 f_next m b) = NULL
          \/ x < get ILP32 f_next m (get ILP32 f_next m b)
          \/ get ILP32 f_next m (get ILP32 f_next m b) + 24 <= x)) ->
  x < b \/ b + 24 <= x ->
  load8 (coalesce_next ILP32 m b) x = load8 m x.
Proof.
  intros Ha Hx. unfold coalesce_next.
  destruct (Z.eqb_spec (get ILP32 f_next m b) NULL) as [E|E]; cbn [negb andb];
    [reflexivity|].
  destruct Ha as [Ha|[Ha Hnn]]; [contradiction|].
  set (nx := get ILP32 f_next m b) in *.
  destruct (negb (get ILP32 f_free m nx =? 0)); [|reflexivity].
  destruct (verify_header ILP32 m nx); [|reflexivity].
  cbv zeta. rewrite load8_set_outside by lia.
  rewrite !(get_set_apart _ f_next _ b nx) by lia.
  set (nn := get ILP32 f_next m nx) in *.
  destruct (Z.eqb_spec nn NULL) as [En|En]; cbn [negb].
  - rewrite !load8_set_outside by lia. reflexivity.
  - destruct Hnn as [Hnn|Hnn]; [contradiction|].
    rewrite !load8_set_outside by lia. reflexivity.
Qed.


(** Lines 239-255 write into the header of the block before and of the
    block behind. *)
Lemma coalesce_prev_bytes (m : memory) (b x : Z) :
  get ILP32 f_prev m b + 24 <= b \/ b + 24 <= get ILP32 f_prev m b ->
  x < get ILP32 f_prev m b \/ get ILP32 f_prev m b + 24 <= x ->
  get ILP32 f_next m b = NULL
  \/ x < get ILP32 f_next m b \/ get ILP32 f_next m b + 24 <= x ->
  load8 (coalesce_prev ILP32 m b) x = load8 m x.
Proof.
  intros Ha Hx Hn. unfold coalesce_prev.
  destruct (negb (get ILP32 f_prev m b =? NULL)
            && negb (get ILP32 f_free m (get ILP32 f_prev m b) =? 0));
    [|reflexivity].
  destruct (verify_header ILP32 m (get ILP32 f_prev m b)); [|reflexivity].
  cbv zeta. set (pb := get ILP32 f_prev m b) in *.
  rewrite load8_set_outside by lia.
  rewrite !(get_set_apart _ f_next _ pb b) by lia.
  destruct (Z.eqb_spec (get ILP32 f_next m b) NULL) as [En|En]; cbn [negb].
  - rewrite !load8_set_outside by lia. reflexivity.
  - destruct Hn as [Hn|Hn]; [contradiction|].
    rewrite !load8_set_outside by lia. reflexivity.
Qed.




(** Two blocks of a list in address order are the same block, or one
    ends before the other starts. *)
Lemma blocks_apart (ends : Z -> Z) (bs : list Z) (lo hi b h : Z) :
  (forall y, y <= ends y) ->
  one_after_another ends lo bs hi -> In b bs -> In h bs ->
  h = b \/ ends h <= b \/ ends b <= h.
Proof.
  intros Hmono Hord Hb Hh.
  apply in_split in Hb. destruct Hb as (l1 & l2 & E). subst bs.
  apply in_app_or in Hh. destruct Hh as [Hh|[Hh|Hh]].
  - right. left. apply in_split in Hh. destruct Hh as (l1a & l1b & ->).
    rewrite <- app_assoc in Hord. cbn [app] in Hord.
    eapply one_after_another_pair; [exact Hmono | exact Hord].
  - left. symmetry. exact Hh.
  - right. right. apply in_split in Hh. destruct Hh as (l2a & l2b & ->).
    eapply one_after_another_pair; [exact Hmono | exact Hord].
Qed.


(** * The figures of print_statistics *)

Lemma score_in_range (a : abi) (fuel : nat) (m : memory) (head : Z)
      (bs : list Z) :
  block_list a fuel m head = Some bs ->
  coverage a m bs <= POOL_SIZE ->
  exists k l t,
    frag_walk a fuel m head 0 0 0 = Some (k, l, t)
    /\ 0 <= score_of a k l t <= 100.
Proof.
  intros Hbl Hcov.
  rewrite (frag_walk_figures a m _ _ _ 0 0 0 Hbl)
    by (try lia; destruct a; vm_compute; split; congruence).
  eexists _, _, _. split; [reflexivity|].
  destruct (sum_free_sizes_le a m bs) as [HF HL].
  set (fs := free_sizes a m bs) in *.
  set (F := sumZ fs) in *. set (L := maxZ fs) in *.
  set (k := Z.of_nat (length fs)).
  rewrite Z.add_0_l, Z.add_0_l, Z.max_r by lia.
  unfold POOL_SIZE in Hcov.
  assert (Hmod : 4294967296 <= size_modulus a)
    by (destruct a; vm_compute; discriminate).
  rewrite (to_size_small a F) by lia.
  unfold score_of.
  destruct (Z.ltb_spec 1 k) as [Hk|Hk]; cbn [andb]; [|lia].
  destruct (Z.ltb_spec 0 F) as [HF0|HF0]; [|lia].
  rewrite (to_size_small a (L * 100)) by lia.
  assert (Hq : 0 <= L * 100 / F <= 100).
  { split; [apply Z.div_pos; lia|].
    apply Z.div_le_upper_bound; lia. }
  rewrite (to_size_small a (100 - L * 100 / F)) by lia.
  unfold to_int. rewrite Z.mod_small by lia. lia.
Qed.

Lemma allocated_leaves_a_header (a : abi) (m : memory) (bs : list Z) :
  bs <> [] ->
  0 <= allocated_bytes a m bs <= coverage a m bs - HEADER_SIZE a.
Proof.
  destruct bs as [|x r]; [contradiction|]. intros _.
  rewrite coverage_cons, allocated_bytes_cons.
  pose proof (allocated_le_coverage a m r).
  pose proof (get_range a f_size m x).
  destruct (get a f_free m x =? 0); lia.
Qed.

(** * The program on LP64 *)

Lemma map_LP64_fresh (base : Z) (st : allocator) :
  st = heap (fresh LP64 base) -> print_memory_map LP64 st = [Warning].
Proof.
  intros ->. destruct (fresh_LP64_fields base) as (Hv & _). cbv zeta in Hv.
  unfold print_memory_map. change (memory_pool (heap (fresh LP64 base))) with base.
  change 101%nat with (S 100). cbn [map_rows]. rewrite Hv. reflexivity.
Qed.

Lemma statistics_LP64_fresh (base : Z) (fuel : nat) :
  base <> NULL -> (0 < fuel)%nat ->
  print_statistics LP64 fuel (heap (fresh LP64 base))
  = Some ({| shown_pool_size := POOL_SIZE;
             shown_allocated := 0;
             shown_free := POOL_SIZE - HEADER_SIZE LP64;
             shown_active := 0;
             shown_score := 0;
             shown_header_size := HEADER_SIZE LP64;
             shown_alignment := ALIGNMENT |},
           heap (fresh LP64 base)).
Proof.
  intros Hb Hfuel.
  destruct (fresh_LP64_fields base) as (Hv & Hsz & _ & Hnx). cbv zeta in *.
  assert (Ew : frag_walk LP64 fuel (pool (heap (fresh LP64 base)))
                         (free_list_head (heap (fresh LP64 base))) 0 0 0
               = Some (0, 0, 0)).
  { change (free_list_head (heap (fresh LP64 base))) with base.
    destruct fuel as [|f]; [lia|]. cbn [frag_walk].
    destruct (Z.eqb_spec base NULL); [contradiction|].
    rewrite Hv, Hnx. cbn [andb]. destruct f; reflexivity. }
  assert (Ec : calculate_fragmentation LP64 fuel (heap (fresh LP64 base))
               = Some (heap (fresh LP64 base))).
  { unfold calculate_fragmentation. rewrite Ew. reflexivity. }
  assert (Et : total_free (heap (fresh LP64 base))
               = POOL_SIZE - HEADER_SIZE LP64).
  { change (get LP64 f_size (pool (heap (fresh LP64 base))) base
            = POOL_SIZE - HEADER_SIZE LP64).
    rewrite Hsz. reflexivity. }
  unfold print_statistics. rewrite Ec, Et. reflexivity.
Qed.
(** * Headers that are byte for byte the same *)

Lemma get_same_header (m m' : memory) (h : Z) (f : field) :
  same_header m m' h -> get ILP32 f m' h = get ILP32 f m h.
Proof.
  intros Hs. unfold get. apply load_ext. intros q Hq. apply Hs.
  pose proof (field_inside ILP32 f) as [H0 H1].
  change (HEADER_SIZE ILP32) with 24 in H1. lia.
Qed.

Lemma verify_same_header (m m' : memory) (h : Z) :
  same_header m m' h -> verify_header ILP32 m' h = verify_header ILP32 m h.
Proof.
  intros Hs. unfold verify_header.
  rewrite !(get_same_header m m' h) by exact Hs.
  assert (E : calculate_checksum ILP32 m' h = calculate_checksum ILP32 m h).
  { unfold calculate_checksum. apply sum_bytes_ext. intros q Hq. apply Hs.
    change (Z.of_nat (Z.to_nat (sizeof_block_header ILP32 - 4))) with 20 in Hq.
    lia. }
  rewrite E. reflexivity.
Qed.

(** * Searching again *)

(** What the search passed over before it found its block. *)
Lemma first_fit_prefix (a : abi) (m : memory) (n b : Z) (bs : list Z) :
  forall (fuel : nat) (head : Z),
  block_list a fuel m head = Some bs ->
  first_fit a fuel m head n = Found b ->
  exists l1 l2, bs = l1 ++ b :: l2 /\ Forall (passed_over a m n) l1.
Proof.
  induction bs as [|x r IH]; intros fuel head Hbl Hf.
  - apply block_list_nil in Hbl. subst head.
    destruct fuel; cbn in Hf; discriminate.
  - apply block_list_cons in Hbl. destruct Hbl as (Hn & -> & f & -> & Hr).
    cbn [first_fit] in Hf. destruct (Z.eqb_spec head NULL); [contradiction|].
    destruct (verify_header a m head) eqn:Hv; cbn [negb] in Hf; [|discriminate].
    fold (fits a m n head) in Hf. destruct (fits a m n head) eqn:Hfit.
    + injection Hf as <-. exists [], r. split; [reflexivity | constructor].
    + destruct (IH f _ Hr Hf) as (l1 & l2 & -> & Hp).
      exists (head :: l1), l2. split; [reflexivity|].
      constructor; [split; assumption | exact Hp].
Qed.

(** The search finds [t] again in a memory where the headers it passed
    over are unchanged and [t] verifies and fits. *)
Lemma first_fit_replay (m m' : memory) (n t : Z) (l1 l2 : list Z) :
  forall (fuel : nat) (head : Z),
  block_list ILP32 fuel m head = Some (l1 ++ t :: l2) ->
  Forall (passed_over ILP32 m n) l1 ->
  (forall h, In h l1 -> same_header m m' h) ->
  verify_header ILP32 m' t = true -> fits ILP32 m' n t = true ->
  first_fit ILP32 fuel m' head n = Found t.
Proof.
  induction l1 as [|x l1 IH]; intros fuel head Hbl Hp Hs Hv Hf.
  - apply block_list_cons in Hbl. destruct Hbl as (Hn & -> & f & -> & _).
    cbn [first_fit]. destruct (Z.eqb_spec head NULL); [contradiction|].
    rewrite Hv. cbn [negb]. unfold fits in Hf. rewrite Hf. reflexivity.
  - cbn [app] in Hbl. apply block_list_cons in Hbl.
    destruct Hbl as (Hn & -> & f & -> & Hr).
    inversion Hp as [|? ? [Hvx Hfx] Hp']; subst.
    assert (Hsx : same_header m m' head) by (apply Hs; now left).
    cbn [first_fit]. destruct (Z.eqb_spec head NULL); [contradiction|].
    rewrite (verify_same_header m m' head Hsx), Hvx. cbn [negb].
    unfold fits in Hfx. rewrite !(get_same_header m m' head) by exact Hsx.
    rewrite Hfx. apply IH; try assumption.
    intros h Hh. apply Hs. now right.
Qed.

(** * Merging keeps the header sealed *)

Lemma coalesce_next_sealed (m : memory) (b : Z) :
  verify_header ILP32 m b = true ->
  get ILP32 f_next m b = NULL
  \/ (b + 24 <= get ILP32 f_next m b
      /\ get ILP32 f_size m b + 24
         + get ILP32 f_size m (get ILP32 f_next m b) < 4294967296
      /\ (get ILP32 f_next m (get ILP32 f_next m b) = NULL
          \/ b + 24 <= get ILP32 f_next m (get ILP32 f_next m b))) ->
  verify_header ILP32 (coalesce_next ILP32 m b) b = true
  /\ get ILP32 f_size m b <= get ILP32 f_size (coalesce_next ILP32 m b) b.
Proof.
  intros Hv Ha. unfold coalesce_next.
  destruct (Z.eqb_spec (get ILP32 f_next m b) NULL) as [E|E]; cbn [negb andb];
    [split; [exact Hv | lia]|].
  destruct Ha as [Ha|(Ha & Hw & Hnn)]; [contradiction|].
  set (nx := get ILP32 f_next m b) in *.
  destruct (negb (get ILP32 f_free m nx =? 0)); [|split; [exact Hv | lia]].
  destruct (verify_header ILP32 m nx); [|split; [exact Hv | lia]].
  cbv zeta. change (HEADER_SIZE ILP32) with 24.
  pose proof (get_word_range f_size m b) as Hsb.
  pose proof (get_word_range f_size m nx) as Hsn.
  rewrite (to_size32 (24 + get ILP32 f_size m nx)) by lia.
  rewrite (to_size32 (get ILP32 f_size m b + (24 + get ILP32 f_size m nx)))
    by lia.
  rewrite !(get_set_apart _ f_next _ b nx) by lia.
  set (nn := get ILP32 f_next m nx) in *.
  apply verify_magic in Hv.
  split.
  - apply sealed_verifies.
    destruct (Z.eqb_spec nn NULL) as [En|En]; cbn [negb].
    + rewrite !get_set_field by discriminate. exact Hv.
    + destruct Hnn as [Hnn|Hnn]; [contradiction|].
      rewrite get_set_apart by lia.
      rewrite !get_set_field by discriminate. exact Hv.
  - rewrite get_set_field by discriminate.
    destruct (Z.eqb_spec nn NULL) as [En|En]; cbn [negb].
    + rewrite get_set_field by discriminate.
      rewrite get_set_word by (discriminate || lia). lia.
    + destruct Hnn as [Hnn|Hnn]; [contradiction|].
      rewrite get_set_apart by lia. rewrite get_set_field by discriminate.
      rewrite get_set_word by (discriminate || lia). lia.
Qed.

Lemma coalesce_prev_cases (m : memory) (b : Z) :
  get ILP32 f_prev m b + 24 <= b ->
  get ILP32 f_size m (get ILP32 f_prev m b) + 24 + get ILP32 f_size m b
  < 4294967296 ->
  get ILP32 f_next m b = NULL \/ b + 24 <= get ILP32 f_next m b ->
  coalesce_prev ILP32 m b = m
  \/ (get ILP32 f_prev m b <> NULL
      /\ verify_header ILP32 (coalesce_prev ILP32 m b) (get ILP32 f_prev m b)
         = true
      /\ get ILP32 f_free (coalesce_prev ILP32 m b) (get ILP32 f_prev m b) <> 0
      /\ get ILP32 f_size m b
         <= get ILP32 f_size (coalesce_prev ILP32 m b) (get ILP32 f_prev m b)).
Proof.
  intros Ha Hw Hn. unfold coalesce_prev.
  set (pb := get ILP32 f_prev m b) in *.
  destruct (Z.eqb_spec pb NULL) as [E|E]; cbn [negb andb]; [now left|].
  destruct (Z.eqb_spec (get ILP32 f_free m pb) 0) as [Hf|Hf]; cbn [negb];
    [now left|].
  destruct (verify_header ILP32 m pb) eqn:Hv; [|now left].
  right. split; [exact E|]. cbv zeta. change (HEADER_SIZE ILP32) with 24.
  pose proof (get_word_range f_size m b) as Hsb.
  pose proof (get_word_range f_size m pb) as Hsp.
  rewrite (to_size32 (24 + get ILP32 f_size m b)) by lia.
  rewrite (to_size32 (get ILP32 f_size m pb + (24 + get ILP32 f_size m b)))
    by lia.
  rewrite !(get_set_apart _ f_next _ pb b) by lia.
  apply verify_magic in Hv.
  destruct (Z.eqb_spec (get ILP32 f_next m b) NULL) as [En|En]; cbn [negb].
  - split; [apply sealed_verifies|split].
    + rewrite !get_set_field by discriminate. exact Hv.
    + rewrite !get_set_field by discriminate. exact Hf.
    + rewrite !get_set_field by discriminate.
      rewrite get_set_word by (discriminate || lia). lia.
  - destruct Hn as [Hn|Hn]; [contradiction|].
    split; [apply sealed_verifies|split].
    + rewrite get_set_apart by lia.
      rewrite !get_set_field by discriminate. exact Hv.
    + rewrite get_set_field by discriminate. rewrite get_set_apart by lia.
      rewrite !get_set_field by discriminate. exact Hf.
    + rewrite get_set_field by discriminate. rewrite get_set_apart by lia.
      rewrite get_set_field by discriminate.
      rewrite get_set_word by (discriminate || lia). lia.
Qed.

(** A block of the list and the one behind it, with where they end. *)
Lemma seg_next_bounds (m : memory) (b lo pv p e last : Z) (l2 : list Z) :
  seg m lo pv p (b :: l2) e last NULL ->
  b + 24 + get ILP32 f_size m b <= e
  /\ (get ILP32 f_next m b = NULL
      \/ (b + 24 + get ILP32 f_size m b <= get ILP32 f_next m b
          /\ get ILP32 f_next m b + 24
             + get ILP32 f_size m (get ILP32 f_next m b) <= e
          /\ (get ILP32 f_next m (get ILP32 f_next m b) = NULL
              \/ get ILP32 f_next m b + 24
                 <= get ILP32 f_next m (get ILP32 f_next m b)))).
Proof.
  cbn [seg]. intros (_ & _ & _ & Hr).
  pose proof (seg_range _ _ _ _ _ _ _ _ Hr) as [Hle _].
  split; [exact Hle|].
  destruct l2 as [|y r]; cbn [seg] in Hr.
  - left. tauto.
  - right. destruct Hr as (Ey & Hy & _ & Hr'). rewrite Ey.
    pose proof (seg_range _ _ _ _ _ _ _ _ Hr') as [Hle' _].
    split; [lia|]. split; [lia|].
    pose proof (get_word_range f_size m y).
    destruct r as [|z r']; cbn [seg] in Hr'.
    + left. tauto.
    + right. destruct Hr' as (Ez & Hz & _). rewrite Ez. lia.
Qed.
(** * Allocate, free, allocate again *)

Lemma retake_ILP32 (base : Z) (c : client) (bs : list Z) (fuel : nat)
      (size p : Z) (st' : allocator) :
  pool_address ILP32 base -> invariant base c bs -> (length bs <= fuel)%nat ->
  my_malloc ILP32 fuel (heap c) size = Some (p, st') -> p <> NULL ->
  exists p' st'',
    my_malloc ILP32 fuel (my_free ILP32 st' p) size = Some (p', st'')
    /\ p' <> NULL /\ p' <= p.
Proof.
  intros Hbase Hinv Hfuel Hm Hp.
  pose proof (invariant_block_list _ _ _ _ Hbase Hinv Hfuel) as Hbl.
  unfold blocks_of in Hbl. unfold my_malloc in Hm |- *.
  destruct (Z.eqb_spec size 0) as [E0|E0];
    [injection Hm as <- _; contradiction|].
  cbv zeta in Hm |- *.
  destruct (first_fit ILP32 fuel (pool (heap c)) (free_list_head (heap c))
                      (align_size ILP32 size)) as [b| | |] eqn:Ef;
    [ | injection Hm as <- _; contradiction
      | injection Hm as <- _; contradiction
      | discriminate ].
  destruct (first_fit_prefix _ _ _ _ _ _ _ Hbl Ef) as (l1 & l2 & -> & Hpass).
  apply first_fit_found in Ef. destruct Ef as [Hv Hfit].
  destruct (align_size_range ILP32 size) as [Hn Hn8].
  set (n := align_size ILP32 size) in *. clearbody n.
  change (size_modulus ILP32) with 4294967296 in Hn.
  destruct Hbase as (H0 & H8 & Hend).
  change (size_modulus ILP32) with 4294967296 in Hend.
  destruct Hinv as [I1 I2 (e & last & Hseg & He) I4 I5 I6 I7].
  set (m := pool (heap c)) in *.
  apply seg_app in Hseg. destruct Hseg as (lo1 & pv1 & p1 & Hs1 & Hs2).
  pose proof (seg_range _ _ _ _ _ _ _ _ Hs1) as [Hlo1 Hr1].
  unfold POOL_SIZE in *.
  destruct (take_window m (heap c) b n lo1 pv1 p1 e last l2
              eq_refl Hs2 ltac:(lia) ltac:(lia) Hfit ltac:(lia) Hn8)
    as (Hptr & tail & last' & Tseg & _).
  pose proof (take_block_header ILP32 (heap c) b n Hn) as Hth.
  cbv zeta in Hth. destruct Hth as [Hf0 Hsz].
  assert (Hlow1 : forall x, x < b ->
            load8 (pool (snd (take_block ILP32 (heap c) b n))) x = load8 m x).
  { intros x Hx.
    apply (take_block_bytes m (heap c) b n lo1 pv1 p1 e last l2);
      try assumption; try reflexivity; try lia.
    intros h Hh. cbn [seg] in Hs2. destruct Hs2 as (_ & _ & _ & Hr2).
    apply seg_range in Hr2. destruct Hr2 as [_ Hr2]. apply Hr2 in Hh.
    pose proof (get_word_range f_size m b). lia. }
  assert (Ehead : free_list_head (snd (take_block ILP32 (heap c) b n))
                  = free_list_head (heap c)) by reflexivity.
  assert (Esealed : exists m1,
             pool (snd (take_block ILP32 (heap c) b n))
             = set ILP32 f_checksum m1 b (calculate_checksum ILP32 m1 b)).
  { unfold take_block. cbv zeta. cbn [snd pool]. eexists. reflexivity. }
  pose proof Hs2 as Hs2'. cbn [seg] in Hs2'.
  destruct Hs2' as (_ & Hlob & _).
  pose proof (seg_range _ _ _ _ _ _ _ _ Hs2) as [_ Hr2].
  pose proof (Hr2 b (or_introl eq_refl)) as Hbr. clear Hr2.
  destruct (take_block ILP32 (heap c) b n) as [ptr st1].
  cbn [fst snd] in *. injection Hm as <- <-. subst ptr.
  set (m' := pool st1) in *.
  (* the block just taken verifies *)
  pose proof Tseg as Tseg'. cbn [seg] in Tseg'.
  destruct Tseg' as (_ & _ & (Hb8 & Hmag & _) & _).
  assert (Hv' : verify_header ILP32 m' b = true).
  { destruct Esealed as [m1 Em1]. rewrite Em1. apply sealed_verifies.
    rewrite Em1, get_set_field in Hmag by discriminate. exact Hmag. }
  (* my_free gets to work on it *)
  unfold my_free. destruct (Z.eqb_spec (b + 24) NULL) as [Ez|_];
    [unfold NULL in Ez; lia|].
  cbv zeta. change (HEADER_SIZE ILP32) with 24.
  replace (b + 24 - 24) with b by lia. rewrite (to_size32 b) by lia.
  fold m'. rewrite Hv', Hf0. cbn [negb Z.eqb]. cbn [pool free_list_head].
  rewrite Ehead.
  (* lines 211-212 *)
  assert (Hv2 : verify_header ILP32
                  (set ILP32 f_checksum (set ILP32 f_free m' b 1) b
                       (calculate_checksum ILP32 (set ILP32 f_free m' b 1) b))
                  b = true).
  { apply sealed_verifies. rewrite get_set_field by discriminate. exact Hmag. }
  assert (Hlow2 : forall x, x < b ->
            load8 (set ILP32 f_checksum (set ILP32 f_free m' b 1) b
                       (calculate_checksum ILP32 (set ILP32 f_free m' b 1) b))
                  x = load8 m x).
  { intros x Hx. rewrite !load8_set_outside by lia. apply Hlow1. exact Hx. }
  destruct (mark_free_window m' b
              (calculate_checksum ILP32 (set ILP32 f_free m' b 1) b)
              lo1 pv1 p1 e last' tail Tseg Hf0)
    as (Mseg & Mfree & Msize & _).
  set (m2 := set ILP32 f_checksum (set ILP32 f_free m' b 1) b
                 (calculate_checksum ILP32 (set ILP32 f_free m' b 1) b)) in *.
  clearbody m2.
  (* lines 221-236 *)
  destruct (coalesce_next_window m2 b lo1 pv1 p1 e last' tail Mseg
              ltac:(lia) ltac:(lia) Mfree)
    as (l2' & last2 & Nseg & Nfree & _).
  destruct (seg_next_bounds m2 b lo1 pv1 p1 e last' tail Mseg)
    as [Hbe Hnx].
  pose proof (get_word_range f_size m2 b) as Hsb2.
  assert (Hseal3 : verify_header ILP32 (coalesce_next ILP32 m2 b) b = true
                   /\ get ILP32 f_size m2 b
                      <= get ILP32 f_size (coalesce_next ILP32 m2 b) b).
  { apply coalesce_next_sealed; [exact Hv2|].
    destruct Hnx as [Hnx|(Hx1 & Hx2 & Hx3)]; [now left|right].
    pose proof (get_word_range f_size m2 (get ILP32 f_next m2 b)).
    split; [lia|]. split; [lia|].
    destruct Hx3 as [Hx3|Hx3]; [now left | right; lia]. }
  destruct Hseal3 as [Hv3 Hsz3].
  assert (Hlow3 : forall x, x < b ->
            load8 (coalesce_next ILP32 m2 b) x = load8 m x).
  { intros x Hx. rewrite <- (Hlow2 x Hx). apply coalesce_next_bytes; [|lia].
    destruct Hnx as [Hnx|(Hx1 & Hx2 & Hx3)]; [now left|right].
    split; [lia|]. destruct Hx3 as [Hx3|Hx3]; [now left | right; lia]. }
  set (m3 := coalesce_next ILP32 m2 b) in *. clearbody m3.
  destruct (seg_next_bounds m3 b lo1 pv1 p1 e last2 l2' Nseg) as [Hbe3 Hnx3].
  pose proof Nseg as Nseg'. cbn [seg] in Nseg'.
  destruct Nseg' as (_ & _ & (_ & _ & Hbp & _) & _).
  assert (Hfit3 : fits ILP32 m3 n b = true).
  { unfold fits. rewrite Nfree. cbn [Z.eqb negb andb]. apply Z.leb_le.
    rewrite Msize, Hsz in Hsz3. exact Hsz3. }
  (* what the second search finds *)
  assert (Hfound : exists t,
             first_fit ILP32 fuel (coalesce_prev ILP32 m3 b)
                       (free_list_head (heap c)) n = Found t
             /\ 0 < t <= b).
  { destruct (seg_last _ _ _ _ _ _ _ _ Hs1) as [[-> ->]|(l1' & pb & -> & ->)].
    - rewrite coalesce_prev_none by exact Hbp. exists b.
      split; [|lia].
      apply (first_fit_replay m m3 n b [] l2); try assumption.
      intros h [].
    - assert (Hpb : In pb (l1' ++ [pb])) by (apply in_or_app; right; now left).
      pose proof (Hr1 pb Hpb) as Hpbr.
      assert (Hsame : forall h, In h (l1' ++ [pb]) -> same_header m m3 h).
      { intros h Hh q Hq. apply Hlow3. apply Hr1 in Hh. lia. }
      assert (Hspb : pb + 24 + get ILP32 f_size m3 pb <= lo1).
      { rewrite (get_same_header m m3 pb) by (apply Hsame; exact Hpb).
        apply seg_app in Hs1. destruct Hs1 as (lo0 & pv0 & p0 & _ & Hs1).
        cbn [seg] in Hs1. tauto. }
      pose proof (get_word_range f_size m3 b) as Hsb3.
      pose proof (get_word_range f_size m3 pb) as Hsp3.
      destruct (coalesce_prev_cases m3 b) as [->|(Hnn & Hv4 & Hf4 & Hs4)].
      + rewrite Hbp. lia.
      + rewrite Hbp. lia.
      + destruct Hnx3 as [Hnx3|(Hy1 & _)]; [now left | right; lia].
      + exists b. split; [|lia].
        apply (first_fit_replay m m3 n b (l1' ++ [pb]) l2); assumption.
      + rewrite Hbp in *. exists pb. split; [|lia].
        rewrite <- app_assoc in Hbl. cbn [app] in Hbl.
        apply Forall_app in Hpass. destruct Hpass as [Hpass _].
        apply (first_fit_replay m (coalesce_prev ILP32 m3 b) n pb l1'
                                (b :: l2)); try assumption.
        * intros h Hh q Hq.
          assert (Hh' : In h (l1' ++ [pb])) by (apply in_or_app; now left).
          rewrite <- (Hsame h Hh' q Hq).
          pose proof (Hr1 h Hh') as Hhr.
          apply coalesce_prev_bytes.
          -- rewrite Hbp. lia.
          -- rewrite Hbp. left.
             apply seg_app in Hs1. destruct Hs1 as (lo0 & pv0 & p0 & Hsa & Hsb).
             apply seg_range in Hsa. destruct Hsa as [_ Hsa].
             apply Hsa in Hh. cbn [seg] in Hsb. lia.
          -- destruct Hnx3 as [Hnx3|(Hy1 & _)]; [now left | right; left; lia].
        * unfold fits. apply andb_true_iff. split.
          -- apply negb_true_iff, Z.eqb_neq. exact Hf4.
          -- apply Z.leb_le. rewrite Msize, Hsz in Hsz3. lia. }
  destruct Hfound as (t & -> & Ht).
  eexists _, _. split; [reflexivity|].
  unfold take_block. cbv zeta. cbn [fst].
  change (HEADER_SIZE ILP32) with 24. rewrite to_size32 by lia.
  unfold NULL. lia.
Qed.
(** * Chains of links *)

Lemma block_list_linked (a : abi) (m : memory) (l : list Z) :
  forall (fuel : nat) (p : Z),
  block_list a fuel m p = Some l -> linked (get a f_next m) p l.
Proof.
  induction l as [|b r IH]; intros fuel p Hl; cbn [linked].
  - apply block_list_nil in Hl. exact Hl.
  - apply block_list_cons in Hl. destruct Hl as (Hn & -> & f & -> & Hr).
    split; [reflexivity|]. split; [exact Hn|]. apply (IH f). exact Hr.
Qed.

Lemma linked_block_list (a : abi) (m : memory) (l : list Z) :
  forall (fuel : nat) (p : Z),
  linked (get a f_next m) p l -> (length l <= fuel)%nat ->
  block_list a fuel m p = Some l.
Proof.
  induction l as [|b r IH]; intros fuel p; cbn [linked length].
  - intros -> _. destruct fuel; reflexivity.
  - intros (-> & Hn & Hr) Hf. destruct fuel as [|f]; [lia|].
    cbn [block_list]. destruct (Z.eqb_spec b NULL); [contradiction|].
    rewrite (IH f) by (assumption || lia). reflexivity.
Qed.

Lemma linked_unique (next : Z -> Z) (l : list Z) :
  forall (p : Z) (l' : list Z),
  linked next p l -> linked next p l' -> l = l'.
Proof.
  induction l as [|b r IH]; intros p l'; destruct l' as [|b' r'];
    cbn [linked].
  - reflexivity.
  - intros -> (<- & Hn & _). contradiction.
  - intros (-> & Hn & _) E. contradiction.
  - intros (-> & _ & Hr) (E & _ & Hr'). subst b'.
    f_equal. apply (IH _ _ Hr Hr').
Qed.

Lemma linked_frame (next next' : Z -> Z) (l : list Z) :
  forall p : Z,
  (forall h, In h l -> next' h = next h) ->
  linked next p l -> linked next' p l.
Proof.
  induction l as [|b r IH]; intros p Hs; cbn [linked]; [tauto|].
  intros (-> & Hn & Hr). split; [reflexivity|]. split; [exact Hn|].
  rewrite Hs by now left. apply IH; [|exact Hr].
  intros h Hh. apply Hs. now right.
Qed.

(** The part of a chain behind a prefix. *)
Lemma linked_suffix (next : Z -> Z) (l1 l2 : list Z) :
  forall p : Z,
  linked next p (l1 ++ l2) ->
  exists q, linked next q l2
            /\ forall (next' : Z -> Z) (l : list Z),
                (forall h, In h l1 -> next' h = next h) ->
                linked next' q l -> linked next' p (l1 ++ l).
Proof.
  induction l1 as [|b r IH]; intros p; cbn [app linked].
  - intros H. exists p. split; [exact H|]. intros next' l _ Hl. exact Hl.
  - intros (-> & Hn & Hr). destruct (IH _ Hr) as (q & Hq & Hsp).
    exists q. split; [exact Hq|]. intros next' l Hs Hl.
    split; [reflexivity|]. split; [exact Hn|].
    rewrite Hs by now left. apply Hsp; [|exact Hl].
    intros h Hh. apply Hs. now right.
Qed.

Lemma seg_linked (m : memory) (l : list Z) :
  forall lo pv p lo' pv',
  0 < lo -> seg m lo pv p l lo' pv' NULL ->
  linked (get ILP32 f_next m) p l.
Proof.
  induction l as [|b r IH]; intros lo pv p lo' pv' H0; cbn [seg linked].
  - tauto.
  - intros (-> & Hlo & _ & Hr). split; [reflexivity|].
    split; [unfold NULL; lia|].
    pose proof (get_word_range f_size m b).
    eapply IH; [|exact Hr]. lia.
Qed.

(** * Counting the blocks in use *)

Lemma blocks_in_use_app (a : abi) (m : memory) (l1 l2 : list Z) :
  blocks_in_use a m (l1 ++ l2) = blocks_in_use a m l1 + blocks_in_use a m l2.
Proof.
  unfold blocks_in_use. rewrite filter_app, length_app. lia.
Qed.

Lemma blocks_in_use_cons (a : abi) (m : memory) (b : Z) (l : list Z) :
  blocks_in_use a m (b :: l)
  = (if get a f_free m b =? 0 then 1 else 0) + blocks_in_use a m l.
Proof.
  unfold blocks_in_use. cbn [filter].
  destruct (get a f_free m b =? 0); cbn [length]; lia.
Qed.

Lemma blocks_in_use_frame (a : abi) (m m' : memory) (l : list Z) :
  (forall h, In h l -> get a f_free m' h = get a f_free m h) ->
  blocks_in_use a m' l = blocks_in_use a m l.
Proof.
  induction l as [|b r IH]; intros Hs; [reflexivity|].
  rewrite !blocks_in_use_cons, Hs by now left.
  rewrite IH; [reflexivity|]. intros h Hh. apply Hs. now right.
Qed.

Lemma blocks_in_use_nonneg (a : abi) (m : memory) (l : list Z) :
  0 <= blocks_in_use a m l <= Z.of_nat (length l).
Proof.
  unfold blocks_in_use.
  pose proof (filter_length_le (fun b => get a f_free m b =? 0) l). lia.
Qed.
(** * What a call does to the rest of the list *)

(** Lines 153-175 leave the blocks behind the one taken as they were,
    their [prev] member aside, and put at most one new block, a free
    one, between it and them. *)
Lemma take_block_rest (m : memory) (st : allocator)
      (b n lo pv p e last : Z) (l2 : list Z) :
  pool st = m ->
  seg m lo pv p (b :: l2) e last NULL ->
  0 < lo -> e < 4294967296 ->
  fits ILP32 m n b = true -> 0 <= n ->
  let m' := pool (snd (take_block ILP32 st b n)) in
  (forall h f, In h l2 -> f <> f_prev ->
               get ILP32 f m' h = get ILP32 f m h)
  /\ (linked (get ILP32 f_next m') (get ILP32 f_next m' b) l2
      \/ exists N, get ILP32 f_free m' N = 1
                   /\ linked (get ILP32 f_next m') (get ILP32 f_next m' b)
                             (N :: l2)).
Proof.
  intros Hm Hseg H0 He Hfit Hn.
  pose proof Hseg as Hseg'. cbn [seg] in Hseg'.
  destruct Hseg' as (_ & Hlo & _ & Hr).
  pose proof (seg_range _ _ _ _ _ _ _ _ Hr) as [Hle Hrr].
  pose proof (get_word_range f_size m b) as Hsr.
  pose proof (get_word_range f_next m b) as Hnr.
  assert (Hlk : linked (get ILP32 f_next m) (get ILP32 f_next m b) l2).
  { eapply seg_linked; [|exact Hr]. lia. }
  assert (Hpos : forall h, In h l2 ->
            h = get ILP32 f_next m b \/ get ILP32 f_next m b + 24 <= h).
  { intros h Hh. destruct l2 as [|y r]; [contradiction|].
    cbn [seg] in Hr. destruct Hr as (Ey & _ & _ & Hr'). rewrite Ey.
    destruct Hh as [->|Hh]; [now left|right].
    apply seg_range in Hr'. destruct Hr' as [_ Hr']. apply Hr' in Hh.
    pose proof (get_word_range f_size m y). lia. }
  unfold fits in Hfit. apply andb_true_iff in Hfit. destruct Hfit as [_ Hf2].
  apply Z.leb_le in Hf2.
  unfold take_block. cbv zeta. cbn [snd pool]. rewrite Hm.
  change (HEADER_SIZE ILP32 + ALIGNMENT) with 32.
  rewrite (to_size32 32) by lia.
  rewrite (to_size32 (get ILP32 f_size m b - n)) by lia.
  destruct (Z.leb_spec 32 (get ILP32 f_size m b - n)) as [Hsplit|_].
  - (* the block is split *)
    destruct (split_block_eq m b n (get ILP32 f_size m b - n)
                ltac:(lia) Hn ltac:(lia) ltac:(lia)) as [c ->].
    cbv zeta.
    set (N := b + 24 + n) in *.
    set (nb := get ILP32 f_next m b) in *.
    set (W := write_header m N (get ILP32 f_size m b - n - 24) nb b c).
    destruct (write_header_fields m N (get ILP32 f_size m b - n - 24) nb b c)
      as (_ & _ & W3 & W4 & _); try lia.
    fold W in W3, W4.
    assert (Hrest : forall h f, In h l2 -> f <> f_prev ->
              get ILP32 f
                (set ILP32 f_next
                   (if negb (nb =? NULL) then set ILP32 f_prev W nb N else W)
                   b N) h = get ILP32 f m h).
    { intros h f Hh Hf. pose proof (Hrr h Hh) as Hhr.
      rewrite get_set_apart by lia.
      destruct (Z.eqb_spec nb NULL) as [E|E]; cbn [negb].
      - apply write_header_apart. unfold N. lia.
      - destruct (Hpos h Hh) as [->|Hx].
        + rewrite get_set_field by congruence.
          apply write_header_apart. unfold N. lia.
        + rewrite get_set_apart by lia.
          apply write_header_apart. unfold N. lia. }
    split.
    + intros h f Hh Hf. pose proof (Hrr h Hh) as Hhr.
      do 3 rewrite get_set_apart by lia. apply Hrest; assumption.
    + right. exists N.
      assert (HN : get ILP32 f_free
                     (if negb (nb =? NULL) then set ILP32 f_prev W nb N else W)
                     N = 1
                   /\ get ILP32 f_next
                        (if negb (nb =? NULL) then set ILP32 f_prev W nb N
                         else W) N = nb).
      { destruct (Z.eqb_spec nb NULL) as [E|E]; cbn [negb]; [auto|].
        assert (Hnb : N + 24 <= nb).
        { destruct l2 as [|y r]; cbn [seg] in Hr.
          - destruct Hr as (_ & _ & Hq). contradiction.
          - destruct Hr as (Ey & Hy & _). unfold N. lia. }
        rewrite !get_set_apart by lia. auto. }
      destruct HN as [HN1 HN2].
      split.
      * rewrite !get_set_apart by (unfold N; lia). exact HN1.
      * rewrite !(get_set_field _ _ f_next) by discriminate.
        rewrite get_set_word by (discriminate || (unfold N; lia)).
        cbn [linked]. split; [reflexivity|].
        split; [unfold NULL, N; lia|].
        rewrite !get_set_apart by (unfold N; lia). rewrite HN2.
        apply (linked_frame (get ILP32 f_next m)); [|exact Hlk].
        intros h Hh. pose proof (Hrr h Hh) as Hhr.
        do 3 rewrite get_set_apart by lia.
        apply Hrest; [exact Hh | discriminate].
  - (* it is taken whole *)
    split.
    + intros h f Hh Hf. pose proof (Hrr h Hh) as Hhr.
      rewrite !get_set_apart by lia. reflexivity.
    + left. rewrite !get_set_field by discriminate.
      apply (linked_frame (get ILP32 f_next m)); [|exact Hlk].
      intros h Hh. pose proof (Hrr h Hh) as Hhr.
      rewrite !get_set_apart by lia. reflexivity.
Qed.

(** Lines 221-236 either change nothing or drop the block behind, a free
    one, from the list, and leave the blocks behind that one as they
    were, their [prev] member aside. *)
Lemma coalesce_next_rest (m : memory) (b lo pv p e last : Z) (l2 : list Z) :
  seg m lo pv p (b :: l2) e last NULL ->
  0 < lo -> e < 4294967296 ->
  let m' := coalesce_next ILP32 m b in
  m' = m
  \/ exists nx r,
      l2 = nx :: r
      /\ get ILP32 f_free m nx <> 0
      /\ linked (get ILP32 f_next m') (get ILP32 f_next m' b) r
      /\ forall h f, In h r -> f <> f_prev ->
                     get ILP32 f m' h = get ILP32 f m h.
Proof.
  intros Hseg H0 He. cbv zeta.
  pose proof Hseg as Hseg'. cbn [seg] in Hseg'.
  destruct Hseg' as (_ & Hlo & _ & Hr).
  pose proof (get_word_range f_size m b) as Hsr.
  unfold coalesce_next.
  destruct l2 as [|nx r]; cbn [seg] in Hr.
  { destruct Hr as (_ & _ & ->). cbn [Z.eqb NULL negb andb]. now left. }
  destruct Hr as (Ex & Hx & _ & Hr').
  rewrite Ex. clear Ex.
  pose proof (seg_range _ _ _ _ _ _ _ _ Hr') as [Hle Hrr].
  pose proof (get_word_range f_size m nx) as Hsn.
  destruct (negb (nx =? NULL)); cbn [andb]; [|now left].
  destruct (Z.eqb_spec (get ILP32 f_free m nx) 0) as [Hf|Hf]; cbn [negb];
    [now left|].
  destruct (verify_header ILP32 m nx); [|now left].
  right. exists nx, r. split; [reflexivity|]. split; [exact Hf|].
  cbv zeta. rewrite !(get_set_apart _ f_next _ b nx) by lia.
  set (nn := get ILP32 f_next m nx) in *.
  pose proof (get_word_range f_next m nx) as Hnr. fold nn in Hnr.
  assert (Hlk : linked (get ILP32 f_next m) nn r).
  { eapply seg_linked; [|exact Hr']. lia. }
  assert (Hpos : forall h, In h r -> h = nn \/ nn + 24 <= h).
  { intros h Hh. destruct r as [|y r']; [contradiction|].
    cbn [seg] in Hr'. destruct Hr' as (Ey & _ & _ & Hr'').
    fold nn in Ey. rewrite Ey.
    destruct Hh as [->|Hh]; [now left|right].
    apply seg_range in Hr''. destruct Hr'' as [_ Hr'']. apply Hr'' in Hh.
    pose proof (get_word_range f_size m y). lia. }
  assert (Hrest : forall h f, In h r -> f <> f_prev ->
            get ILP32 f
              (set ILP32 f_checksum
                 (if negb (nn =? NULL)
                  then set ILP32 f_prev
                         (set ILP32 f_next
                            (set ILP32 f_size m b
                               (to_size ILP32
                                  (get ILP32 f_size m b
                                   + to_size ILP32
                                       (HEADER_SIZE ILP32
                                        + get ILP32 f_size m nx)))) b nn)
                         nn b
                  else set ILP32 f_next
                         (set ILP32 f_size m b
                            (to_size ILP32
                               (get ILP32 f_size m b
                                + to_size ILP32
                                    (HEADER_SIZE ILP32
                                     + get ILP32 f_size m nx)))) b nn)
                 b
                 (calculate_checksum ILP32
                    (if negb (nn =? NULL)
                     then set ILP32 f_prev
                            (set ILP32 f_next
                               (set ILP32 f_size m b
                                  (to_size ILP32
                                     (get ILP32 f_size m b
                                      + to_size ILP32
                                          (HEADER_SIZE ILP32
                                           + get ILP32 f_size m nx)))) b nn)
                            nn b
                     else set ILP32 f_next
                            (set ILP32 f_size m b
                               (to_size ILP32
                                  (get ILP32 f_size m b
                                   + to_size ILP32
                                       (HEADER_SIZE ILP32
                                        + get ILP32 f_size m nx)))) b nn)
                    b)) h
            = get ILP32 f m h).
  { intros h f Hh Hf'. pose proof (Hrr h Hh) as Hhr.
    rewrite get_set_apart by lia.
    destruct (Z.eqb_spec nn NULL) as [E|E]; cbn [negb].
    - rewrite !get_set_apart by lia. reflexivity.
    - destruct (Hpos h Hh) as [->|Hp].
      + rewrite get_set_field by congruence.
        rewrite !get_set_apart by lia. reflexivity.
      + rewrite !get_set_apart by lia. reflexivity. }
  split; [|exact Hrest].
  assert (Enext : forall M c,
            get ILP32 f_next
              (set ILP32 f_checksum
                 (if negb (nn =? NULL)
                  then set ILP32 f_prev (set ILP32 f_next M b nn) nn b
                  else set ILP32 f_next M b nn) b c) b = nn).
  { intros M c. rewrite get_set_field by discriminate.
    destruct (Z.eqb_spec nn NULL) as [E|E]; cbn [negb].
    - apply get_set_word; [discriminate | exact Hnr].
    - assert (b + 24 <= nn).
      { destruct r as [|y r']; cbn [seg] in Hr'.
        - destruct Hr' as (_ & _ & Hq). contradiction.
        - destruct Hr' as (Ey & Hy & _). lia. }
      rewrite get_set_apart by lia.
      apply get_set_word; [discriminate | exact Hnr]. }
  rewrite Enext.
  apply (linked_frame (get ILP32 f_next m)); [|exact Hlk].
  intros h Hh. apply Hrest; [exact Hh | discriminate].
Qed.

(** Lines 239-255 either change nothing or drop the block itself from
    the list, leaving the free block before it linked to what came
    behind, and the blocks behind as they were, their [prev] member
    aside. *)
Lemma coalesce_prev_rest (m : memory) (pb b lo pv p e last : Z)
      (l2 : list Z) :
  seg m lo pv p (pb :: b :: l2) e last NULL ->
  0 < lo -> e < 4294967296 ->
  let m' := coalesce_prev ILP32 m b in
  m' = m
  \/ (get ILP32 f_free m pb <> 0
      /\ get ILP32 f_free m' pb = get ILP32 f_free m pb
      /\ linked (get ILP32 f_next m') (get ILP32 f_next m' pb) l2
      /\ forall h f, In h l2 -> f <> f_prev ->
                     get ILP32 f m' h = get ILP32 f m h).
Proof.
  intros Hseg H0 He. cbv zeta.
  pose proof Hseg as Hseg'. cbn [seg] in Hseg'.
  destruct Hseg' as (_ & Hlo & _ & Eb & Hb & (_ & _ & Hbp & _) & Hr).
  pose proof (get_word_range f_size m pb) as Hsp.
  pose proof (get_word_range f_size m b) as Hsb.
  pose proof (seg_range _ _ _ _ _ _ _ _ Hr) as [Hle Hrr].
  unfold coalesce_prev. rewrite Hbp.
  destruct (negb (pb =? NULL)); cbn [andb]; [|now left].
  destruct (Z.eqb_spec (get ILP32 f_free m pb) 0) as [Hf|Hf]; cbn [negb];
    [now left|].
  destruct (verify_header ILP32 m pb); [|now left].
  right. split; [exact Hf|]. cbv zeta.
  rewrite !(get_set_apart _ f_next _ pb b) by lia.
  set (nx := get ILP32 f_next m b) in *.
  pose proof (get_word_range f_next m b) as Hnr. fold nx in Hnr.
  assert (Hlk : linked (get ILP32 f_next m) nx l2).
  { eapply seg_linked; [|exact Hr]. lia. }
  assert (Hpos : forall h, In h l2 -> h = nx \/ nx + 24 <= h).
  { intros h Hh. destruct l2 as [|y r']; [contradiction|].
    cbn [seg] in Hr. destruct Hr as (Ey & _ & _ & Hr'').
    fold nx in Ey. rewrite Ey.
    destruct Hh as [->|Hh]; [now left|right].
    apply seg_range in Hr''. destruct Hr'' as [_ Hr'']. apply Hr'' in Hh.
    pose proof (get_word_range f_size m y). lia. }
  assert (Hnx : nx = NULL \/ b + 24 <= nx).
  { destruct l2 as [|y r']; cbn [seg] in Hr.
    - left. tauto.
    - right. destruct Hr as (Ey & Hy & _). fold nx in Ey. lia. }
  set (M2 := set ILP32 f_next
               (set ILP32 f_size m pb
                  (to_size ILP32
                     (get ILP32 f_size m pb
                      + to_size ILP32 (HEADER_SIZE ILP32
                                       + get ILP32 f_size m b)))) pb nx).
  assert (Hrest : forall h f c, In h l2 -> f <> f_prev ->
            get ILP32 f
              (set ILP32 f_checksum
                 (if negb (nx =? NULL) then set ILP32 f_prev M2 nx pb else M2)
                 pb c) h
            = get ILP32 f m h).
  { intros h f c Hh Hf'. pose proof (Hrr h Hh) as Hhr.
    rewrite get_set_apart by lia.
    destruct (Z.eqb_spec nx NULL) as [E|E]; cbn [negb].
    - unfold M2. rewrite !get_set_apart by lia. reflexivity.
    - destruct (Hpos h Hh) as [->|Hp].
      + rewrite get_set_field by congruence.
        unfold M2. rewrite !get_set_apart by lia. reflexivity.
      + unfold M2. rewrite !get_set_apart by lia. reflexivity. }
  split; [|split].
  - rewrite get_set_field by discriminate.
    destruct (Z.eqb_spec nx NULL) as [E|E]; cbn [negb].
    + unfold M2. rewrite !get_set_field by discriminate. reflexivity.
    + destruct Hnx as [Hnx|Hnx]; [contradiction|].
      rewrite get_set_apart by lia.
      unfold M2. rewrite !get_set_field by discriminate. reflexivity.
  - assert (Enext : forall c,
              get ILP32 f_next
                (set ILP32 f_checksum
                   (if negb (nx =? NULL) then set ILP32 f_prev M2 nx pb
                    else M2) pb c) pb = nx).
    { intros c. rewrite get_set_field by discriminate.
      destruct (Z.eqb_spec nx NULL) as [E|E]; cbn [negb].
      - unfold M2. apply get_set_word; [discriminate | exact Hnr].
      - destruct Hnx as [Hnx|Hnx]; [contradiction|].
        rewrite get_set_apart by lia.
        unfold M2. apply get_set_word; [discriminate | exact Hnr]. }
    rewrite Enext.
    apply (linked_frame (get ILP32 f_next m)); [|exact Hlk].
    intros h Hh. apply Hrest; [exact Hh | discriminate].
  - intros h f Hh Hf'. apply Hrest; assumption.
Qed.
(** * allocation_count counts the blocks in use *)

Lemma invariant_linked (base : Z) (c : client) (bs : list Z) :
  pool_address ILP32 base -> invariant base c bs ->
  linked (get ILP32 f_next (pool (heap c))) (free_list_head (heap c)) bs.
Proof.
  intros Hbase Hinv.
  apply (block_list_linked ILP32 _ _ (length bs)).
  apply (invariant_block_list base c bs (length bs) Hbase Hinv). lia.
Qed.

Lemma invariant_unique (base : Z) (c c' : client) (bs bs' : list Z) :
  pool_address ILP32 base ->
  invariant base c bs -> invariant base c' bs' -> heap c' = heap c ->
  bs' = bs.
Proof.
  intros Hbase Hinv Hinv' E.
  pose proof (invariant_linked base c bs Hbase Hinv) as H1.
  pose proof (invariant_linked base c' bs' Hbase Hinv') as H2.
  rewrite E in H2. eapply linked_unique; eassumption.
Qed.

Lemma malloc_exact (base : Z) (c c' : client) (bs bs' : list Z) (fuel : nat)
      (size : Z) :
  pool_address ILP32 base -> invariant base c bs -> (length bs <= fuel)%nat ->
  step ILP32 fuel c (Malloc size) = Some c' -> invariant base c' bs' ->
  (allocation_count (heap c) = blocks_in_use ILP32 (pool (heap c)) bs ->
   allocation_count (heap c') = blocks_in_use ILP32 (pool (heap c')) bs')
  /\ forall h, In h bs -> get ILP32 f_free (pool (heap c)) h = 0 ->
               In h bs'
               /\ get ILP32 f_free (pool (heap c')) h = 0
               /\ get ILP32 f_size (pool (heap c')) h
                  = get ILP32 f_size (pool (heap c)) h.
Proof.
  intros Hbase Hinv Hfuel Hstep Hinv'.
  pose proof (invariant_linked base c bs Hbase Hinv) as Hlk.
  pose proof (invariant_linked base c' bs' Hbase Hinv') as Hlk'.
  assert (Hsame : heap c' = heap c ->
            (allocation_count (heap c)
             = blocks_in_use ILP32 (pool (heap c)) bs ->
             allocation_count (heap c')
             = blocks_in_use ILP32 (pool (heap c')) bs')
            /\ forall h, In h bs -> get ILP32 f_free (pool (heap c)) h = 0 ->
                         In h bs'
                         /\ get ILP32 f_free (pool (heap c')) h = 0
                         /\ get ILP32 f_size (pool (heap c')) h
                            = get ILP32 f_size (pool (heap c)) h).
  { intros E. rewrite (invariant_unique base c c' bs bs' Hbase Hinv Hinv' E).
    rewrite E. auto. }
  pose proof (invariant_block_list _ _ _ _ Hbase Hinv Hfuel) as Hbl.
  unfold blocks_of in Hbl. cbn [step] in Hstep. unfold my_malloc in Hstep.
  destruct (size =? 0);
    [injection Hstep as <-; apply Hsame; reflexivity|].
  cbv zeta in Hstep.
  pose proof (first_fit_outcome ILP32 (pool (heap c)) (align_size ILP32 size)
                bs fuel _ Hbl) as Hout.
  destruct (first_fit ILP32 fuel (pool (heap c)) (free_list_head (heap c))
                      (align_size ILP32 size)) as [b| | |];
    [ | injection Hstep as <-; apply Hsame; reflexivity
      | injection Hstep as <-; apply Hsame; reflexivity
      | contradiction ].
  clear Hsame. destruct Hout as [Hin Hfit].
  destruct (align_size_range ILP32 size) as [Hn Hn8].
  set (n := align_size ILP32 size) in *. clearbody n.
  change (size_modulus ILP32) with 4294967296 in Hn.
  destruct Hbase as (H0 & H8 & Hend).
  change (size_modulus ILP32) with 4294967296 in Hend.
  destruct Hinv as [I1 I2 (e & last & Hseg & He) I4 I5 I6 I7].
  set (m := pool (heap c)) in *.
  apply in_split in Hin. destruct Hin as (l1 & l2 & ->).
  apply seg_app in Hseg. destruct Hseg as (lo1 & pv1 & p1 & Hs1 & Hs2).
  pose proof (seg_range _ _ _ _ _ _ _ _ Hs1) as [Hlo1 Hr1].
  unfold POOL_SIZE in *.
  destruct (take_window m (heap c) b n lo1 pv1 p1 e last l2
              eq_refl Hs2 ltac:(lia) ltac:(lia) Hfit ltac:(lia) Hn8)
    as (_ & tail & last' & _ & _ & Tfr & _).
  destruct (take_block_rest m (heap c) b n lo1 pv1 p1 e last l2
              eq_refl Hs2 ltac:(lia) ltac:(lia) Hfit ltac:(lia))
    as (Hrest & Hnew).
  pose proof (take_block_header ILP32 (heap c) b n Hn) as Hth.
  cbv zeta in Hth, Tfr, Hrest, Hnew. destruct Hth as [Hf0 _].
  assert (Ec : allocation_count (snd (take_block ILP32 (heap c) b n))
               = allocation_count (heap c) + 1
               /\ free_list_head (snd (take_block ILP32 (heap c) b n))
                  = free_list_head (heap c)) by (split; reflexivity).
  destruct Ec as [Ec Eh].
  pose proof Hs2 as Hs2'. cbn [seg] in Hs2'.
  destruct Hs2' as (_ & Hlob & (_ & _ & _ & Hbf & _) & _).
  unfold fits in Hfit. apply andb_true_iff in Hfit. destruct Hfit as [Hf1 _].
  apply negb_true_iff, Z.eqb_neq in Hf1.
  destruct (take_block ILP32 (heap c) b n) as [ptr st1].
  cbn [fst snd] in *. injection Hstep as <-. cbn [heap] in *.
  set (m' := pool st1) in *.
  (* the list after the call *)
  destruct (linked_suffix _ l1 (b :: l2) _ Hlk) as (q & Hq & Hsplice).
  cbn [linked] in Hq. destruct Hq as (-> & Hbn & _).
  assert (Hl1 : forall h, In h l1 ->
            get ILP32 f_next m' h = get ILP32 f_next m h).
  { intros h Hh. apply Tfr. apply Hr1 in Hh. lia. }
  assert (Hlist : exists T,
             bs' = l1 ++ b :: T
             /\ blocks_in_use ILP32 m' T = blocks_in_use ILP32 m l2
             /\ forall h, In h l2 -> In h T).
  { destruct Hnew as [Hl2|(N & HN & Hl2)].
    - exists l2. split; [|split].
      + apply (linked_unique (get ILP32 f_next m') _ (free_list_head st1));
          [exact Hlk'|].
        rewrite Eh. apply Hsplice; [exact Hl1|].
        cbn [linked]. auto.
      + apply blocks_in_use_frame. intros h Hh.
        apply Hrest; [exact Hh | discriminate].
      + auto.
    - exists (N :: l2). split; [|split].
      + apply (linked_unique (get ILP32 f_next m') _ (free_list_head st1));
          [exact Hlk'|].
        rewrite Eh. apply Hsplice; [exact Hl1|].
        cbn [linked]. cbn [linked] in Hl2. auto.
      + rewrite blocks_in_use_cons, HN. cbn [Z.eqb].
        rewrite Z.add_0_l. apply blocks_in_use_frame. intros h Hh.
        apply Hrest; [exact Hh | discriminate].
      + intros h Hh. now right. }
  destruct Hlist as (T & -> & HT & HlT).
  split.
  - intros Hcount. rewrite Ec, Hcount.
    rewrite !blocks_in_use_app, !blocks_in_use_cons, HT, Hf0.
    destruct (Z.eqb_spec (get ILP32 f_free m b) 0) as [Hz|_]; [contradiction|].
    cbn [Z.eqb].
    rewrite (blocks_in_use_frame ILP32 m m' l1); [lia|].
    intros h Hh. apply Tfr. apply Hr1 in Hh. lia.
  - intros h Hh Hused. apply in_app_or in Hh. destruct Hh as [Hh|[<-|Hh]].
    + split; [apply in_or_app; now left|].
      pose proof (Hr1 h Hh). rewrite !Tfr by lia. auto.
    + contradiction.
    + split; [apply in_or_app; right; right; apply HlT; exact Hh|].
      rewrite !Hrest by (assumption || discriminate). auto.
Qed.

Lemma malloc_count (base : Z) (c c' : client) (bs bs' : list Z) (fuel : nat)
      (size : Z) :
  pool_address ILP32 base -> invariant base c bs -> (length bs <= fuel)%nat ->
  step ILP32 fuel c (Malloc size) = Some c' -> invariant base c' bs' ->
  allocation_count (heap c) = blocks_in_use ILP32 (pool (heap c)) bs ->
  allocation_count (heap c') = blocks_in_use ILP32 (pool (heap c')) bs'.
Proof.
  intros Hbase Hinv Hfuel Hstep Hinv'.
  apply (malloc_exact base c c' bs bs' fuel size); assumption.
Qed.

Lemma free_list_exact (base : Z) (c : client) (bs : list Z) (p : Z) :
  pool_address ILP32 base -> invariant base c bs -> payload_pointer p ->
  my_free ILP32 (heap c) p = heap c
  \/ (allocation_count (my_free ILP32 (heap c) p)
      = allocation_count (heap c) - 1
      /\ free_list_head (my_free ILP32 (heap c) p) = free_list_head (heap c)
      /\ exists L,
          linked (get ILP32 f_next (pool (my_free ILP32 (heap c) p)))
                 (free_list_head (heap c)) L
          /\ blocks_in_use ILP32 (pool (my_free ILP32 (heap c) p)) L
             = blocks_in_use ILP32 (pool (heap c)) bs - 1
          /\ forall h,
              In h bs -> h <> to_size ILP32 (p - 24) ->
              get ILP32 f_free (pool (heap c)) h = 0 ->
              In h L
              /\ get ILP32 f_free (pool (my_free ILP32 (heap c) p)) h = 0
              /\ get ILP32 f_size (pool (my_free ILP32 (heap c) p)) h
                 = get ILP32 f_size (pool (heap c)) h).
Proof.
  intros Hbase Hinv Hptr.
  pose proof (invariant_linked base c bs Hbase Hinv) as Hlk.
  unfold my_free. destruct (Z.eqb_spec p NULL) as [E|Hpn]; [now left|].
  destruct Hptr as [E|(Hp8 & Hpr)]; [contradiction|].
  cbv zeta. change (HEADER_SIZE ILP32) with 24.
  rewrite (to_size32 (p - 24)) by lia.
  assert (Hb8 : (p - 24) mod 8 = 0)
    by (rewrite Zminus_mod, Hp8; reflexivity).
  set (b := p - 24) in *. assert (Hb0 : 0 <= b) by (unfold b; lia).
  clearbody b.
  destruct (verify_header ILP32 (pool (heap c)) b) eqn:Hv; cbn [negb];
    [|now left].
  destruct (Z.eqb_spec (get ILP32 f_free (pool (heap c)) b) 0) as [Hfree|_];
    cbn [negb]; [|now left].
  right. cbn [allocation_count free_list_head pool].
  split; [reflexivity|]. split; [reflexivity|].
  apply verify_magic in Hv.
  destruct Hbase as (H0 & H8 & Hend).
  change (size_modulus ILP32) with 4294967296 in Hend.
  destruct Hinv as [I1 I2 (e & last & Hseg & He) I4 I5 I6 I7].
  set (m := pool (heap c)) in *.
  assert (Hin : In b bs).
  { destruct (in_dec Z.eq_dec b bs) as [Hin|Hout]; [assumption|exfalso].
    destruct (I6 b Hb8 Hout) as [Hc|Hc]; apply Hc.
    - now apply magic_first_byte.
    - rewrite <- get_free_byte. exact Hfree. }
  apply in_split in Hin. destruct Hin as (l1 & l2 & ->).
  apply seg_app in Hseg. destruct Hseg as (lo1 & pv1 & p1 & Hs1 & Hs2).
  pose proof (seg_range _ _ _ _ _ _ _ _ Hs1) as [Hlo1 Hr1].
  unfold POOL_SIZE in *.
  pose proof Hs2 as Hs2'. cbn [seg] in Hs2'.
  destruct Hs2' as (Ep1 & Hlob & _ & Htail). subst p1.
  pose proof (seg_range _ _ _ _ _ _ _ _ Htail) as [_ Hr2].
  pose proof (get_word_range f_size m b) as Hsb.
  (* lines 211-212 *)
  set (c1 := calculate_checksum ILP32 _ b). clearbody c1.
  destruct (mark_free_window m b c1 lo1 pv1 b e last l2 Hs2 Hfree)
    as (Mseg & Mfree & _ & _ & Mfr & _).
  assert (Mrest : forall h f, In h l2 ->
            get ILP32 f (set ILP32 f_checksum (set ILP32 f_free m b 1) b c1) h
            = get ILP32 f m h).
  { intros h f Hh. apply Hr2 in Hh. rewrite !get_set_apart by lia.
    reflexivity. }
  set (m2 := set ILP32 f_checksum (set ILP32 f_free m b 1) b c1) in *.
  clearbody m2.
  (* lines 221-236 *)
  destruct (coalesce_next_window m2 b lo1 pv1 b e last l2 Mseg
              ltac:(lia) ltac:(lia) Mfree)
    as (l2' & last2 & Nseg & Nfree & _ & Nfr & _).
  pose proof (coalesce_next_rest m2 b lo1 pv1 b e last l2 Mseg
                ltac:(lia) ltac:(lia)) as Nrest.
  cbv zeta in Nrest.
  assert (Hl2' : blocks_in_use ILP32 (coalesce_next ILP32 m2 b) l2'
                 = blocks_in_use ILP32 m l2
                 /\ forall h, In h l2 -> get ILP32 f_free m h = 0 ->
                      In h l2'
                      /\ get ILP32 f_free (coalesce_next ILP32 m2 b) h = 0
                      /\ get ILP32 f_size (coalesce_next ILP32 m2 b) h
                         = get ILP32 f_size m h).
  { pose proof Nseg as Nseg'. cbn [seg] in Nseg'.
    destruct Nseg' as (_ & _ & _ & Ntail).
    assert (Nlk : linked (get ILP32 f_next (coalesce_next ILP32 m2 b))
                         (get ILP32 f_next (coalesce_next ILP32 m2 b) b) l2').
    { eapply seg_linked; [|exact Ntail].
      pose proof (get_word_range f_size (coalesce_next ILP32 m2 b) b). lia. }
    destruct Nrest as [E|(nx & r & -> & Hnf & Hlr & Hfr)].
    - rewrite E in *.
      assert (El : l2' = l2).
      { eapply linked_unique; [exact Nlk|].
        pose proof Mseg as Mseg'. cbn [seg] in Mseg'.
        destruct Mseg' as (_ & _ & _ & Mtail).
        eapply seg_linked; [|exact Mtail].
        pose proof (get_word_range f_size m2 b). lia. }
      rewrite El. split.
      + apply blocks_in_use_frame. intros h Hh. apply Mrest. exact Hh.
      + intros h Hh Hused. rewrite !Mrest by exact Hh. auto.
    - assert (El : l2' = r) by (eapply linked_unique; eassumption).
      rewrite El. split.
      + rewrite blocks_in_use_cons.
        rewrite <- (Mrest nx f_free) by now left.
        destruct (Z.eqb_spec (get ILP32 f_free m2 nx) 0) as [Hz|_];
          [contradiction|].
        rewrite Z.add_0_l.
        rewrite (blocks_in_use_frame ILP32 m2 _ r)
          by (intros h Hh; apply Hfr; [exact Hh | discriminate]).
        apply blocks_in_use_frame. intros h Hh. apply Mrest. now right.
      + intros h [<-|Hh] Hused.
        * rewrite <- (Mrest nx f_free) in Hused by now left. contradiction.
        * split; [exact Hh|].
          rewrite !Hfr by (assumption || discriminate).
          rewrite !Mrest by now right. auto. }
  clear Nrest. destruct Hl2' as [Hl2' Hkeep].
  set (m3 := coalesce_next ILP32 m2 b) in *. clearbody m3.
  assert (Hlow : forall x f, x + 24 <= b -> get ILP32 f m3 x = get ILP32 f m x).
  { intros x f Hx. rewrite Nfr, Mfr by lia. reflexivity. }
  assert (Nlk : linked (get ILP32 f_next m3) b (b :: l2')).
  { eapply seg_linked; [|exact Nseg]. lia. }
  pose proof Nseg as Nseg'. cbn [seg] in Nseg'.
  destruct Nseg' as (_ & _ & (_ & _ & Hbp & _) & _).
  rewrite !blocks_in_use_app, !blocks_in_use_cons, Hfree. cbn [Z.eqb].
  (* lines 239-255 *)
  destruct (seg_last _ _ _ _ _ _ _ _ Hs1) as [[-> ->]|(l1' & pb & -> & ->)].
  - rewrite coalesce_prev_none by exact Hbp.
    exists (b :: l2'). cbn [app linked] in Hlk. destruct Hlk as (-> & _).
    split; [exact Nlk|]. split.
    + rewrite blocks_in_use_cons, Nfree, Hl2'. cbn [Z.eqb].
      change (blocks_in_use ILP32 m []) with 0. lia.
    + intros h [Hh|Hh] Hne Hused; [congruence|].
      destruct (Hkeep h Hh Hused) as (Hi & Hk). split; [now right | exact Hk].
  - pose proof Hs1 as Hs1'.
    apply seg_app in Hs1'. destruct Hs1' as (lo0 & pv0 & p0 & Hs0 & Hspb).
    pose proof (seg_range _ _ _ _ _ _ _ _ Hs0) as [Hlo0 Hr0].
    pose proof (seg_range _ _ _ _ _ _ _ _ Hspb) as [_ Hrpb].
    assert (Hpb : lo0 <= pb /\ pb + 24 <= lo1) by (apply Hrpb; now left).
    assert (W : seg m3 lo0 pv0 p0 (pb :: b :: l2') e last2 NULL).
    { change (pb :: b :: l2') with ([pb] ++ b :: l2'). apply seg_app.
      exists lo1, pb, b. split; [|exact Nseg].
      apply (seg_frame m); [|exact Hspb].
      intros x f [<-|[]] _. apply Hlow. lia. }
    destruct (coalesce_prev_window m3 pb b lo0 pv0 p0 e last2 l2' W
                ltac:(lia) ltac:(lia) Nfree)
      as (w' & last3 & _ & _ & Pfr & _).
    pose proof (coalesce_prev_rest m3 pb b lo0 pv0 p0 e last2 l2' W
                  ltac:(lia) ltac:(lia)) as Prest.
    cbv zeta in Prest, Pfr.
    destruct Prest as [->|(Hpf & Epf & Plk & Pfl)].
    + (* nothing is merged *)
      exists ((l1' ++ [pb]) ++ b :: l2'). split.
      * destruct (linked_suffix _ (l1' ++ [pb]) (b :: l2) _ Hlk)
          as (q & Hq & Hsplice).
        cbn [linked] in Hq. destruct Hq as (-> & _).
        apply Hsplice; [|exact Nlk].
        intros h Hh. apply Hlow. apply Hr1 in Hh. lia.
      * split.
        -- rewrite (blocks_in_use_app ILP32 m3 (l1' ++ [pb]) (b :: l2')).
           rewrite blocks_in_use_cons, Nfree, Hl2'. cbn [Z.eqb].
           rewrite (blocks_in_use_frame ILP32 m m3 (l1' ++ [pb])); [lia|].
           intros h Hh. apply Hlow. apply Hr1 in Hh. lia.
        -- intros h Hh Hne Hused. apply in_app_or in Hh.
           destruct Hh as [Hh|[Hh|Hh]].
           ++ split; [apply in_or_app; now left|].
              pose proof (Hr1 h Hh). rewrite !Hlow by lia. auto.
           ++ congruence.
           ++ destruct (Hkeep h Hh Hused) as (Hi & Hk).
              split; [apply in_or_app; right; now right | exact Hk].
    + (* the block is merged into the one before *)
      exists (l1' ++ pb :: l2'). split.
      * rewrite <- app_assoc in Hlk. cbn [app] in Hlk.
        destruct (linked_suffix _ l1' (pb :: b :: l2) _ Hlk)
          as (q & Hq & Hsplice).
        cbn [linked] in Hq. destruct Hq as (-> & Hpn' & _).
        apply Hsplice.
        -- intros h Hh. apply Hr0 in Hh.
           rewrite Pfr by lia. apply Hlow. lia.
        -- cbn [linked]. auto.
      * split.
        -- rewrite !blocks_in_use_app, !blocks_in_use_cons.
           change (blocks_in_use ILP32 m []) with 0.
           rewrite Epf.
           rewrite <- (Hlow pb f_free) by lia.
           destruct (Z.eqb_spec (get ILP32 f_free m3 pb) 0) as [Hz|_];
             [contradiction|].
           rewrite (blocks_in_use_frame ILP32 m3 _ l2')
             by (intros h Hh; apply Pfl; [exact Hh | discriminate]).
           rewrite Hl2'.
           rewrite (blocks_in_use_frame ILP32 m _ l1'); [lia|].
           intros h Hh. apply Hr0 in Hh. rewrite Pfr by lia. apply Hlow. lia.
        -- intros h Hh Hne Hused. apply in_app_or in Hh.
           destruct Hh as [Hh|[Hh|Hh]].
           ++ apply in_app_or in Hh. destruct Hh as [Hh|[<-|[]]].
              ** split; [apply in_or_app; now left|].
                 pose proof (Hr0 h Hh). rewrite !Pfr by lia.
                 rewrite !Hlow by lia. auto.
              ** rewrite <- (Hlow pb f_free) in Hused by lia. contradiction.
           ++ congruence.
           ++ destruct (Hkeep h Hh Hused) as (Hi & Hk1 & Hk2).
              split; [apply in_or_app; right; now right|].
              rewrite !Pfl by (assumption || discriminate). auto.
Qed.
Lemma free_count (base : Z) (c : client) (bs bs' : list Z) (k : nat) :
  pool_address ILP32 base -> invariant base c bs ->
  invariant base
            {| heap := my_free ILP32 (heap c) (nth k (returned c) NULL);
               returned := returned c |} bs' ->
  allocation_count (heap c) = blocks_in_use ILP32 (pool (heap c)) bs ->
  allocation_count (my_free ILP32 (heap c) (nth k (returned c) NULL))
  = blocks_in_use ILP32
      (pool (my_free ILP32 (heap c) (nth k (returned c) NULL))) bs'.
Proof.
  intros Hbase Hinv Hinv' Hcount.
  pose proof (payload_pointer_nth (returned c) k (inv_returned _ _ _ Hinv))
    as Hptr.
  pose proof (invariant_linked base _ bs' Hbase Hinv') as Hlk'.
  cbn [heap] in Hlk'.
  destruct (free_list_exact base c bs _ Hbase Hinv Hptr)
    as [E|(Ec & Eh & L & HL & Hn & _)].
  - rewrite (invariant_unique base c _ bs bs' Hbase Hinv Hinv' E).
    rewrite E. exact Hcount.
  - rewrite Eh in Hlk'.
    rewrite (linked_unique _ _ _ _ Hlk' HL). rewrite Ec, Hn, Hcount. reflexivity.
Qed.

Lemma fresh_count (base : Z) :
  allocation_count (heap (fresh ILP32 base))
  = blocks_in_use ILP32 (pool (heap (fresh ILP32 base))) [base].
Proof.
  rewrite blocks_in_use_cons.
  assert (E : get ILP32 f_free (pool (heap (fresh ILP32 base))) base = 1).
  { unfold fresh, init_allocator, boot. cbn [heap pool memory_pool].
    rewrite !get_set_field by discriminate. apply get_set_same. }
  rewrite E. reflexivity.
Qed.

Lemma run_count (base : Z) (fuel : nat) (ops : list call) :
  pool_address ILP32 base -> (Z.to_nat POOL_SIZE <= fuel)%nat ->
  forall c bs,
    invariant base c bs ->
    allocation_count (heap c) = blocks_in_use ILP32 (pool (heap c)) bs ->
    exists c' bs',
      run ILP32 fuel c ops = Some c'
      /\ invariant base c' bs'
      /\ allocation_count (heap c')
         = blocks_in_use ILP32 (pool (heap c')) bs'.
Proof.
  intros Hbase Hfuel. induction ops as [|op ops IH]; intros c bs Hinv Hcount.
  - exists c, bs. auto.
  - cbn [run]. pose proof (invariant_length _ _ _ Hinv) as Hlen.
    assert (Hf : (length bs <= fuel)%nat) by lia.
    destruct op as [size|k].
    + destruct (malloc_invariant base c bs fuel size Hbase Hinv Hf)
        as (c1 & bs1 & Hstep & Hinv1).
      rewrite Hstep. apply (IH c1 bs1 Hinv1).
      apply (malloc_count base c c1 bs bs1 fuel size); assumption.
    + destruct (free_invariant base c bs k Hbase Hinv) as (bs1 & Hinv1).
      cbn [step]. apply (IH _ bs1 Hinv1). cbn [heap].
      apply (free_count base c bs bs1 k); assumption.
Qed.

(** * A block in use stays as it is *)






Lemma blocks_LP64_fresh (base : Z) (fuel : nat) :
  base <> NULL -> (0 < fuel)%nat ->
  blocks_of LP64 fuel (heap (fresh LP64 base)) = Some [base].
Proof.
  intros Hb Hf. destruct (fresh_LP64_fields base) as (_ & _ & _ & Hnx).
  cbv zeta in Hnx. unfold blocks_of.
  change (free_list_head (heap (fresh LP64 base))) with base.
  destruct fuel as [|f]; [lia|]. cbn [block_list].
  destruct (Z.eqb_spec base NULL); [contradiction|].
  rewrite Hnx. destruct f; reflexivity.
Qed.

(** * The counters, call by call *)

Lemma my_free_dichotomy (a : abi) (st : allocator) (p : Z) :
  my_free a st p = st
  \/ (p <> NULL
      /\ verify_header a (pool st) (to_size a (p - HEADER_SIZE a)) = true
      /\ get a f_free (pool st) (to_size a (p - HEADER_SIZE a)) = 0
      /\ total_allocated (my_free a st p)
         = to_size a (total_allocated st
                      - get a f_size (pool st) (to_size a (p - HEADER_SIZE a)))
      /\ total_free (my_free a st p)
         = to_size a (total_free st
                      + get a f_size (pool st) (to_size a (p - HEADER_SIZE a)))
      /\ allocation_count (my_free a st p) = allocation_count st - 1
      /\ memory_pool (my_free a st p) = memory_pool st
      /\ free_list_head (my_free a st p) = free_list_head st).
Proof.
  unfold my_free. destruct (Z.eqb_spec p NULL) as [E|E]; [now left|].
  cbv zeta. set (h := to_size a (p - HEADER_SIZE a)).
  destruct (verify_header a (pool st) h); cbn [negb]; [|now left].
  destruct (Z.eqb_spec (get a f_free (pool st) h) 0) as [Hf|Hf]; cbn [negb];
    [|now left].
  right. cbn [total_allocated total_free allocation_count memory_pool
              free_list_head].
  rewrite !get_set_field by discriminate. auto 10.
Qed.

Lemma allocated_bytes_member (a : abi) (m : memory) (bs : list Z) (b : Z) :
  In b bs -> get a f_free m b = 0 ->
  get a f_size m b <= allocated_bytes a m bs.
Proof.
  induction bs as [|x r IH]; intros Hin Hused; [contradiction|].
  rewrite allocated_bytes_cons.
  pose proof (allocated_le_coverage a m r).
  destruct Hin as [->|Hin].
  - rewrite Hused. cbn [Z.eqb]. lia.
  - specialize (IH Hin Hused). pose proof (get_range a f_size m x).
    destruct (get a f_free m x =? 0); lia.
Qed.

Lemma live_header_in_list (base : Z) (c : client) (bs : list Z) (b : Z) :
  invariant base c bs -> b mod 8 = 0 ->
  verify_header ILP32 (pool (heap c)) b = true ->
  get ILP32 f_free (pool (heap c)) b = 0 ->
  In b bs.
Proof.
  intros Hinv Hb8 Hv Hfree. apply verify_magic in Hv.
  destruct (in_dec Z.eq_dec b bs) as [Hin|Hout]; [assumption|exfalso].
  destruct (inv_stale _ _ _ Hinv b Hb8 Hout) as [Hc|Hc]; apply Hc.
  - now apply magic_first_byte.
  - rewrite <- get_free_byte. exact Hfree.
Qed.

Lemma free_counters_ILP32 (base : Z) (c : client) (bs : list Z) (k : nat) :
  pool_address ILP32 base -> invariant base c bs ->
  let p := nth k (returned c) NULL in
  let b := to_size ILP32 (p - HEADER_SIZE ILP32) in
  my_free ILP32 (heap c) p = heap c
  \/ (get ILP32 f_free (pool (heap c)) b = 0
      /\ get ILP32 f_free (pool (my_free ILP32 (heap c) p)) b = 1
      /\ total_allocated (my_free ILP32 (heap c) p)
         = total_allocated (heap c) - get ILP32 f_size (pool (heap c)) b
      /\ total_free (my_free ILP32 (heap c) p)
         = total_free (heap c) + get ILP32 f_size (pool (heap c)) b
      /\ allocation_count (my_free ILP32 (heap c) p)
         = allocation_count (heap c) - 1
      /\ 0 <= total_allocated (my_free ILP32 (heap c) p)).
Proof.
  intros Hbase Hinv. cbv zeta.
  pose proof (payload_pointer_nth (returned c) k (inv_returned _ _ _ Hinv))
    as Hptr.
  set (p := nth k (returned c) NULL) in *.
  destruct (my_free_dichotomy ILP32 (heap c) p)
    as [E|(Hpn & Hv & Hf & Ta & Tf & Tc & _)]; [now left|].
  destruct (free_marks_free base c bs p Hbase Hinv Hptr) as [E|[_ Hf1]];
    [now left|].
  right. destruct Hptr as [E|(Hp8 & Hpr)]; [contradiction|].
  change (HEADER_SIZE ILP32) with 24 in *.
  rewrite (to_size32 (p - 24)) in * by lia.
  assert (Hb8 : (p - 24) mod 8 = 0)
    by (rewrite Zminus_mod, Hp8; reflexivity).
  pose proof (live_header_in_list base c bs (p - 24) Hinv Hb8 Hv Hf) as Hin.
  pose proof (allocated_bytes_member ILP32 (pool (heap c)) bs (p - 24) Hin Hf)
    as Hle.
  pose proof (inv_alloc _ _ _ Hinv) as I4.
  pose proof (inv_free _ _ _ Hinv) as I5.
  pose proof (get_word_range f_size (pool (heap c)) (p - 24)) as Hsr.
  assert (Hac : 0 <= allocated_bytes ILP32 (pool (heap c)) bs
                <= coverage ILP32 (pool (heap c)) bs - 24).
  { apply (allocated_leaves_a_header ILP32). intros ->. contradiction. }
  assert (Hcov : coverage ILP32 (pool (heap c)) bs <= 65536).
  { destruct Hbase as (H0 & _).
    destruct (inv_seg _ _ _ Hinv) as (e & last & Hseg & He).
    apply seg_cover in Hseg. unfold POOL_SIZE in He. lia. }
  unfold POOL_SIZE in *.
  rewrite Ta, Tf, Tc, I5, I4, !to_size32 by lia.
  split; [exact Hf|]. split; [exact Hf1|]. repeat split; lia.
Qed.
(** * What lies before the block a call works on *)

(** A successful [my_malloc] seals the block it takes and leaves every
    byte before it alone. *)
Lemma malloc_low (base : Z) (c : client) (bs : list Z) (fuel : nat)
      (size p : Z) (st' : allocator) :
  pool_address ILP32 base -> invariant base c bs -> (length bs <= fuel)%nat ->
  my_malloc ILP32 fuel (heap c) size = Some (p, st') ->
  st' = heap c
  \/ exists t,
      In t bs
      /\ verify_header ILP32 (pool st') t = true
      /\ forall x, x < t -> load8 (pool st') x = load8 (pool (heap c)) x.
Proof.
  intros Hbase Hinv Hfuel Hm.
  pose proof (invariant_block_list _ _ _ _ Hbase Hinv Hfuel) as Hbl.
  unfold blocks_of in Hbl. unfold my_malloc in Hm.
  destruct (size =? 0); [injection Hm as _ <-; now left|].
  cbv zeta in Hm.
  pose proof (first_fit_outcome ILP32 (pool (heap c)) (align_size ILP32 size)
                bs fuel _ Hbl) as Hout.
  destruct (first_fit ILP32 fuel (pool (heap c)) (free_list_head (heap c))
                      (align_size ILP32 size)) as [b| | |];
    [ | injection Hm as _ <-; now left
      | injection Hm as _ <-; now left
      | contradiction ].
  destruct Hout as [Hin Hfit]. right. exists b. split; [exact Hin|].
  destruct (align_size_range ILP32 size) as [Hn Hn8].
  set (n := align_size ILP32 size) in *. clearbody n.
  change (size_modulus ILP32) with 4294967296 in Hn.
  destruct Hbase as (H0 & H8 & Hend).
  change (size_modulus ILP32) with 4294967296 in Hend.
  destruct Hinv as [I1 I2 (e & last & Hseg & He) I4 I5 I6 I7].
  set (m := pool (heap c)) in *.
  apply in_split in Hin. destruct Hin as (l1 & l2 & ->).
  apply seg_app in Hseg. destruct Hseg as (lo1 & pv1 & p1 & Hs1 & Hs2).
  pose proof (seg_range _ _ _ _ _ _ _ _ Hs1) as [Hlo1 _].
  unfold POOL_SIZE in *.
  destruct (take_window m (heap c) b n lo1 pv1 p1 e last l2
              eq_refl Hs2 ltac:(lia) ltac:(lia) Hfit ltac:(lia) Hn8)
    as (_ & tail & last' & Tseg & _).
  assert (Hlow : forall x, x < b ->
            load8 (pool (snd (take_block ILP32 (heap c) b n))) x = load8 m x).
  { intros x Hx.
    apply (take_block_bytes m (heap c) b n lo1 pv1 p1 e last l2);
      try assumption; try reflexivity; try lia.
    intros h Hh. cbn [seg] in Hs2. destruct Hs2 as (_ & _ & _ & Hr2).
    apply seg_range in Hr2. destruct Hr2 as [_ Hr2]. apply Hr2 in Hh.
    pose proof (get_word_range f_size m b). lia. }
  assert (Esealed : exists m1,
             pool (snd (take_block ILP32 (heap c) b n))
             = set ILP32 f_checksum m1 b (calculate_checksum ILP32 m1 b)).
  { unfold take_block. cbv zeta. cbn [snd pool]. eexists. reflexivity. }
  destruct (take_block ILP32 (heap c) b n) as [ptr st1].
  cbn [fst snd] in *. injection Hm as _ <-.
  cbn [seg] in Tseg. destruct Tseg as (_ & _ & (_ & Hmag & _) & _).
  split; [|exact Hlow].
  destruct Esealed as [m1 Em1]. rewrite Em1. apply sealed_verifies.
  rewrite Em1, get_set_field in Hmag by discriminate. exact Hmag.
Qed.

(** A [my_free] that does something seals the block it ends on, the
    block freed or the one before it, and leaves every byte before that
    block alone. *)
Lemma free_low (base : Z) (c : client) (bs : list Z) (p : Z) :
  pool_address ILP32 base -> invariant base c bs -> payload_pointer p ->
  my_free ILP32 (heap c) p = heap c
  \/ exists t,
      In t bs
      /\ verify_header ILP32 (pool (my_free ILP32 (heap c) p)) t = true
      /\ forall x, x < t ->
           load8 (pool (my_free ILP32 (heap c) p)) x = load8 (pool (heap c)) x.
Proof.
  intros Hbase Hinv Hptr.
  unfold my_free. destruct (Z.eqb_spec p NULL) as [E|Hpn]; [now left|].
  destruct Hptr as [E|(Hp8 & Hpr)]; [contradiction|].
  cbv zeta. change (HEADER_SIZE ILP32) with 24.
  rewrite (to_size32 (p - 24)) by lia.
  assert (Hb8 : (p - 24) mod 8 = 0)
    by (rewrite Zminus_mod, Hp8; reflexivity).
  set (b := p - 24) in *. assert (Hb0 : 0 <= b) by (unfold b; lia).
  clearbody b.
  destruct (verify_header ILP32 (pool (heap c)) b) eqn:Hv; cbn [negb];
    [|now left].
  destruct (Z.eqb_spec (get ILP32 f_free (pool (heap c)) b) 0) as [Hfree|_];
    cbn [negb]; [|now left].
  right. cbn [pool].
  pose proof (live_header_in_list base c bs b Hinv Hb8 Hv Hfree) as Hin.
  apply verify_magic in Hv.
  destruct Hbase as (H0 & H8 & Hend).
  change (size_modulus ILP32) with 4294967296 in Hend.
  destruct Hinv as [I1 I2 (e & last & Hseg & He) I4 I5 I6 I7].
  set (m := pool (heap c)) in *.
  apply in_split in Hin. destruct Hin as (l1 & l2 & ->).
  apply seg_app in Hseg. destruct Hseg as (lo1 & pv1 & p1 & Hs1 & Hs2).
  pose proof (seg_range _ _ _ _ _ _ _ _ Hs1) as [Hlo1 Hr1].
  unfold POOL_SIZE in *.
  pose proof Hs2 as Hs2'. cbn [seg] in Hs2'.
  destruct Hs2' as (_ & Hlob & _).
  (* lines 211-212 *)
  assert (Hv2 : verify_header ILP32
                  (set ILP32 f_checksum (set ILP32 f_free m b 1) b
                       (calculate_checksum ILP32 (set ILP32 f_free m b 1) b))
                  b = true).
  { apply sealed_verifies. rewrite get_set_field by discriminate. exact Hv. }
  assert (Hlow2 : forall x, x < b ->
            load8 (set ILP32 f_checksum (set ILP32 f_free m b 1) b
                       (calculate_checksum ILP32 (set ILP32 f_free m b 1) b))
                  x = load8 m x).
  { intros x Hx. rewrite !load8_set_outside by lia. reflexivity. }
  destruct (mark_free_window m b
              (calculate_checksum ILP32 (set ILP32 f_free m b 1) b)
              lo1 pv1 p1 e last l2 Hs2 Hfree)
    as (Mseg & Mfree & _).
  set (m2 := set ILP32 f_checksum (set ILP32 f_free m b 1) b
                 (calculate_checksum ILP32 (set ILP32 f_free m b 1) b)) in *.
  clearbody m2.
  (* lines 221-236 *)
  destruct (coalesce_next_window m2 b lo1 pv1 p1 e last l2 Mseg
              ltac:(lia) ltac:(lia) Mfree)
    as (l2' & last2 & Nseg & Nfree & _).
  destruct (seg_next_bounds m2 b lo1 pv1 p1 e last l2 Mseg) as [Hbe Hnx].
  pose proof (get_word_range f_size m2 b) as Hsb2.
  assert (Hv3 : verify_header ILP32 (coalesce_next ILP32 m2 b) b = true).
  { apply coalesce_next_sealed; [exact Hv2|].
    destruct Hnx as [Hnx|(Hx1 & Hx2 & Hx3)]; [now left|right].
    pose proof (get_word_range f_size m2 (get ILP32 f_next m2 b)).
    split; [lia|]. split; [lia|].
    destruct Hx3 as [Hx3|Hx3]; [now left | right; lia]. }
  assert (Hlow3 : forall x, x < b ->
            load8 (coalesce_next ILP32 m2 b) x = load8 m x).
  { intros x Hx. rewrite <- (Hlow2 x Hx). apply coalesce_next_bytes; [|lia].
    destruct Hnx as [Hnx|(Hx1 & Hx2 & Hx3)]; [now left|right].
    split; [lia|]. destruct Hx3 as [Hx3|Hx3]; [now left | right; lia]. }
  set (m3 := coalesce_next ILP32 m2 b) in *. clearbody m3.
  destruct (seg_next_bounds m3 b lo1 pv1 p1 e last2 l2' Nseg) as [Hbe3 Hnx3].
  pose proof Nseg as Nseg'. cbn [seg] in Nseg'.
  destruct Nseg' as (_ & _ & (_ & _ & Hbp & _) & _).
  (* lines 239-255 *)
  destruct (seg_last _ _ _ _ _ _ _ _ Hs1) as [[-> ->]|(l1' & pb & -> & ->)].
  - rewrite coalesce_prev_none by exact Hbp. exists b.
    split; [now left|]. split; [exact Hv3 | exact Hlow3].
  - assert (Hpb : In pb (l1' ++ [pb])) by (apply in_or_app; right; now left).
    pose proof (Hr1 pb Hpb) as Hpbr.
    assert (Hspb : pb + 24 + get ILP32 f_size m3 pb <= lo1).
    { assert (Hsame : same_header m m3 pb).
      { intros q Hq. apply Hlow3. lia. }
      rewrite (get_same_header m m3 pb f_size Hsame).
      apply seg_app in Hs1. destruct Hs1 as (lo0 & pv0 & p0 & _ & Hs1).
      cbn [seg] in Hs1. tauto. }
    pose proof (get_word_range f_size m3 b) as Hsb3.
    pose proof (get_word_range f_size m3 pb) as Hsp3.
    destruct (coalesce_prev_cases m3 b) as [->|(Hnn & Hv4 & _)].
    + rewrite Hbp. lia.
    + rewrite Hbp. lia.
    + destruct Hnx3 as [Hnx3|(Hy1 & _)]; [now left | right; lia].
    + exists b. split; [apply in_or_app; right; now left|].
      split; [exact Hv3 | exact Hlow3].
    + rewrite Hbp in Hv4. exists pb.
      split; [apply in_or_app; left; exact Hpb|]. split; [exact Hv4|].
      intros x Hx. rewrite <- (Hlow3 x) by lia.
      apply coalesce_prev_bytes.
      * rewrite Hbp. lia.
      * rewrite Hbp. lia.
      * destruct Hnx3 as [Hnx3|(Hy1 & _)]; [now left | right; left; lia].
Qed.

(** * The first block always verifies *)

Lemma first_block_step (base : Z) (c c' : client) (bs : list Z)
      (fuel : nat) (op : call) :
  pool_address ILP32 base -> invariant base c bs -> (length bs <= fuel)%nat ->
  step ILP32 fuel c op = Some c' ->
  verify_header ILP32 (pool (heap c)) base = true ->
  verify_header ILP32 (pool (heap c')) base = true.
Proof.
  intros Hbase Hinv Hfuel Hstep Hv.
  assert (Hcases : heap c' = heap c
            \/ exists t,
                In t bs
                /\ verify_header ILP32 (pool (heap c')) t = true
                /\ forall x, x < t ->
                     load8 (pool (heap c')) x = load8 (pool (heap c)) x).
  { destruct op as [size|k]; cbn [step] in Hstep.
    - destruct (my_malloc ILP32 fuel (heap c) size) as [[p st']|] eqn:Em;
        [|discriminate].
      injection Hstep as <-. cbn [heap].
      apply (malloc_low base c bs fuel size p); assumption.
    - injection Hstep as <-. cbn [heap].
      apply (free_low base c bs); [assumption | assumption |].
      apply payload_pointer_nth. apply (inv_returned _ _ _ Hinv). }
  destruct Hcases as [->|(t & Ht & Hvt & Hlow)]; [exact Hv|].
  destruct (inv_seg _ _ _ Hinv) as (e & last & Hseg & He).
  destruct Hbase as (H0 & _).
  pose proof (seg_head _ _ _ _ _ _ _ H0 Hseg) as Hhd.
  assert (Hfirst : In base bs).
  { destruct bs as [|x r]; [contradiction|]. cbn [hd] in Hhd. now left. }
  pose proof (seg_in_order _ _ _ _ _ _ _ _ Hseg) as Hord.
  unfold in_address_order in Hord.
  pose proof (block_end_mono ILP32 (pool (heap c))) as Hmono.
  pose proof (seg_range _ _ _ _ _ _ _ _ Hseg) as [_ Hr].
  pose proof (Hr t Ht) as Htr.
  destruct (blocks_apart _ bs _ _ t base Hmono Hord Ht Hfirst)
    as [E|[Hlt|Hgt]].
  - rewrite E. exact Hvt.
  - rewrite (verify_same_header (pool (heap c)) (pool (heap c')) base);
      [exact Hv|].
    intros q Hq. apply Hlow. unfold block_end in Hlt.
    pose proof (get_word_range f_size (pool (heap c)) base).
    change (HEADER_SIZE ILP32) with 24 in Hlt. lia.
  - exfalso. unfold block_end in Hgt.
    pose proof (get_word_range f_size (pool (heap c)) t).
    change (HEADER_SIZE ILP32) with 24 in Hgt. lia.
Qed.

Lemma run_first_block (base : Z) (fuel : nat) (ops : list call) :
  pool_address ILP32 base -> (Z.to_nat POOL_SIZE <= fuel)%nat ->
  forall c bs,
    invariant base c bs ->
    verify_header ILP32 (pool (heap c)) base = true ->
    exists c',
      run ILP32 fuel c ops = Some c'
      /\ verify_header ILP32 (pool (heap c')) base = true.
Proof.
  intros Hbase Hfuel. induction ops as [|op ops IH]; intros c bs Hinv Hv.
  - exists c. auto.
  - pose proof (invariant_length _ _ _ Hinv) as Hlen.
    assert (Hf : (length bs <= fuel)%nat) by lia.
    assert (Hstep : exists c1 bs1,
               step ILP32 fuel c op = Some c1 /\ invariant base c1 bs1).
    { destruct op as [size|k].
      - apply (malloc_invariant base c bs); assumption.
      - destruct (free_invariant base c bs k Hbase Hinv) as (bs1 & Hinv1).
        eexists _, bs1. split; [reflexivity | exact Hinv1]. }
    destruct Hstep as (c1 & bs1 & Hstep & Hinv1).
    cbn [run]. rewrite Hstep. apply (IH c1 bs1 Hinv1).
    apply (first_block_step base c c1 bs fuel op); assumption.
Qed.

Lemma fresh_verifies (base : Z) :
  verify_header ILP32 (pool (heap (fresh ILP32 base))) base = true.
Proof.
  unfold fresh, init_allocator, boot. cbn [heap pool memory_pool].
  apply sealed_verifies. rewrite !get_set_field by discriminate.
  apply get_set_same.
Qed.
(** * A call after a run, and the block it works on *)

(** What [my_malloc] does when it returns, read off its code: the block
    it takes is the one the search found. *)
Lemma malloc_dichotomy (a : abi) (fuel : nat) (st st' : allocator)
      (size p : Z) :
  my_malloc a fuel st size = Some (p, st') ->
  (p = NULL /\ st' = st)
  \/ exists b,
      first_fit a fuel (pool st) (free_list_head st) (align_size a size)
      = Found b
      /\ p = to_size a (b + HEADER_SIZE a)
      /\ verify_header a (pool st) b = true
      /\ get a f_free (pool st) b <> 0
      /\ align_size a size <= get a f_size (pool st) b
      /\ get a f_free (pool st') b = 0
      /\ get a f_size (pool st') b = align_size a size
      /\ allocation_count st' = allocation_count st + 1
      /\ memory_pool st' = memory_pool st
      /\ free_list_head st' = free_list_head st.
Proof.
  unfold my_malloc. destruct (size =? 0).
  { intros E. injection E as <- <-. now left. }
  cbv zeta.
  destruct (first_fit a fuel (pool st) (free_list_head st) (align_size a size))
    as [b| | |] eqn:Ef;
    [ | intros E; injection E as <- <-; now left
      | intros E; injection E as <- <-; now left
      | discriminate ].
  apply first_fit_found in Ef. destruct Ef as [Hv Hfit].
  unfold fits in Hfit. apply andb_true_iff in Hfit. destruct Hfit as [Hf Hs].
  apply negb_true_iff, Z.eqb_neq in Hf. apply Z.leb_le in Hs.
  intros E. right. exists b.
  destruct (align_size_range a size) as [Hr _].
  pose proof (take_block_header a st b (align_size a size) Hr) as Hth.
  cbv zeta in Hth. destruct Hth as [H1 H2].
  assert (Ec : allocation_count (snd (take_block a st b (align_size a size)))
               = allocation_count st + 1
               /\ memory_pool (snd (take_block a st b (align_size a size)))
                  = memory_pool st
               /\ free_list_head (snd (take_block a st b (align_size a size)))
                  = free_list_head st
               /\ fst (take_block a st b (align_size a size))
                  = to_size a (b + HEADER_SIZE a)).
  { unfold take_block. cbv zeta.
    cbn [fst snd allocation_count memory_pool free_list_head]. auto. }
  destruct (take_block a st b (align_size a size)) as [ptr st1].
  cbn [fst snd] in *. injection E as <- <-.
  destruct Ec as (E1 & E2 & E3 & E4).
  split; [reflexivity|]. split; [exact E4|]. split; [exact Hv|].
  split; [exact Hf|]. split; [exact Hs|]. split; [exact H1|].
  split; [exact H2|]. auto.
Qed.

Lemma block_in_pool (base : Z) (c : client) (bs : list Z) (b : Z) :
  invariant base c bs -> In b bs ->
  base <= b /\ b + 24 <= base + POOL_SIZE.
Proof.
  intros Hinv Hin. destruct (inv_seg _ _ _ Hinv) as (e & last & Hseg & He).
  destruct (seg_range _ _ _ _ _ _ _ _ Hseg) as [_ Hr].
  apply Hr in Hin. lia.
Qed.

(** On ILP32, after a run: the block a successful [my_malloc] takes is a
    block of the list, checked before and sealed after. *)
Lemma malloc_checked_ILP32 (base : Z) (c : client) (bs : list Z) (fuel : nat)
      (size p : Z) (st' : allocator) :
  pool_address ILP32 base -> invariant base c bs -> (length bs <= fuel)%nat ->
  my_malloc ILP32 fuel (heap c) size = Some (p, st') ->
  (p = NULL /\ st' = heap c)
  \/ exists b,
      In b bs /\ p = b + 24
      /\ verify_header ILP32 (pool (heap c)) b = true
      /\ get ILP32 f_free (pool (heap c)) b = 1
      /\ align_size ILP32 size <= get ILP32 f_size (pool (heap c)) b
      /\ verify_header ILP32 (pool st') b = true
      /\ get ILP32 f_free (pool st') b = 0
      /\ get ILP32 f_size (pool st') b = align_size ILP32 size
      /\ allocation_count st' = allocation_count (heap c) + 1
      /\ memory_pool st' = memory_pool (heap c)
      /\ free_list_head st' = free_list_head (heap c).
Proof.
  intros Hbase Hinv Hfuel Em.
  pose proof (invariant_block_list _ _ _ _ Hbase Hinv Hfuel) as Hbl.
  unfold blocks_of in Hbl.
  destruct (malloc_block_ILP32 base c bs fuel size p st' Hbase Hinv Hfuel Em)
    as [H|(b & Hin & Hp & _ & Hlo & Hhi & Hv & Hf & Hv' & Hf' & Hs' & _)];
    [now left|].
  destruct Hbase as (H0 & H8 & Hend).
  change (size_modulus ILP32) with 4294967296 in Hend.
  destruct (malloc_dichotomy ILP32 fuel (heap c) st' size p Em)
    as [[Hn _]|(b' & Ef & Hp' & _ & _ & Hsz & _ & _ & Hc & Hmp & Hfh)].
  - exfalso. unfold NULL in Hn. lia.
  - right. exists b.
    pose proof (first_fit_outcome ILP32 (pool (heap c))
                  (align_size ILP32 size) bs fuel _ Hbl) as Ho.
    rewrite Ef in Ho. destruct Ho as [Hin' _].
    destruct (block_in_pool base c bs b' Hinv Hin') as [L1 L2].
    change (HEADER_SIZE ILP32) with 24 in Hp'. unfold POOL_SIZE in *.
    rewrite to_size32 in Hp' by lia.
    assert (E : b' = b) by lia. subst b'. auto 12.
Qed.

(** On ILP32, after a run: [my_free] of an aligned address changes
    nothing unless the address is the payload of a block of the list
    that verifies and is in use. *)
Lemma free_released_ILP32 (base : Z) (c : client) (bs : list Z) (p : Z) :
  pool_address ILP32 base -> invariant base c bs -> payload_pointer p ->
  my_free ILP32 (heap c) p = heap c
  \/ (In (p - 24) bs
      /\ verify_header ILP32 (pool (heap c)) (p - 24) = true
      /\ get ILP32 f_free (pool (heap c)) (p - 24) = 0
      /\ get ILP32 f_free (pool (my_free ILP32 (heap c) p)) (p - 24) = 1
      /\ total_allocated (my_free ILP32 (heap c) p)
         = total_allocated (heap c) - get ILP32 f_size (pool (heap c)) (p - 24)
      /\ total_free (my_free ILP32 (heap c) p)
         = total_free (heap c) + get ILP32 f_size (pool (heap c)) (p - 24)
      /\ allocation_count (my_free ILP32 (heap c) p)
         = allocation_count (heap c) - 1
      /\ 0 <= total_allocated (my_free ILP32 (heap c) p)
      /\ memory_pool (my_free ILP32 (heap c) p) = memory_pool (heap c)
      /\ free_list_head (my_free ILP32 (heap c) p) = free_list_head (heap c)).
Proof.
  intros Hbase Hinv Hptr.
  destruct (my_free_dichotomy ILP32 (heap c) p)
    as [E|(Hpn & Hv & Hf & Ta & Tf & Tc & Tm & Th)]; [now left|].
  destruct (free_marks_free base c bs p Hbase Hinv Hptr) as [E|[_ Hf1]];
    [now left|].
  right. destruct Hptr as [E|(Hp8 & Hpr)]; [contradiction|].
  change (HEADER_SIZE ILP32) with 24 in *.
  rewrite (to_size32 (p - 24)) in * by lia.
  assert (Hb8 : (p - 24) mod 8 = 0)
    by (rewrite Zminus_mod, Hp8; reflexivity).
  pose proof (live_header_in_list base c bs (p - 24) Hinv Hb8 Hv Hf) as Hin.
  pose proof (allocated_bytes_member ILP32 (pool (heap c)) bs (p - 24) Hin Hf)
    as Hle.
  pose proof (inv_alloc _ _ _ Hinv) as I4.
  pose proof (inv_free _ _ _ Hinv) as I5.
  pose proof (get_word_range f_size (pool (heap c)) (p - 24)) as Hsr.
  assert (Hac : 0 <= allocated_bytes ILP32 (pool (heap c)) bs
                <= coverage ILP32 (pool (heap c)) bs - 24).
  { apply (allocated_leaves_a_header ILP32). intros ->. contradiction. }
  assert (Hcov : coverage ILP32 (pool (heap c)) bs <= 65536).
  { destruct Hbase as (H0 & _).
    destruct (inv_seg _ _ _ Hinv) as (e & last & Hseg & He).
    apply seg_cover in Hseg. unfold POOL_SIZE in He. lia. }
  unfold POOL_SIZE in *.
  rewrite Ta, Tf, Tc, Tm, Th, I5, I4, !to_size32 by lia.
  split; [exact Hin|]. split; [exact Hv|]. split; [exact Hf|].
  split; [exact Hf1|]. repeat split; lia.
Qed.

(** * The properties of the specification *)

(** C1 (code defect).  Coverage, [sum (H + b.size) == P] after every call,
    is lost as soon as an allocation takes a block without splitting it:
    line 174 sets [best_fit->size = aligned_size] on that path too, and the
    bytes of the remainder belong to no block any more.  On a fresh ILP32
    allocator (H = 24, one free block of 65512 bytes) [my_malloc(65504)]
    leaves a single block of size 65504: the sum is 65528, eight bytes
    short of the pool. *)
Theorem coverage_lost_by_unsplit_allocation :
  exists c bs,
    run ILP32 16 (fresh ILP32 example_base) [Malloc 65504] = Some c
    /\ blocks_of ILP32 16 (heap c) = Some bs
    /\ length bs = 1%nat
    /\ coverage ILP32 (pool (heap c)) bs = POOL_SIZE - 8.
Proof.
  eexists. eexists. split; [vm_compute; reflexivity|].
  split; [vm_compute; reflexivity|]. split; vm_compute; reflexivity.
Qed.

(** C2 (code defect).  When the remainder [r = b.size - n'] is below
    [H + A] no split occurs, but the block does not keep its size: line 174
    assigns [aligned_size] to it whether or not the block was split.  On a
    fresh ILP32 allocator [my_malloc(65504)] selects the only block (size
    65512, remainder 8 < 32), does not split it, and leaves it with size
    65504; the claim says the size stays 65512. *)
Theorem unsplit_block_is_shrunk :
  let st := heap (fresh ILP32 example_base) in
  let b := example_base in
  first_fit ILP32 16 (pool st) (free_list_head st) (align_size ILP32 65504)
  = Found b
  /\ get ILP32 f_size (pool st) b = 65512
  /\ get ILP32 f_size (pool st) b - align_size ILP32 65504 = 8
  /\ 8 < HEADER_SIZE ILP32 + ALIGNMENT
  /\ exists p st',
      my_malloc ILP32 16 st 65504 = Some (p, st')
      /\ get ILP32 f_next (pool st') b = NULL
      /\ get ILP32 f_size (pool st') b = 65504.
Proof.
  cbv zeta. repeat (split; [vm_compute; reflexivity|]).
  eexists. eexists. split; [vm_compute; reflexivity|].
  split; vm_compute; reflexivity.
Qed.

(** The bytes cut off that way stay lost: once the block is freed again
    the pool is one free block of 65504 bytes, and the request for 65512
    bytes that a fresh allocator serves is refused. *)
Example shrunk_block_stays_shrunk :
  exists c p,
    run ILP32 16 (fresh ILP32 example_base) [Malloc 65504; Free 0%nat] = Some c
    /\ blocks_of ILP32 16 (heap c) = Some [example_base]
    /\ get ILP32 f_free (pool (heap c)) example_base = 1
    /\ get ILP32 f_size (pool (heap c)) example_base = 65504
    /\ my_malloc ILP32 16 (heap c) 65512 = Some (NULL, heap c)
    /\ my_malloc ILP32 16 (heap (fresh ILP32 example_base)) 65512
       = Some (example_base + 24, p).
Proof.
  eexists. eexists. split; [vm_compute; reflexivity|].
  do 4 (split; [vm_compute; reflexivity|]). vm_compute. reflexivity.
Qed.

(** C3 (code defect).  [demo_basic] itself breaks integrity.  When
    [my_free(p1)] absorbs the freed block of [p2], line 231 rewrites the
    [prev] link of the block of [p3] and no line recomputes that block's
    checksum (lines 165 and 249 do the same).  After the fifth call the
    block of [p3] is in the list, allocated, its magic intact and nothing
    but the allocator has written to it, and it does not verify; the sixth
    call, [my_free(p3)], is then refused and changes nothing. *)
Theorem demo_leaves_unverifiable_block :
  exists c bs p3,
    run ILP32 16 (fresh ILP32 example_base) (firstn 5 demo_basic) = Some c
    /\ blocks_of ILP32 16 (heap c) = Some bs
    /\ p3 = nth 2 (returned c) NULL
    /\ In (p3 - HEADER_SIZE ILP32) bs
    /\ get ILP32 f_magic (pool (heap c)) (p3 - HEADER_SIZE ILP32) = MAGIC_COOKIE
    /\ get ILP32 f_free (pool (heap c)) (p3 - HEADER_SIZE ILP32) = 0
    /\ verify_header ILP32 (pool (heap c)) (p3 - HEADER_SIZE ILP32) = false
    /\ run ILP32 16 (fresh ILP32 example_base) demo_basic = Some c.
Proof.
  eexists. eexists. eexists. split; [vm_compute; reflexivity|].
  split; [vm_compute; reflexivity|]. split; [reflexivity|].
  split; [vm_compute; tauto|].
  do 3 (split; [vm_compute; reflexivity|]). vm_compute. reflexivity.
Qed.

(** C4, as stated, fails on the first split: the new header takes [H]
    bytes from the free block, [block_count] grows by one, and neither
    counter moves by [H]. *)
Lemma accounting_with_block_count_fails :
  exists c bs,
    run ILP32 16 (fresh ILP32 example_base) [Malloc 128] = Some c
    /\ blocks_of ILP32 16 (heap c) = Some bs
    /\ total_allocated (heap c) + total_free (heap c)
       + HEADER_SIZE ILP32 * Z.of_nat (length bs) = POOL_SIZE + HEADER_SIZE ILP32
    /\ total_allocated (heap c) + total_free (heap c)
       + HEADER_SIZE ILP32 * Z.of_nat (length bs) <> POOL_SIZE.
Proof.
  eexists. eexists. split; [vm_compute; reflexivity|].
  split; [vm_compute; reflexivity|]. split; vm_compute; [reflexivity|discriminate].
Qed.

(** C4 (amended).  After every call of every run from a fresh allocator,
    [total_allocated + total_free == P - H], whatever the number of
    blocks, and [total_allocated] is the sum of [b.size] over the blocks
    of the list with [b.free == 0]. *)
Theorem accounting_identity (a : abi) (base : Z) (fuel : nat)
        (ops : list call) :
  pool_address a base -> (Z.to_nat POOL_SIZE <= fuel)%nat ->
  exists c bs,
    run a fuel (fresh a base) ops = Some c
    /\ blocks_of a fuel (heap c) = Some bs
    /\ total_allocated (heap c) + total_free (heap c)
       = POOL_SIZE - HEADER_SIZE a
    /\ total_allocated (heap c) = allocated_bytes a (pool (heap c)) bs.
Proof.
  intros Hbase Hfuel.
  destruct (reachable_summary a base fuel ops Hbase Hfuel)
    as (c & bs & Hrun & Hbl & Hal & Hsum & _).
  exists c, bs. auto.
Qed.

(** The calls of [demo_basic], with the pool at [example_base]. *)
Lemma accounting_identity_witness :
  pool_address ILP32 example_base
  /\ (Z.to_nat POOL_SIZE <= Z.to_nat POOL_SIZE)%nat
  /\ exists c bs,
      run ILP32 (Z.to_nat POOL_SIZE) (fresh ILP32 example_base) demo_basic
      = Some c
      /\ blocks_of ILP32 (Z.to_nat POOL_SIZE) (heap c) = Some bs
      /\ total_allocated (heap c) + total_free (heap c)
         = POOL_SIZE - HEADER_SIZE ILP32
      /\ total_allocated (heap c) = allocated_bytes ILP32 (pool (heap c)) bs.
Proof.
  assert (Hb : pool_address ILP32 example_base)
    by (repeat split; vm_compute; reflexivity).
  split; [exact Hb|]. split; [apply le_n|].
  exact (accounting_identity ILP32 example_base (Z.to_nat POOL_SIZE)
                             demo_basic Hb (le_n _)).
Defined.

(** C5, as stated, fails for a neighbour met while coalescing.  After
    [p = my_malloc(8)] a stray byte ruins the magic of the free block
    behind it; [my_free(p)] reaches that block through [next], sees it
    fail [verify_header], and has by then marked the block of [p] free and
    moved the counters. *)
Lemma free_does_not_abort_on_corrupt_neighbour :
  let st := overwrite (state_after ILP32 16 example_base [Malloc 8])
                      (example_base + 32) 0 in
  let p := example_base + 24 in
  let header := p - HEADER_SIZE ILP32 in
  let next := get ILP32 f_next (pool st) header in
  my_malloc ILP32 16 (heap (fresh ILP32 example_base)) 8
  = Some (p, state_after ILP32 16 example_base [Malloc 8])
  /\ next = example_base + 32
  /\ get ILP32 f_free (pool st) next <> 0
  /\ verify_header ILP32 (pool st) next = false
  /\ get ILP32 f_free (pool st) header = 0
  /\ total_allocated st = 8
  /\ get ILP32 f_free (pool (my_free ILP32 st p)) header = 1
  /\ total_allocated (my_free ILP32 st p) = 0
  /\ my_free ILP32 st p <> st.
Proof.
  cbv zeta. split; [vm_compute; reflexivity|].
  split; [vm_compute; reflexivity|]. split; [vm_compute; discriminate|].
  repeat (split; [vm_compute; reflexivity|]).
  intros E. apply (f_equal total_allocated) in E. vm_compute in E. discriminate.
Qed.

(** What an effective [my_free] leaves in the pool: the block marked
    free, then the two merges of lines 221-255 in turn. *)
Lemma my_free_pool (a : abi) (st : allocator) (ptr : Z) :
  let header := to_size a (ptr - HEADER_SIZE a) in
  ptr <> NULL ->
  verify_header a (pool st) header = true ->
  get a f_free (pool st) header = 0 ->
  pool (my_free a st ptr)
  = coalesce_prev a (coalesce_next a (mark_free a (pool st) header) header)
                  header.
Proof.
  intros header Hp Hv Hf. unfold my_free.
  destruct (Z.eqb_spec ptr NULL); [contradiction|]. cbv zeta.
  fold header. rewrite Hv, Hf. reflexivity.
Qed.

Lemma marked_block_is_free (a : abi) (m : memory) (header : Z) :
  get a f_free (mark_free a m header) header = 1.
Proof.
  unfold mark_free. cbv zeta. rewrite get_set_field by discriminate.
  rewrite get_set_same. destruct a; reflexivity.
Qed.

(** A neighbour that is not there, or fails [verify_header], is not
    merged, and nothing is written. *)
Lemma coalesce_next_skipped (a : abi) (m : memory) (header : Z) :
  get a f_next m header = NULL
  \/ verify_header a m (get a f_next m header) = false ->
  coalesce_next a m header = m.
Proof.
  intros [E|E]; unfold coalesce_next; cbv zeta; rewrite E.
  - reflexivity.
  - now destruct (_ && _).
Qed.

Lemma coalesce_prev_skipped (a : abi) (m : memory) (header : Z) :
  get a f_prev m header = NULL
  \/ verify_header a m (get a f_prev m header) = false ->
  coalesce_prev a m header = m.
Proof.
  intros [E|E]; unfold coalesce_prev; cbv zeta; rewrite E.
  - reflexivity.
  - now destruct (_ && _).
Qed.

(** C5 (amended).  A block that fails [verify_header] during the search
    of [my_malloc], or at the payload reference given to [my_free], makes
    the call return with the allocator exactly as it was.  A neighbour
    that fails it while [my_free] coalesces stops only that merge, which
    then writes nothing: the call is not undone.  Once past the checks
    of lines 192-209 the block is marked free ([mark_free], lines
    211-212) and the three counters are moved by its size, whatever the
    neighbours are.  With a [next] neighbour that fails [verify_header]
    the pool is left as the merge with [prev] alone makes it, with a
    [prev] neighbour that fails as the merge with [next] alone makes it;
    and when neither neighbour is merged (each absent, or failing
    [verify_header]) the pool is exactly the marked one, so the block is
    free in it. *)
Theorem verify_failure_aborts (a : abi) (st : allocator) :
  (forall fuel size l1 b l2,
      size <> 0 ->
      blocks_of a fuel st = Some (l1 ++ b :: l2) ->
      Forall (passed_over a (pool st) (align_size a size)) l1 ->
      verify_header a (pool st) b = false ->
      my_malloc a fuel st size = Some (NULL, st))
  /\ (forall ptr,
         verify_header a (pool st) (to_size a (ptr - HEADER_SIZE a)) = false ->
         my_free a st ptr = st)
  /\ (forall header,
         verify_header a (pool st) (get a f_next (pool st) header) = false ->
         coalesce_next a (pool st) header = pool st)
  /\ (forall header,
         verify_header a (pool st) (get a f_prev (pool st) header) = false ->
         coalesce_prev a (pool st) header = pool st)
  /\ (forall ptr,
         let header := to_size a (ptr - HEADER_SIZE a) in
         let marked := mark_free a (pool st) header in
         let st' := my_free a st ptr in
         ptr <> NULL ->
         verify_header a (pool st) header = true ->
         get a f_free (pool st) header = 0 ->
         get a f_free marked header = 1
         /\ total_allocated st'
            = to_size a (total_allocated st - get a f_size (pool st) header)
         /\ total_free st'
            = to_size a (total_free st + get a f_size (pool st) header)
         /\ allocation_count st' = allocation_count st - 1
         /\ (verify_header a marked (get a f_next marked header) = false ->
             pool st' = coalesce_prev a marked header)
         /\ (verify_header a (coalesce_next a marked header)
                           (get a f_prev (coalesce_next a marked header) header)
             = false ->
             pool st' = coalesce_next a marked header)
         /\ (get a f_next marked header = NULL
             \/ verify_header a marked (get a f_next marked header) = false ->
             get a f_prev marked header = NULL
             \/ verify_header a marked (get a f_prev marked header) = false ->
             pool st' = marked
             /\ get a f_free (pool st') header = 1)).
Proof.
  split; [|split; [|split; [|split]]].
  - intros fuel size l1 b l2 Hs Hl Hp Hv. unfold my_malloc.
    destruct (Z.eqb_spec size 0); [contradiction|].
    unfold blocks_of in Hl. cbv zeta.
    now rewrite (search_aborts _ _ _ _ _ _ _ _ Hl Hp Hv).
  - intros ptr Hv. unfold my_free. destruct (ptr =? NULL); [reflexivity|].
    cbv zeta. now rewrite Hv.
  - intros header Hv. apply coalesce_next_skipped. now right.
  - intros header Hv. apply coalesce_prev_skipped. now right.
  - intros ptr header marked st' Hp Hv Hf.
    destruct (my_free_counters a st ptr Hp Hv Hf) as (H1 & H2 & H3).
    pose proof (my_free_pool a st ptr Hp Hv Hf) as Hpool.
    pose proof (marked_block_is_free a (pool st) header) as Hm.
    fold header in Hpool. fold marked in Hpool, Hm. fold st' in Hpool.
    split; [exact Hm|]. split; [exact H1|]. split; [exact H2|].
    split; [exact H3|]. split; [|split].
    + intros Hn. rewrite Hpool.
      rewrite (coalesce_next_skipped a marked header) by now right.
      reflexivity.
    + intros Hn. rewrite Hpool. apply coalesce_prev_skipped. now right.
    + intros Hn Hpv. rewrite Hpool.
      rewrite (coalesce_next_skipped a marked header) by exact Hn.
      rewrite (coalesce_prev_skipped a marked header) by exact Hpv.
      split; [reflexivity | exact Hm].
Qed.

(** In [islands] with the magic of the second block overwritten: the
    search meets that block after passing the first, its payload pointer
    cannot be freed, and the first and the third block, its neighbours,
    do not merge with it.  Freeing the first block, which has no [prev],
    leaves the pool marked and nothing else; freeing the third, whose
    [prev] is the overwritten block, still merges it with the free block
    behind it. *)
Lemma verify_failure_aborts_witness :
  let st := overwrite islands (example_base + 40) 0 in
  let bad := example_base + 40 in
  (8 <> 0
   /\ blocks_of ILP32 16 st
      = Some ([example_base] ++ bad
                :: [example_base + 320; example_base + 408;
                    example_base + 440; example_base + 472])
   /\ Forall (passed_over ILP32 (pool st) (align_size ILP32 8)) [example_base]
   /\ verify_header ILP32 (pool st) bad = false
   /\ my_malloc ILP32 16 st 8 = Some (NULL, st))
  /\ (verify_header ILP32 (pool st)
                    (to_size ILP32 (bad + 24 - HEADER_SIZE ILP32)) = false
      /\ my_free ILP32 st (bad + 24) = st)
  /\ (verify_header ILP32 (pool st)
                    (get ILP32 f_next (pool st) example_base) = false
      /\ coalesce_next ILP32 (pool st) example_base = pool st)
  /\ (verify_header ILP32 (pool st)
                    (get ILP32 f_prev (pool st) (example_base + 320)) = false
      /\ coalesce_prev ILP32 (pool st) (example_base + 320) = pool st)
  /\ (let ptr := example_base + 24 in
      let header := to_size ILP32 (ptr - HEADER_SIZE ILP32) in
      let marked := mark_free ILP32 (pool st) header in
      let st' := my_free ILP32 st ptr in
      (ptr <> NULL
       /\ verify_header ILP32 (pool st) header = true
       /\ get ILP32 f_free (pool st) header = 0
       /\ get ILP32 f_size (pool st) header = 16
       /\ get ILP32 f_next marked header = bad
       /\ verify_header ILP32 marked bad = false
       /\ get ILP32 f_prev marked header = NULL)
      /\ total_allocated st' = to_size ILP32 (total_allocated st - 16)
      /\ total_free st' = to_size ILP32 (total_free st + 16)
      /\ allocation_count st' = allocation_count st - 1
      /\ pool st' = marked
      /\ get ILP32 f_free (pool st') header = 1)
  /\ (let ptr := example_base + 344 in
      let header := to_size ILP32 (ptr - HEADER_SIZE ILP32) in
      let marked := mark_free ILP32 (pool st) header in
      let st' := my_free ILP32 st ptr in
      (ptr <> NULL
       /\ verify_header ILP32 (pool st) header = true
       /\ get ILP32 f_free (pool st) header = 0
       /\ get ILP32 f_prev (coalesce_next ILP32 marked header) header = bad
       /\ verify_header ILP32 (coalesce_next ILP32 marked header) bad = false)
      /\ get ILP32 f_free marked header = 1
      /\ pool st' = coalesce_next ILP32 marked header).
Proof.
  cbv zeta.
  destruct (verify_failure_aborts ILP32 (overwrite islands (example_base + 40) 0))
    as (Hm & Hf & Hn & Hp & Hc).
  assert (Hl : blocks_of ILP32 16 (overwrite islands (example_base + 40) 0)
               = Some ([example_base] ++ example_base + 40
                         :: [example_base + 320; example_base + 408;
                             example_base + 440; example_base + 472]))
    by (vm_compute; reflexivity).
  assert (Hpass : Forall (passed_over ILP32
                            (pool (overwrite islands (example_base + 40) 0))
                            (align_size ILP32 8)) [example_base])
    by (constructor; [split; vm_compute; reflexivity | constructor]).
  assert (Hbad : verify_header ILP32
                   (pool (overwrite islands (example_base + 40) 0))
                   (example_base + 40) = false) by (vm_compute; reflexivity).
  split.
  { split; [discriminate|]. split; [exact Hl|]. split; [exact Hpass|].
    split; [exact Hbad|].
    exact (Hm 16%nat 8 _ _ _ ltac:(discriminate) Hl Hpass Hbad). }
  split.
  { split; [vm_compute; reflexivity|]. apply Hf. vm_compute. reflexivity. }
  split.
  { split; [vm_compute; reflexivity|]. apply Hn. vm_compute. reflexivity. }
  split.
  { split; [vm_compute; reflexivity|]. apply Hp. vm_compute. reflexivity. }
  split.
  { assert (G1 : example_base + 24 <> NULL) by discriminate.
    assert (G2 : verify_header ILP32
                   (pool (overwrite islands (example_base + 40) 0))
                   (to_size ILP32 (example_base + 24 - HEADER_SIZE ILP32))
                 = true) by (vm_compute; reflexivity).
    assert (G3 : get ILP32 f_free
                     (pool (overwrite islands (example_base + 40) 0))
                     (to_size ILP32 (example_base + 24 - HEADER_SIZE ILP32))
                 = 0) by (vm_compute; reflexivity).
    assert (G4 : get ILP32 f_size
                     (pool (overwrite islands (example_base + 40) 0))
                     (to_size ILP32 (example_base + 24 - HEADER_SIZE ILP32))
                 = 16) by (vm_compute; reflexivity).
    assert (G5 : get ILP32 f_next
                     (mark_free ILP32
                        (pool (overwrite islands (example_base + 40) 0))
                        (to_size ILP32 (example_base + 24 - HEADER_SIZE ILP32)))
                     (to_size ILP32 (example_base + 24 - HEADER_SIZE ILP32))
                 = example_base + 40) by (vm_compute; reflexivity).
    assert (G6 : verify_header ILP32
                   (mark_free ILP32
                      (pool (overwrite islands (example_base + 40) 0))
                      (to_size ILP32 (example_base + 24 - HEADER_SIZE ILP32)))
                   (example_base + 40) = false) by (vm_compute; reflexivity).
    assert (G7 : get ILP32 f_prev
                     (mark_free ILP32
                        (pool (overwrite islands (example_base + 40) 0))
                        (to_size ILP32 (example_base + 24 - HEADER_SIZE ILP32)))
                     (to_size ILP32 (example_base + 24 - HEADER_SIZE ILP32))
                 = NULL) by (vm_compute; reflexivity).
    split; [auto 10|].
    destruct (Hc (example_base + 24) G1 G2 G3)
      as (_ & T1 & T2 & T3 & _ & _ & K).
    rewrite G4 in T1, T2.
    split; [exact T1|]. split; [exact T2|]. split; [exact T3|].
    apply K; [right; rewrite G5; exact G6 | left; exact G7]. }
  assert (G1 : example_base + 344 <> NULL) by discriminate.
  assert (G2 : verify_header ILP32
                 (pool (overwrite islands (example_base + 40) 0))
                 (to_size ILP32 (example_base + 344 - HEADER_SIZE ILP32))
               = true) by (vm_compute; reflexivity).
  assert (G3 : get ILP32 f_free
                   (pool (overwrite islands (example_base + 40) 0))
                   (to_size ILP32 (example_base + 344 - HEADER_SIZE ILP32))
               = 0) by (vm_compute; reflexivity).
  assert (G4 : get ILP32 f_prev
                   (coalesce_next ILP32
                      (mark_free ILP32
                         (pool (overwrite islands (example_base + 40) 0))
                         (to_size ILP32
                            (example_base + 344 - HEADER_SIZE ILP32)))
                      (to_size ILP32 (example_base + 344 - HEADER_SIZE ILP32)))
                   (to_size ILP32 (example_base + 344 - HEADER_SIZE ILP32))
               = example_base + 40) by (vm_compute; reflexivity).
  assert (G5 : verify_header ILP32
                 (coalesce_next ILP32
                    (mark_free ILP32
                       (pool (overwrite islands (example_base + 40) 0))
                       (to_size ILP32
                          (example_base + 344 - HEADER_SIZE ILP32)))
                    (to_size ILP32 (example_base + 344 - HEADER_SIZE ILP32)))
                 (example_base + 40) = false) by (vm_compute; reflexivity).
  split; [auto 10|].
  destruct (Hc (example_base + 344) G1 G2 G3) as (T0 & _ & _ & _ & _ & K & _).
  split; [exact T0|]. apply K. rewrite G4. exact G5.
Defined.

(** The search as the code runs it, with the size line 126 computes: the
    first block of the list that verifies and fits is the one allocated,
    provided every block before it verifies and does not fit. *)
Lemma search_takes_first_fit (a : abi) (fuel : nat) (st : allocator)
      (size : Z) (l1 : list Z) (b : Z) (l2 : list Z) :
  size <> 0 ->
  blocks_of a fuel st = Some (l1 ++ b :: l2) ->
  Forall (passed_over a (pool st) (align_size a size)) l1 ->
  verify_header a (pool st) b = true ->
  fits a (pool st) (align_size a size) b = true ->
  exists st',
    my_malloc a fuel st size = Some (to_size a (b + HEADER_SIZE a), st')
    /\ get a f_free (pool st') b = 0
    /\ get a f_size (pool st') b = align_size a size.
Proof.
  intros Hs Hl Hp Hv Hf. unfold my_malloc.
  destruct (Z.eqb_spec size 0); [contradiction|]. cbv zeta.
  unfold blocks_of in Hl. rewrite (search_finds _ _ _ _ _ _ _ _ Hl Hp Hv Hf).
  exists (snd (take_block a st b (align_size a size))). split; [reflexivity|].
  apply take_block_header. apply align_size_range.
Qed.

(** C6, as stated, does not hold for every request with [n > 0].
    In [islands] with a stray byte in the magic of the second block,
    that block is the first that is free and holds [round_up 8 8] bytes,
    but it fails [verify_header] and [my_malloc(8)] returns [NULL], as
    line 134 has it.  The allocator gets there on its own, too: after
    [demo_basic] with the 24-byte header the list is
    [408 free][64 in use, failing verify_header][64992 free]: the third
    block is the first that is free and holds [round_up 1000 8] bytes,
    but the search ends at the second and [my_malloc(1000)] returns
    [NULL].  With the 48-byte header the head block of a fresh allocator
    is free and large enough for 128 bytes but does not verify, and
    [my_malloc(128)] returns [NULL].  And a request of [2^32 - 1] bytes
    on a fresh allocator (24-byte header) is served from the head block,
    which does not hold [round_up n 8 = 2^32] bytes: line 126 wraps. *)
Lemma first_fit_needs_verified_blocks_and_no_wrap :
  (let st := overwrite islands (example_base + 40) 0 in
   let n' := round_up 8 ALIGNMENT in
   blocks_of ILP32 16 st
   = Some [example_base; example_base + 40; example_base + 320;
           example_base + 408; example_base + 440; example_base + 472]
   /\ fits ILP32 (pool st) n' example_base = false
   /\ fits ILP32 (pool st) n' (example_base + 40) = true
   /\ verify_header ILP32 (pool st) (example_base + 40) = false
   /\ my_malloc ILP32 16 st 8 = Some (NULL, st))
  /\ (let st := state_after ILP32 16 example_base demo_basic in
      let n' := round_up 1000 ALIGNMENT in
      blocks_of ILP32 16 st
      = Some [example_base; example_base + 432; example_base + 520]
      /\ fits ILP32 (pool st) n' example_base = false
      /\ fits ILP32 (pool st) n' (example_base + 432) = false
      /\ fits ILP32 (pool st) n' (example_base + 520) = true
      /\ verify_header ILP32 (pool st) (example_base + 520) = true
      /\ verify_header ILP32 (pool st) (example_base + 432) = false
      /\ my_malloc ILP32 16 st 1000 = Some (NULL, st))
  /\ (let st := heap (fresh LP64 example_base) in
      let n' := round_up 128 ALIGNMENT in
      blocks_of LP64 16 st = Some [example_base]
      /\ fits LP64 (pool st) n' example_base = true
      /\ verify_header LP64 (pool st) example_base = false
      /\ my_malloc LP64 16 st 128 = Some (NULL, st))
  /\ (let st := heap (fresh ILP32 example_base) in
      let n := 4294967295 in
      0 < n
      /\ round_up n ALIGNMENT = 4294967296
      /\ blocks_of ILP32 16 st = Some [example_base]
      /\ get ILP32 f_size (pool st) example_base = 65512
      /\ fits ILP32 (pool st) (round_up n ALIGNMENT) example_base = false
      /\ exists st',
          my_malloc ILP32 16 st n = Some (example_base + 24, st')
          /\ get ILP32 f_free (pool st') example_base = 0).
Proof.
  cbv zeta. split; [|split; [|split]].
  - do 4 (split; [vm_compute; reflexivity|]).
    unfold my_malloc. cbv zeta.
    replace (first_fit ILP32 16
               (pool (overwrite islands (example_base + 40) 0))
               (free_list_head (overwrite islands (example_base + 40) 0))
               (align_size ILP32 8))
      with (Corrupt (example_base + 40)) by (vm_compute; reflexivity).
    reflexivity.
  - do 6 (split; [vm_compute; reflexivity|]).
    unfold my_malloc. cbv zeta.
    replace (first_fit ILP32 16
               (pool (state_after ILP32 16 example_base demo_basic))
               (free_list_head (state_after ILP32 16 example_base demo_basic))
               (align_size ILP32 1000))
      with (Corrupt (example_base + 432)) by (vm_compute; reflexivity).
    reflexivity.
  - do 3 (split; [vm_compute; reflexivity|]).
    apply (malloc_LP64_fresh example_base); [discriminate | lia | reflexivity].
  - split; [reflexivity|]. do 4 (split; [vm_compute; reflexivity|]).
    eexists. split; vm_compute; reflexivity.
Qed.

(** C6 (amended).  For a request [n > 0] that line 126 aligns without
    wrapping, so that [n' = round_up n 8], the search starts at the head
    and the first block in list order that is free and holds [n'] bytes
    is the one allocated, whatever blocks follow it, provided that block
    and every block before it pass [verify_header]: the call returns its
    payload address and leaves it in use with size [n']. *)
Theorem first_fit_policy (a : abi) (fuel : nat) (st : allocator) (size : Z)
        (l1 : list Z) (b : Z) (l2 : list Z) :
  0 < size -> size + (ALIGNMENT - 1) < size_modulus a ->
  blocks_of a fuel st = Some (l1 ++ b :: l2) ->
  Forall (passed_over a (pool st) (round_up size ALIGNMENT)) l1 ->
  verify_header a (pool st) b = true ->
  fits a (pool st) (round_up size ALIGNMENT) b = true ->
  exists st',
    my_malloc a fuel st size = Some (to_size a (b + HEADER_SIZE a), st')
    /\ get a f_free (pool st') b = 0
    /\ get a f_size (pool st') b = round_up size ALIGNMENT.
Proof.
  intros H0 Hw. unfold ALIGNMENT in Hw.
  rewrite <- (align_size_round_up a size) by lia.
  apply search_takes_first_fit. lia.
Qed.

(** In [islands] a request of 8 bytes passes the first block, which is
    in use, and takes the free block of 256 bytes behind it, although the
    free block of exactly 8 bytes further on would fit it tightly. *)
Lemma first_fit_policy_witness :
  (0 < 8 /\ 8 + (ALIGNMENT - 1) < size_modulus ILP32
   /\ blocks_of ILP32 16 islands
      = Some ([example_base] ++ example_base + 40
                :: [example_base + 320; example_base + 408;
                    example_base + 440; example_base + 472])
   /\ Forall (passed_over ILP32 (pool islands) (round_up 8 ALIGNMENT))
             [example_base]
   /\ verify_header ILP32 (pool islands) (example_base + 40) = true
   /\ fits ILP32 (pool islands) (round_up 8 ALIGNMENT) (example_base + 40)
      = true)
  /\ (get ILP32 f_size (pool islands) (example_base + 40) = 256
      /\ fits ILP32 (pool islands) (round_up 8 ALIGNMENT) (example_base + 408)
         = true
      /\ get ILP32 f_size (pool islands) (example_base + 408) = 8)
  /\ exists st',
      my_malloc ILP32 16 islands 8
      = Some (to_size ILP32 (example_base + 40 + HEADER_SIZE ILP32), st')
      /\ get ILP32 f_free (pool st') (example_base + 40) = 0
      /\ get ILP32 f_size (pool st') (example_base + 40)
         = round_up 8 ALIGNMENT.
Proof.
  assert (H0 : 0 < 8) by lia.
  assert (Hw : 8 + (ALIGNMENT - 1) < size_modulus ILP32)
    by (vm_compute; reflexivity).
  assert (Hl : blocks_of ILP32 16 islands
               = Some ([example_base] ++ example_base + 40
                         :: [example_base + 320; example_base + 408;
                             example_base + 440; example_base + 472]))
    by (vm_compute; reflexivity).
  assert (Hpass : Forall (passed_over ILP32 (pool islands)
                                      (round_up 8 ALIGNMENT))
                         [example_base])
    by (constructor; [split; vm_compute; reflexivity | constructor]).
  assert (Hv : verify_header ILP32 (pool islands) (example_base + 40) = true)
    by (vm_compute; reflexivity).
  assert (Hf : fits ILP32 (pool islands) (round_up 8 ALIGNMENT)
                    (example_base + 40) = true) by (vm_compute; reflexivity).
  split; [auto 10|].
  split; [repeat split; vm_compute; reflexivity|].
  exact (first_fit_policy ILP32 16 islands 8 _ _ _ H0 Hw Hl Hpass Hv Hf).
Defined.

(** C7 (code defect).  The loop of line 74 stops at
    [sizeof(block_header_t) - sizeof(uint32_t)].  That is where the
    checksum field begins only if nothing follows the field.  On LP64 the
    struct ends with four bytes of padding: the field sits at offset 40,
    the loop runs to 44 and sums the four bytes of the stored checksum
    too.  The checksum stored by [init_allocator] (1288) is then not the
    one recomputed from the sealed header (1301), and the first block
    fails [verify_header] before any call. *)
Theorem checksum_sums_its_own_field_on_LP64 :
  let m := pool (heap (fresh LP64 example_base)) in
  let b := example_base in
  offset LP64 f_checksum = 40
  /\ sizeof_block_header LP64 - 4 = 44
  /\ get LP64 f_checksum m b = 1288
  /\ calculate_checksum LP64 m b = 1301
  /\ calculate_checksum LP64 (set LP64 f_checksum m b 0) b = 1288
  /\ verify_header LP64 m b = false.
Proof. cbv zeta. repeat split; vm_compute; reflexivity. Qed.

(** C8 (code defect).  Line 126 rounds up in [size_t] and nothing checks
    for wrap-around: a request of [SIZE_MAX] bytes has [aligned_size = 0],
    which every free block satisfies.  On a fresh ILP32 allocator
    [my_malloc(4294967295)] splits the first block, returns a payload of
    zero bytes and counts one allocation, where the claim says it returns
    none and changes nothing. *)
Theorem wrapped_request_is_served :
  let st := heap (fresh ILP32 example_base) in
  POOL_SIZE - HEADER_SIZE ILP32 < 4294967295 < size_modulus ILP32
  /\ align_size ILP32 4294967295 = 0
  /\ exists st',
      my_malloc ILP32 16 st 4294967295 = Some (example_base + 24, st')
      /\ example_base + 24 <> NULL
      /\ allocation_count st' = 1
      /\ get ILP32 f_free (pool st') example_base = 0
      /\ get ILP32 f_size (pool st') example_base = 0
      /\ get ILP32 f_next (pool st') example_base = example_base + 24.
Proof.
  cbv zeta. split; [vm_compute; split; reflexivity|].
  split; [vm_compute; reflexivity|].
  eexists. split; [vm_compute; reflexivity|].
  split; [discriminate|]. repeat split; vm_compute; reflexivity.
Qed.

(** C9.  After every run from a fresh allocator [calculate_fragmentation]
    ends, and with [k], [L] and [F] the number, the largest size and the
    total size of the free blocks it counts, the score it stores is [0]
    when [k <= 1] or [F == 0] and [100 - floor (100 * L / F)] otherwise;
    the score lies between 0 and 100. *)
Theorem fragmentation_metric (a : abi) (base : Z) (fuel : nat)
        (ops : list call) :
  pool_address a base -> (Z.to_nat POOL_SIZE <= fuel)%nat ->
  exists c bs st',
    run a fuel (fresh a base) ops = Some c
    /\ blocks_of a fuel (heap c) = Some bs
    /\ calculate_fragmentation a fuel (heap c) = Some st'
    /\ fragmentation_score st'
       = fragmentation_formula
           (Z.of_nat (length (free_sizes a (pool (heap c)) bs)))
           (maxZ (free_sizes a (pool (heap c)) bs))
           (sumZ (free_sizes a (pool (heap c)) bs))
    /\ 0 <= fragmentation_score st' <= 100.
Proof.
  intros Hbase Hfuel.
  destruct (reachable_summary a base fuel ops Hbase Hfuel)
    as (c & bs & Hrun & Hbl & _ & _ & Hcov).
  exists c, bs. unfold calculate_fragmentation. unfold blocks_of in Hbl.
  rewrite (frag_walk_figures a (pool (heap c)) _ _ _ 0 0 0 Hbl)
    by (try lia; destruct a; vm_compute; split; congruence).
  eexists. split; [exact Hrun|]. split; [exact Hbl|]. split; [reflexivity|].
  cbn [fragmentation_score].
  destruct (sum_free_sizes_le a (pool (heap c)) bs) as [HF HL].
  set (fs := free_sizes a (pool (heap c)) bs) in *.
  set (F := sumZ fs) in *. set (L := maxZ fs) in *.
  set (k := Z.of_nat (length fs)).
  rewrite Z.add_0_l, Z.add_0_l, Z.max_r by lia.
  unfold POOL_SIZE in Hcov.
  assert (Hmod : 4294967296 <= size_modulus a)
    by (destruct a; vm_compute; discriminate).
  rewrite (to_size_small a F) by lia.
  unfold score_of, fragmentation_formula.
  destruct (Z.ltb_spec 1 k) as [Hk|Hk]; destruct (Z.leb_spec k 1) as [Hk'|Hk'];
    try (exfalso; lia); cbn [andb orb]; try (split; [reflexivity|lia]).
  destruct (Z.ltb_spec 0 F) as [HF0|HF0]; destruct (Z.eqb_spec F 0) as [HF'|HF'];
    try (exfalso; lia); cbn [andb orb]; try (split; [reflexivity|lia]).
  rewrite (to_size_small a (L * 100)) by lia.
  assert (Hq : 0 <= L * 100 / F <= 100).
  { split; [apply Z.div_pos; lia|].
    apply Z.div_le_upper_bound; lia. }
  rewrite (to_size_small a (100 - L * 100 / F)) by lia.
  unfold to_int. rewrite Z.mod_small by lia.
  rewrite (Z.mul_comm 100 L). lia.
Qed.

(** The first four calls of [demo_basic], which leave two free blocks. *)
Lemma fragmentation_metric_witness :
  pool_address ILP32 example_base
  /\ (Z.to_nat POOL_SIZE <= Z.to_nat POOL_SIZE)%nat
  /\ exists c bs st',
      run ILP32 (Z.to_nat POOL_SIZE) (fresh ILP32 example_base)
          (firstn 4 demo_basic) = Some c
      /\ blocks_of ILP32 (Z.to_nat POOL_SIZE) (heap c) = Some bs
      /\ calculate_fragmentation ILP32 (Z.to_nat POOL_SIZE) (heap c) = Some st'
      /\ fragmentation_score st'
         = fragmentation_formula
             (Z.of_nat (length (free_sizes ILP32 (pool (heap c)) bs)))
             (maxZ (free_sizes ILP32 (pool (heap c)) bs))
             (sumZ (free_sizes ILP32 (pool (heap c)) bs))
      /\ 0 <= fragmentation_score st' <= 100.
Proof.
  assert (Hb : pool_address ILP32 example_base)
    by (repeat split; vm_compute; reflexivity).
  split; [exact Hb|]. split; [apply le_n|].
  exact (fragmentation_metric ILP32 example_base (Z.to_nat POOL_SIZE)
                              (firstn 4 demo_basic) Hb (le_n _)).
Defined.

(** C10.  A block that fails [verify_header] does not stop the
    fragmentation walk: the walk goes on through its [next] link, the
    score is the one of the list without that block, and nothing but the
    score is written. *)
Theorem fragmentation_skips_unverified (a : abi) (fuel : nat) (st : allocator)
        (l1 : list Z) (b : Z) (l2 : list Z) :
  blocks_of a fuel st = Some (l1 ++ b :: l2) ->
  verify_header a (pool st) b = false ->
  exists st',
    calculate_fragmentation a fuel st = Some st'
    /\ fragmentation_score st'
       = score_of a (Z.of_nat (length (free_sizes a (pool st) (l1 ++ l2))))
                    (maxZ (free_sizes a (pool st) (l1 ++ l2)))
                    (to_size a (sumZ (free_sizes a (pool st) (l1 ++ l2))))
    /\ pool st' = pool st
    /\ memory_pool st' = memory_pool st
    /\ free_list_head st' = free_list_head st
    /\ total_allocated st' = total_allocated st
    /\ total_free st' = total_free st
    /\ allocation_count st' = allocation_count st.
Proof.
  intros Hl Hv. unfold calculate_fragmentation. unfold blocks_of in Hl.
  rewrite (frag_walk_figures a (pool st) _ _ _ 0 0 0 Hl)
    by (try lia; destruct a; vm_compute; split; congruence).
  rewrite free_sizes_skip by (unfold counted; now rewrite Hv).
  eexists. split; [reflexivity|]. cbn.
  rewrite Z.max_r by apply maxZ_nonneg. repeat split; reflexivity.
Qed.

(** In [islands] with the magic of the free block of 8 bytes
    overwritten, the walk counts the two free blocks around it. *)
Lemma fragmentation_skips_unverified_witness :
  let st := overwrite islands (example_base + 408) 0 in
  let l1 := [example_base; example_base + 40; example_base + 320] in
  let l2 := [example_base + 440; example_base + 472] in
  blocks_of ILP32 16 st = Some (l1 ++ example_base + 408 :: l2)
  /\ verify_header ILP32 (pool st) (example_base + 408) = false
  /\ free_sizes ILP32 (pool st) (l1 ++ l2) = [256; 65040]
  /\ exists st',
      calculate_fragmentation ILP32 16 st = Some st'
      /\ fragmentation_score st'
         = score_of ILP32
             (Z.of_nat (length (free_sizes ILP32 (pool st) (l1 ++ l2))))
             (maxZ (free_sizes ILP32 (pool st) (l1 ++ l2)))
             (to_size ILP32 (sumZ (free_sizes ILP32 (pool st) (l1 ++ l2))))
      /\ pool st' = pool st
      /\ memory_pool st' = memory_pool st
      /\ free_list_head st' = free_list_head st
      /\ total_allocated st' = total_allocated st
      /\ total_free st' = total_free st
      /\ allocation_count st' = allocation_count st.
Proof.
  cbv zeta.
  assert (Hl : blocks_of ILP32 16 (overwrite islands (example_base + 408) 0)
               = Some ([example_base; example_base + 40; example_base + 320]
                         ++ example_base + 408
                         :: [example_base + 440; example_base + 472]))
    by (vm_compute; reflexivity).
  assert (Hv : verify_header ILP32
                 (pool (overwrite islands (example_base + 408) 0))
                 (example_base + 408) = false) by (vm_compute; reflexivity).
  split; [exact Hl|]. split; [exact Hv|]. split; [vm_compute; reflexivity|].
  exact (fragmentation_skips_unverified ILP32 16 _ _ _ _ Hl Hv).
Defined.
(** * Further properties of the code *)

(** X1.  On ILP32, a header with the magic cookie verifies as soon as its
    checksum has been recomputed and stored (lines 162, 175, 212, 234,
    252 against lines 80-90). *)
Theorem seal_then_verify (m : memory) (b : Z) :
  get ILP32 f_magic m b = MAGIC_COOKIE ->
  verify_header ILP32
    (set ILP32 f_checksum m b (calculate_checksum ILP32 m b)) b = true.
Proof. apply sealed_verifies. Qed.

Lemma seal_then_verify_witness :
  let m := set ILP32 f_size (set ILP32 f_magic zero_memory 64 MAGIC_COOKIE)
               64 4000 in
  get ILP32 f_magic m 64 = MAGIC_COOKIE
  /\ verify_header ILP32
       (set ILP32 f_checksum m 64 (calculate_checksum ILP32 m 64)) 64 = true.
Proof.
  cbv zeta.
  assert (H : get ILP32 f_magic
                  (set ILP32 f_size
                       (set ILP32 f_magic zero_memory 64 MAGIC_COOKIE) 64 4000)
                  64 = MAGIC_COOKIE) by (vm_compute; reflexivity).
  split; [exact H|]. exact (seal_then_verify _ 64 H).
Defined.

(** X2.  On ILP32, [verify_header] catches every change of a single byte
    of a header that verified: whichever of its 24 bytes is overwritten
    with a different value, the header no longer verifies. *)
Theorem single_byte_corruption_detected (m : memory) (b i v : Z) :
  verify_header ILP32 m b = true ->
  0 <= i < 24 ->
  v mod 256 <> load8 m (b + i) ->
  verify_header ILP32 (store8 m (b + i) v) b = false.
Proof.
  intros Hv Hi Hne. apply verify_true in Hv. destruct Hv as [_ Hc].
  destruct (verify_header ILP32 (store8 m (b + i) v) b) eqn:E; [|reflexivity].
  exfalso. apply verify_true in E. destruct E as [_ E].
  destruct (Z.lt_ge_cases i 20) as [Hlo|Hhi].
  - (* a summed byte: the stored checksum stays, the sum moves *)
    assert (Es : get ILP32 f_checksum (store8 m (b + i) v) b
                 = get ILP32 f_checksum m b).
    { unfold get. apply load_store8_other.
      change (offset ILP32 f_checksum) with 20.
      change (Z.of_nat (width ILP32 f_checksum)) with 4. lia. }
    rewrite Es, Hc in E.
    apply (checksum_depends_on_every_byte ILP32 m b i v).
    + change (sizeof_block_header ILP32 - 4) with 20. lia.
    + exact Hne.
    + symmetry. exact E.
  - (* a byte of the stored checksum: the sum stays, the field moves *)
    rewrite checksum_store8_other in E
      by (change (sizeof_block_header ILP32 - 4) with 20; lia).
    rewrite <- Hc in E.
    unfold get in E. change (offset ILP32 f_checksum) with 20 in E.
    replace (b + i) with (b + 20 + (i - 20)) in E, Hne by lia.
    apply (load_store8_changes (width ILP32 f_checksum) m (b + 20) (i - 20) v);
      [change (Z.of_nat (width ILP32 f_checksum)) with 4; lia | exact Hne | exact E].
Qed.

Lemma single_byte_corruption_detected_witness :
  let m := pool (heap (fresh ILP32 example_base)) in
  verify_header ILP32 m example_base = true
  /\ 0 <= 5 < 24
  /\ 1 mod 256 <> load8 m (example_base + 5)
  /\ verify_header ILP32 (store8 m (example_base + 5) 1) example_base = false.
Proof.
  cbv zeta.
  assert (H1 : verify_header ILP32 (pool (heap (fresh ILP32 example_base)))
                             example_base = true) by (vm_compute; reflexivity).
  assert (H2 : 0 <= 5 < 24) by lia.
  assert (H3 : 1 mod 256
               <> load8 (pool (heap (fresh ILP32 example_base)))
                        (example_base + 5)) by (vm_compute; discriminate).
  split; [exact H1|]. split; [exact H2|]. split; [exact H3|].
  exact (single_byte_corruption_detected _ _ 5 1 H1 H2 H3).
Defined.

(** X3.  The checksum is a plain sum, so a change that adds one to a byte
    and takes one from another passes unnoticed: on ILP32 a header that
    verified still verifies after such a change to any two bytes of its
    [size], [free], [next] and [prev] members. *)
Theorem balanced_corruption_undetected (m : memory) (b i j : Z) :
  verify_header ILP32 m b = true ->
  4 <= i < 20 -> 4 <= j < 20 -> i <> j ->
  load8 m (b + i) < 255 -> 0 < load8 m (b + j) ->
  verify_header ILP32
    (store8 (store8 m (b + i) (load8 m (b + i) + 1))
            (b + j) (load8 m (b + j) - 1)) b = true.
Proof.
  intros Hv Hi Hj Hij Hx Hy. apply verify_true in Hv. destruct Hv as [Hm Hc].
  apply verify_true. split.
  - rewrite <- Hm. unfold get. change (offset ILP32 f_magic) with 0.
    change (width ILP32 f_magic) with 4%nat.
    rewrite !load_store8_other by (change (Z.of_nat 4) with 4; lia).
    reflexivity.
  - unfold get in *. change (offset ILP32 f_checksum) with 20 in *.
    change (width ILP32 f_checksum) with 4%nat in *.
    rewrite !load_store8_other by (change (Z.of_nat 4) with 4; lia).
    rewrite Hc, !checksum_byte_sum.
    change (Z.to_nat (sizeof_block_header ILP32 - 4)) with 20%nat.
    rewrite !byte_sum_store8 by (change (Z.of_nat 20) with 20; lia).
    rewrite load8_store8. destruct (Z.eqb_spec (b + j) (b + i)); [lia|].
    pose proof (load8_range m (b + i)). pose proof (load8_range m (b + j)).
    rewrite !Z.mod_small by lia. lia.
Qed.

Lemma balanced_corruption_undetected_witness :
  let m := pool (heap (fresh ILP32 example_base)) in
  let m' := store8 (store8 m (example_base + 6) (load8 m (example_base + 6) + 1))
                   (example_base + 4) (load8 m (example_base + 4) - 1) in
  (verify_header ILP32 m example_base = true
   /\ 4 <= 6 < 20 /\ 4 <= 4 < 20 /\ 6 <> 4
   /\ load8 m (example_base + 6) < 255 /\ 0 < load8 m (example_base + 4))
  /\ get ILP32 f_size m example_base = 65512
  /\ get ILP32 f_size m' example_base = 131047
  /\ verify_header ILP32 m' example_base = true.
Proof.
  cbv zeta.
  assert (H1 : verify_header ILP32 (pool (heap (fresh ILP32 example_base)))
                             example_base = true) by (vm_compute; reflexivity).
  assert (H5 : load8 (pool (heap (fresh ILP32 example_base))) (example_base + 6)
               < 255) by (vm_compute; reflexivity).
  assert (H6 : 0 < load8 (pool (heap (fresh ILP32 example_base)))
                         (example_base + 4)) by (vm_compute; reflexivity).
  split; [repeat split; (assumption || lia)|].
  split; [vm_compute; reflexivity|]. split; [vm_compute; reflexivity|].
  exact (balanced_corruption_undetected _ example_base 6 4 H1
           ltac:(lia) ltac:(lia) ltac:(lia) H5 H6).
Defined.

(** X4.  With 8-byte [size_t] and pointers the allocator is dead from the
    start: the checksum of lines 71-78 then sums its own field, the first
    header never verifies, so whatever calls a client makes, every
    [my_malloc] returns [NULL] and the allocator state stays as
    [init_allocator] left it. *)
Theorem LP64_allocator_serves_nothing (base : Z) (fuel : nat)
        (ops : list call) :
  base <> NULL -> (0 < fuel)%nat ->
  exists c,
    run LP64 fuel (fresh LP64 base) ops = Some c
    /\ heap c = heap (fresh LP64 base)
    /\ Forall (eq NULL) (returned c).
Proof.
  intros Hbase Hfuel.
  apply (run_LP64_nothing base fuel ops Hbase Hfuel (fresh LP64 base));
    [reflexivity | constructor].
Qed.

Lemma LP64_allocator_serves_nothing_witness :
  example_base <> NULL /\ (0 < 8)%nat
  /\ exists c,
      run LP64 8 (fresh LP64 example_base) demo_basic = Some c
      /\ heap c = heap (fresh LP64 example_base)
      /\ Forall (eq NULL) (returned c).
Proof.
  assert (H1 : example_base <> NULL) by (vm_compute; discriminate).
  assert (H2 : (0 < 8)%nat) by lia.
  split; [exact H1|]. split; [exact H2|].
  exact (LP64_allocator_serves_nothing example_base 8 demo_basic H1 H2).
Defined.

(** X5.  After every sequence of [my_malloc] and [my_free] calls on a
    fresh allocator, the list from [free_list_head] starts at the first
    byte of the pool, every block lies with header and payload inside
    the pool, and a block that comes later in the list starts at or
    after the end of every earlier one: blocks never overlap. *)
Theorem blocks_in_address_order (a : abi) (base : Z) (fuel : nat)
        (ops : list call) :
  pool_address a base -> (Z.to_nat POOL_SIZE <= fuel)%nat ->
  exists c bs,
    run a fuel (fresh a base) ops = Some c
    /\ blocks_of a fuel (heap c) = Some bs
    /\ hd NULL bs = base
    /\ (forall b, In b bs ->
          base <= b /\ block_end a (pool (heap c)) b <= base + POOL_SIZE)
    /\ (forall l1 b1 l2 b2 l3, bs = l1 ++ b1 :: l2 ++ b2 :: l3 ->
          block_end a (pool (heap c)) b1 <= b2).
Proof.
  intros Hbase Hfuel.
  destruct (reachable_layout a base fuel ops Hbase Hfuel)
    as (c & bs & Hrun & Hbl & Hhd & Hord & _).
  exists c, bs. split; [exact Hrun|]. split; [exact Hbl|].
  split; [exact Hhd|]. unfold in_address_order in Hord. split.
  - apply (one_after_another_bounds _ _ (block_end_mono a (pool (heap c)))
             _ _ Hord).
  - intros l1 b1 l2 b2 l3 E. rewrite E in Hord.
    eapply one_after_another_pair; [apply block_end_mono | exact Hord].
Qed.

Lemma blocks_in_address_order_witness :
  pool_address ILP32 example_base
  /\ (Z.to_nat POOL_SIZE <= Z.to_nat POOL_SIZE)%nat
  /\ exists c bs,
      run ILP32 (Z.to_nat POOL_SIZE) (fresh ILP32 example_base) demo_basic
      = Some c
      /\ blocks_of ILP32 (Z.to_nat POOL_SIZE) (heap c) = Some bs
      /\ hd NULL bs = example_base
      /\ (forall b, In b bs ->
            example_base <= b
            /\ block_end ILP32 (pool (heap c)) b <= example_base + POOL_SIZE)
      /\ (forall l1 b1 l2 b2 l3, bs = l1 ++ b1 :: l2 ++ b2 :: l3 ->
            block_end ILP32 (pool (heap c)) b1 <= b2).
Proof.
  assert (Hb : pool_address ILP32 example_base)
    by (repeat split; vm_compute; reflexivity).
  split; [exact Hb|]. split; [apply le_n|].
  exact (blocks_in_address_order ILP32 example_base (Z.to_nat POOL_SIZE)
                                 demo_basic Hb (le_n _)).
Defined.

(** X6.  After every sequence of calls, every block header and every
    payload starts at a multiple of 8, every [size] member is a multiple
    of 8, and every pointer [my_malloc] has returned is [NULL] or a
    multiple of 8. *)
Theorem everything_is_8_aligned (a : abi) (base : Z) (fuel : nat)
        (ops : list call) :
  pool_address a base -> (Z.to_nat POOL_SIZE <= fuel)%nat ->
  exists c bs,
    run a fuel (fresh a base) ops = Some c
    /\ blocks_of a fuel (heap c) = Some bs
    /\ Forall (fun b => b mod ALIGNMENT = 0
                        /\ (b + HEADER_SIZE a) mod ALIGNMENT = 0
                        /\ get a f_size (pool (heap c)) b mod ALIGNMENT = 0) bs
    /\ Forall (fun p => p = NULL \/ p mod ALIGNMENT = 0) (returned c).
Proof.
  intros Hbase Hfuel.
  destruct (reachable_layout a base fuel ops Hbase Hfuel)
    as (c & bs & Hrun & Hbl & _ & _ & _ & Hgood & Hret).
  exists c, bs. split; [exact Hrun|]. split; [exact Hbl|].
  split; [|exact Hret].
  eapply Forall_impl; [|exact Hgood]. unfold ALIGNMENT.
  intros b (H8 & Hs & _). split; [exact H8|]. split; [|exact Hs].
  rewrite Zplus_mod, H8, header_size_value. destruct a; reflexivity.
Qed.

Lemma everything_is_8_aligned_witness :
  pool_address ILP32 example_base
  /\ (Z.to_nat POOL_SIZE <= Z.to_nat POOL_SIZE)%nat
  /\ exists c bs,
      run ILP32 (Z.to_nat POOL_SIZE) (fresh ILP32 example_base) demo_basic
      = Some c
      /\ blocks_of ILP32 (Z.to_nat POOL_SIZE) (heap c) = Some bs
      /\ Forall (fun b => b mod ALIGNMENT = 0
                          /\ (b + HEADER_SIZE ILP32) mod ALIGNMENT = 0
                          /\ get ILP32 f_size (pool (heap c)) b mod ALIGNMENT = 0)
                bs
      /\ Forall (fun p => p = NULL \/ p mod ALIGNMENT = 0) (returned c).
Proof.
  assert (Hb : pool_address ILP32 example_base)
    by (repeat split; vm_compute; reflexivity).
  split; [exact Hb|]. split; [apply le_n|].
  exact (everything_is_8_aligned ILP32 example_base (Z.to_nat POOL_SIZE)
                                 demo_basic Hb (le_n _)).
Defined.

(** X7.  After every sequence of calls, the list is consistently doubly
    linked and its headers are intact: the [prev] member of every block
    holds the block before it in the list ([NULL] for the first), every
    block carries the magic cookie, and every [free] member is 0 or 1. *)
Theorem list_stays_doubly_linked (a : abi) (base : Z) (fuel : nat)
        (ops : list call) :
  pool_address a base -> (Z.to_nat POOL_SIZE <= fuel)%nat ->
  exists c bs,
    run a fuel (fresh a base) ops = Some c
    /\ blocks_of a fuel (heap c) = Some bs
    /\ back_linked a (pool (heap c)) NULL bs
    /\ Forall (fun b => get a f_magic (pool (heap c)) b = MAGIC_COOKIE
                        /\ (get a f_free (pool (heap c)) b = 0
                            \/ get a f_free (pool (heap c)) b = 1)) bs.
Proof.
  intros Hbase Hfuel.
  destruct (reachable_layout a base fuel ops Hbase Hfuel)
    as (c & bs & Hrun & Hbl & _ & _ & Hback & Hgood & _).
  exists c, bs. split; [exact Hrun|]. split; [exact Hbl|].
  split; [exact Hback|].
  eapply Forall_impl; [|exact Hgood]. intros b (_ & _ & Hm & Hf). auto.
Qed.

Lemma list_stays_doubly_linked_witness :
  pool_address ILP32 example_base
  /\ (Z.to_nat POOL_SIZE <= Z.to_nat POOL_SIZE)%nat
  /\ exists c bs,
      run ILP32 (Z.to_nat POOL_SIZE) (fresh ILP32 example_base) demo_basic
      = Some c
      /\ blocks_of ILP32 (Z.to_nat POOL_SIZE) (heap c) = Some bs
      /\ back_linked ILP32 (pool (heap c)) NULL bs
      /\ Forall (fun b => get ILP32 f_magic (pool (heap c)) b = MAGIC_COOKIE
                          /\ (get ILP32 f_free (pool (heap c)) b = 0
                              \/ get ILP32 f_free (pool (heap c)) b = 1)) bs.
Proof.
  assert (Hb : pool_address ILP32 example_base)
    by (repeat split; vm_compute; reflexivity).
  split; [exact Hb|]. split; [apply le_n|].
  exact (list_stays_doubly_linked ILP32 example_base (Z.to_nat POOL_SIZE)
                                  demo_basic Hb (le_n _)).
Defined.

(** X8.  Line 126 rounds a request up to the next multiple of 8: for a
    size that does not wrap in [size_t], the aligned size is a multiple
    of 8, at least the size and less than 8 above it, and aligning it
    again changes nothing. *)
Theorem align_size_rounds_up (a : abi) (size : Z) :
  0 <= size -> size + 7 < size_modulus a ->
  size <= align_size a size < size + ALIGNMENT
  /\ align_size a size mod ALIGNMENT = 0
  /\ align_size a (align_size a size) = align_size a size.
Proof.
  intros H0 Hw. split; [apply align_size_bounds; assumption|].
  split; [apply align_size_range | apply align_size_fixed; assumption].
Qed.

Lemma align_size_rounds_up_witness :
  (0 <= 13 /\ 13 + 7 < size_modulus ILP32)
  /\ 13 <= align_size ILP32 13 < 13 + ALIGNMENT
  /\ align_size ILP32 13 mod ALIGNMENT = 0
  /\ align_size ILP32 (align_size ILP32 13) = align_size ILP32 13.
Proof.
  assert (H1 : 0 <= 13) by lia.
  assert (H2 : 13 + 7 < size_modulus ILP32) by (vm_compute; reflexivity).
  split; [split; assumption|].
  exact (align_size_rounds_up ILP32 13 H1 H2).
Defined.

(** X9.  After every sequence of calls, a request for more bytes than
    the pool can ever hold in one block (and small enough for line 126
    not to wrap) is refused: [my_malloc] returns [NULL] and leaves the
    allocator state as it was. *)
Theorem request_beyond_pool_is_refused (a : abi) (base : Z) (fuel : nat)
        (ops : list call) (n : Z) :
  pool_address a base -> (Z.to_nat POOL_SIZE <= fuel)%nat ->
  POOL_SIZE - HEADER_SIZE a < n -> n + 7 < size_modulus a ->
  exists c,
    run a fuel (fresh a base) ops = Some c
    /\ my_malloc a fuel (heap c) n = Some (NULL, heap c).
Proof. apply oversize_request_fails. Qed.

Lemma request_beyond_pool_is_refused_witness :
  (pool_address ILP32 example_base
   /\ (Z.to_nat POOL_SIZE <= Z.to_nat POOL_SIZE)%nat
   /\ POOL_SIZE - HEADER_SIZE ILP32 < 65520
   /\ 65520 + 7 < size_modulus ILP32)
  /\ exists c,
      run ILP32 (Z.to_nat POOL_SIZE) (fresh ILP32 example_base) demo_basic
      = Some c
      /\ my_malloc ILP32 (Z.to_nat POOL_SIZE) (heap c) 65520
         = Some (NULL, heap c).
Proof.
  assert (Hb : pool_address ILP32 example_base)
    by (repeat split; vm_compute; reflexivity).
  assert (H3 : POOL_SIZE - HEADER_SIZE ILP32 < 65520)
    by (vm_compute; reflexivity).
  assert (H4 : 65520 + 7 < size_modulus ILP32) by (vm_compute; reflexivity).
  split; [split; [exact Hb|]; split; [apply le_n|]; split; assumption|].
  exact (request_beyond_pool_is_refused ILP32 example_base
           (Z.to_nat POOL_SIZE) demo_basic 65520 Hb (le_n _) H3 H4).
Defined.

(** X10.  After every sequence of calls, a further [my_malloc(n)]
    returns, and either fails, returning [NULL] and leaving the state
    untouched, or takes a block of the list that verified, was free and
    was large enough for the aligned size; it leaves that block
    verifying again, marked in use with exactly the aligned size,
    returns the address behind its header, counts one more allocation
    and leaves [memory_pool] and [free_list_head] alone. *)
Theorem malloc_fails_cleanly_or_takes_a_checked_block
        (a : abi) (base : Z) (fuel : nat) (ops : list call) (n : Z) :
  pool_address a base -> (Z.to_nat POOL_SIZE <= fuel)%nat ->
  exists c bs p st',
    run a fuel (fresh a base) ops = Some c
    /\ blocks_of a fuel (heap c) = Some bs
    /\ my_malloc a fuel (heap c) n = Some (p, st')
    /\ ((p = NULL /\ st' = heap c)
        \/ exists b,
            In b bs /\ p = b + HEADER_SIZE a
            /\ verify_header a (pool (heap c)) b = true
            /\ get a f_free (pool (heap c)) b = 1
            /\ align_size a n <= get a f_size (pool (heap c)) b
            /\ verify_header a (pool st') b = true
            /\ get a f_free (pool st') b = 0
            /\ get a f_size (pool st') b = align_size a n
            /\ allocation_count st' = allocation_count (heap c) + 1
            /\ memory_pool st' = memory_pool (heap c)
            /\ free_list_head st' = free_list_head (heap c)).
Proof.
  intros Hbase Hfuel.
  destruct (reachable_cases a base fuel ops Hbase Hfuel) as (c & Hrun & Hc).
  exists c. destruct a.
  - destruct Hc as [bs Hinv]. exists bs.
    pose proof (invariant_length _ _ _ Hinv) as Hlen.
    assert (Hf : (length bs <= fuel)%nat) by lia.
    destruct (malloc_invariant base c bs fuel n Hbase Hinv Hf)
      as (c' & bs' & Hstep & _).
    cbn [step] in Hstep.
    destruct (my_malloc ILP32 fuel (heap c) n) as [[p st']|] eqn:Em;
      [|discriminate].
    exists p, st'. split; [exact Hrun|].
    split; [exact (invariant_block_list _ _ _ _ Hbase Hinv Hf)|].
    split; [reflexivity|].
    exact (malloc_checked_ILP32 base c bs fuel n p st' Hbase Hinv Hf Em).
  - destruct Hc as [Hc _]. exists [base], NULL, (heap c).
    destruct Hbase as (Hb0 & _). unfold POOL_SIZE in Hfuel.
    split; [exact Hrun|].
    split; [rewrite Hc; apply blocks_LP64_fresh; [unfold NULL|]; lia|].
    split; [|left; auto].
    apply (malloc_LP64_fresh base); [unfold NULL; lia | lia | exact Hc].
Qed.

(** After [demo_basic] a request of 100 bytes succeeds: it is served
    from the first block of the list. *)
Lemma malloc_fails_cleanly_or_takes_a_checked_block_witness :
  (pool_address ILP32 example_base
   /\ (Z.to_nat POOL_SIZE <= Z.to_nat POOL_SIZE)%nat)
  /\ exists c bs p st',
      run ILP32 (Z.to_nat POOL_SIZE) (fresh ILP32 example_base) demo_basic
      = Some c
      /\ blocks_of ILP32 (Z.to_nat POOL_SIZE) (heap c) = Some bs
      /\ my_malloc ILP32 (Z.to_nat POOL_SIZE) (heap c) 100 = Some (p, st')
      /\ p = example_base + 24
      /\ exists b,
          In b bs /\ p = b + HEADER_SIZE ILP32
          /\ verify_header ILP32 (pool (heap c)) b = true
          /\ get ILP32 f_free (pool (heap c)) b = 1
          /\ align_size ILP32 100 <= get ILP32 f_size (pool (heap c)) b
          /\ verify_header ILP32 (pool st') b = true
          /\ get ILP32 f_free (pool st') b = 0
          /\ get ILP32 f_size (pool st') b = align_size ILP32 100
          /\ allocation_count st' = allocation_count (heap c) + 1
          /\ memory_pool st' = memory_pool (heap c)
          /\ free_list_head st' = free_list_head (heap c).
Proof.
  assert (Hb : pool_address ILP32 example_base)
    by (repeat split; vm_compute; reflexivity).
  split; [split; [exact Hb | apply le_n]|].
  destruct (malloc_fails_cleanly_or_takes_a_checked_block ILP32 example_base
              (Z.to_nat POOL_SIZE) demo_basic 100 Hb (le_n _))
    as (c & bs & p & st' & Hrun & Hbl & Em & Hout).
  assert (Hs : state_after ILP32 (Z.to_nat POOL_SIZE) example_base demo_basic
               = heap c) by (unfold state_after; rewrite Hrun; reflexivity).
  assert (Hp : option_map fst
                 (my_malloc ILP32 (Z.to_nat POOL_SIZE)
                    (state_after ILP32 (Z.to_nat POOL_SIZE) example_base
                                 demo_basic) 100)
               = Some (example_base + 24)) by (vm_compute; reflexivity).
  rewrite Hs, Em in Hp. cbn [option_map fst] in Hp.
  assert (Ep : p = example_base + 24) by congruence.
  exists c, bs, p, st'. split; [exact Hrun|]. split; [exact Hbl|].
  split; [exact Em|]. split; [exact Ep|].
  destruct Hout as [[Hn _]|Hout]; [|exact Hout].
  exfalso. rewrite Ep in Hn. discriminate Hn.
Defined.

(** X11.  After every sequence of calls, a further [my_malloc(n)] (with
    [n] small enough for line 126 not to wrap) returns, and what it
    returns is [NULL] or the address of [n] bytes that lie inside the
    pool, behind the first header, starting at a multiple of 8. *)
Theorem returned_payload_lies_in_pool (a : abi) (base : Z) (fuel : nat)
        (ops : list call) (n : Z) :
  pool_address a base -> (Z.to_nat POOL_SIZE <= fuel)%nat ->
  0 <= n -> n + 7 < size_modulus a ->
  exists c p st',
    run a fuel (fresh a base) ops = Some c
    /\ my_malloc a fuel (heap c) n = Some (p, st')
    /\ (p = NULL
        \/ (base + HEADER_SIZE a <= p
            /\ p + n <= base + POOL_SIZE
            /\ p mod ALIGNMENT = 0)).
Proof.
  intros Hbase Hfuel H0 Hw.
  destruct (reachable_cases a base fuel ops Hbase Hfuel) as (c & Hrun & Hc).
  exists c. destruct a.
  - destruct Hc as [bs Hinv].
    pose proof (invariant_length _ _ _ Hinv) as Hlen.
    assert (Hf : (length bs <= fuel)%nat) by lia.
    destruct (malloc_invariant base c bs fuel n Hbase Hinv Hf)
      as (c' & bs' & Hstep & _).
    cbn [step] in Hstep.
    destruct (my_malloc ILP32 fuel (heap c) n) as [[p st']|] eqn:Em;
      [|discriminate].
    exists p, st'. split; [exact Hrun|]. split; [reflexivity|].
    destruct (malloc_block_ILP32 base c bs fuel n p st' Hbase Hinv Hf Em)
      as [[-> _]|(b & _ & -> & Hb8 & Hlo & Hhi & _)]; [now left|].
    right. pose proof (align_size_bounds ILP32 n H0 Hw).
    change (HEADER_SIZE ILP32) with 24. unfold ALIGNMENT.
    split; [lia|]. split; [lia|]. rewrite Zplus_mod, Hb8. reflexivity.
  - destruct Hc as [Hc _]. exists NULL, (heap c).
    split; [exact Hrun|]. split; [|now left].
    destruct Hbase as (Hb0 & _).
    apply (malloc_LP64_fresh base); [unfold NULL; lia | | exact Hc].
    unfold POOL_SIZE in Hfuel. lia.
Qed.

Lemma returned_payload_lies_in_pool_witness :
  (pool_address ILP32 example_base
   /\ (Z.to_nat POOL_SIZE <= Z.to_nat POOL_SIZE)%nat
   /\ 0 <= 100 /\ 100 + 7 < size_modulus ILP32)
  /\ exists c p st',
      run ILP32 (Z.to_nat POOL_SIZE) (fresh ILP32 example_base) demo_basic
      = Some c
      /\ my_malloc ILP32 (Z.to_nat POOL_SIZE) (heap c) 100 = Some (p, st')
      /\ (p = NULL
          \/ (example_base + HEADER_SIZE ILP32 <= p
              /\ p + 100 <= example_base + POOL_SIZE
              /\ p mod ALIGNMENT = 0)).
Proof.
  assert (Hb : pool_address ILP32 example_base)
    by (repeat split; vm_compute; reflexivity).
  assert (H3 : 0 <= 100) by lia.
  assert (H4 : 100 + 7 < size_modulus ILP32) by (vm_compute; reflexivity).
  split; [split; [exact Hb|]; split; [apply le_n|]; split; assumption|].
  exact (returned_payload_lies_in_pool ILP32 example_base
           (Z.to_nat POOL_SIZE) demo_basic 100 Hb (le_n _) H3 H4).
Defined.

(** X12.  After every sequence of calls, freeing any pointer that
    [my_malloc] has returned twice in a row is the same as freeing it
    once: the second [my_free] finds the block marked free (or finds no
    block) and changes nothing. *)
Theorem second_free_changes_nothing (a : abi) (base : Z) (fuel : nat)
        (ops : list call) (k : nat) :
  pool_address a base -> (Z.to_nat POOL_SIZE <= fuel)%nat ->
  exists c,
    run a fuel (fresh a base) ops = Some c
    /\ my_free a (my_free a (heap c) (nth k (returned c) NULL))
               (nth k (returned c) NULL)
       = my_free a (heap c) (nth k (returned c) NULL).
Proof.
  intros Hbase Hfuel.
  destruct (reachable_cases a base fuel ops Hbase Hfuel) as (c & Hrun & Hc).
  exists c. split; [exact Hrun|]. destruct a.
  - destruct Hc as [bs Hinv].
    apply (free_twice_ILP32 base c bs); [assumption | assumption |].
    apply payload_pointer_nth. apply (inv_returned _ _ _ Hinv).
  - destruct Hc as [_ Hr]. rewrite (nth_all_null _ k Hr).
    unfold my_free. cbn [Z.eqb NULL]. reflexivity.
Qed.

Lemma second_free_changes_nothing_witness :
  (pool_address ILP32 example_base
   /\ (Z.to_nat POOL_SIZE <= Z.to_nat POOL_SIZE)%nat)
  /\ exists c,
      run ILP32 (Z.to_nat POOL_SIZE) (fresh ILP32 example_base)
          [Malloc 128; Malloc 256; Malloc 64] = Some c
      /\ my_free ILP32 (my_free ILP32 (heap c) (nth 1 (returned c) NULL))
                 (nth 1 (returned c) NULL)
         = my_free ILP32 (heap c) (nth 1 (returned c) NULL).
Proof.
  assert (Hb : pool_address ILP32 example_base)
    by (repeat split; vm_compute; reflexivity).
  split; [split; [exact Hb | apply le_n]|].
  exact (second_free_changes_nothing ILP32 example_base (Z.to_nat POOL_SIZE)
           [Malloc 128; Malloc 256; Malloc 64] 1 Hb (le_n _)).
Defined.

(** X13.  After every sequence of calls, allocating and at once freeing
    what was returned brings the three counters back: [total_allocated],
    [total_free] and [allocation_count] are what they were before the
    [my_malloc], whether it succeeded or not. *)
Theorem malloc_then_free_restores_counters (a : abi) (base : Z) (fuel : nat)
        (ops : list call) (n : Z) :
  pool_address a base -> (Z.to_nat POOL_SIZE <= fuel)%nat ->
  exists c p st',
    run a fuel (fresh a base) ops = Some c
    /\ my_malloc a fuel (heap c) n = Some (p, st')
    /\ total_allocated (my_free a st' p) = total_allocated (heap c)
    /\ total_free (my_free a st' p) = total_free (heap c)
    /\ allocation_count (my_free a st' p) = allocation_count (heap c).
Proof.
  intros Hbase Hfuel.
  destruct (reachable_cases a base fuel ops Hbase Hfuel) as (c & Hrun & Hc).
  exists c. destruct a.
  - destruct Hc as [bs Hinv].
    pose proof (invariant_length _ _ _ Hinv) as Hlen.
    assert (Hf : (length bs <= fuel)%nat) by lia.
    destruct (malloc_invariant base c bs fuel n Hbase Hinv Hf)
      as (c' & bs' & Hstep & _).
    cbn [step] in Hstep.
    destruct (my_malloc ILP32 fuel (heap c) n) as [[p st']|] eqn:Em;
      [|discriminate].
    exists p, st'. split; [exact Hrun|]. split; [reflexivity|].
    apply (malloc_then_free_ILP32 base c bs fuel n); assumption.
  - destruct Hc as [Hc _]. exists NULL, (heap c).
    split; [exact Hrun|]. destruct Hbase as (Hb0 & _). split.
    + apply (malloc_LP64_fresh base); [unfold NULL; lia | | exact Hc].
      unfold POOL_SIZE in Hfuel. lia.
    + unfold my_free. cbn [Z.eqb NULL]. auto.
Qed.

Lemma malloc_then_free_restores_counters_witness :
  (pool_address ILP32 example_base
   /\ (Z.to_nat POOL_SIZE <= Z.to_nat POOL_SIZE)%nat)
  /\ exists c p st',
      run ILP32 (Z.to_nat POOL_SIZE) (fresh ILP32 example_base) demo_basic
      = Some c
      /\ my_malloc ILP32 (Z.to_nat POOL_SIZE) (heap c) 300 = Some (p, st')
      /\ total_allocated (my_free ILP32 st' p) = total_allocated (heap c)
      /\ total_free (my_free ILP32 st' p) = total_free (heap c)
      /\ allocation_count (my_free ILP32 st' p) = allocation_count (heap c).
Proof.
  assert (Hb : pool_address ILP32 example_base)
    by (repeat split; vm_compute; reflexivity).
  split; [split; [exact Hb | apply le_n]|].
  exact (malloc_then_free_restores_counters ILP32 example_base
           (Z.to_nat POOL_SIZE) demo_basic 300 Hb (le_n _)).
Defined.

(** X14.  [print_memory_map] prints at most 101 lines whatever the pool
    holds, a list whose [next] links run in a circle included; the 101
    iterations the model allows are all the loop of lines 300-332 can
    make, so a larger allowance prints the same. *)
Theorem memory_map_is_bounded (a : abi) (st : allocator) (more : nat) :
  (length (print_memory_map a st) <= 101)%nat
  /\ map_rows a (101 + more) (pool st) (memory_pool st) 0
     = print_memory_map a st.
Proof.
  unfold print_memory_map. split.
  - pose proof (map_rows_length a (pool st) 101 (memory_pool st) 0). lia.
  - apply map_rows_left; lia.
Qed.

(** X15.  After every sequence of calls, [print_memory_map] prints one
    row for each of the first 101 blocks of the list, in list order and
    numbered from 0, up to the first block that does not verify, where
    it prints the warning and stops; and the bar of every row is between
    1 and 59 characters long, so [memset] stays inside [bar]. *)
Theorem memory_map_shows_the_list (a : abi) (base : Z) (fuel : nat)
        (ops : list call) :
  pool_address a base -> (Z.to_nat POOL_SIZE <= fuel)%nat ->
  exists c bs,
    run a fuel (fresh a base) ops = Some c
    /\ blocks_of a fuel (heap c) = Some bs
    /\ print_memory_map a (heap c)
       = rows_of a (pool (heap c)) 0 (firstn 101 bs)
    /\ Forall (fun l => l = Warning \/ 1 <= bar_length l < VISUALIZER_WIDTH)
              (print_memory_map a (heap c)).
Proof.
  intros Hbase Hfuel.
  destruct (reachable_layout a base fuel ops Hbase Hfuel)
    as (c & bs & Hrun & Hbl & _ & Hord & _).
  destruct (reachable_heads a base fuel ops c Hbase Hfuel Hrun) as [Hp Hh].
  exists c, bs. split; [exact Hrun|]. split; [exact Hbl|].
  assert (E : print_memory_map a (heap c)
              = rows_of a (pool (heap c)) 0 (firstn 101 bs)).
  { unfold print_memory_map. unfold blocks_of in Hbl. rewrite Hh in Hbl.
    rewrite Hp. apply (map_rows_list a (pool (heap c)) 101 bs fuel);
      [exact Hbl | | reflexivity].
    destruct Hbase as (Hb0 & _). unfold NULL. lia. }
  split; [exact E|]. rewrite E. apply rows_of_bars.
  apply sizes_below_pool in Hord. rewrite Forall_forall in Hord |- *.
  intros b Hin. apply Hord. eapply in_first_blocks; exact Hin.
Qed.

Lemma memory_map_shows_the_list_witness :
  (pool_address ILP32 example_base
   /\ (Z.to_nat POOL_SIZE <= Z.to_nat POOL_SIZE)%nat)
  /\ exists c bs,
      run ILP32 (Z.to_nat POOL_SIZE) (fresh ILP32 example_base) demo_basic
      = Some c
      /\ blocks_of ILP32 (Z.to_nat POOL_SIZE) (heap c) = Some bs
      /\ print_memory_map ILP32 (heap c)
         = rows_of ILP32 (pool (heap c)) 0 (firstn 101 bs)
      /\ Forall (fun l => l = Warning \/ 1 <= bar_length l < VISUALIZER_WIDTH)
                (print_memory_map ILP32 (heap c)).
Proof.
  assert (Hb : pool_address ILP32 example_base)
    by (repeat split; vm_compute; reflexivity).
  split; [split; [exact Hb | apply le_n]|].
  exact (memory_map_shows_the_list ILP32 example_base (Z.to_nat POOL_SIZE)
           demo_basic Hb (le_n _)).
Defined.





(** X18.  With the 24-byte header, after every sequence of calls (the
    pool holding nothing but what these calls wrote), [my_free] of
    [NULL] or of any 8-aligned address whose header lies inside the
    pool, returned by [my_malloc] or not, either changes nothing or
    releases a block of the list: the address is then the payload
    address of a block of the list that verified and was in use, the
    block is left marked free, the counters move by its size without
    wrap-around, and [memory_pool] and [free_list_head] stay.  An
    aligned address that is not the payload of a block in use is
    refused, the header a merge has left behind included. *)
Theorem free_refuses_or_releases (base : Z) (fuel : nat) (ops : list call)
        (p : Z) :
  pool_address ILP32 base -> (Z.to_nat POOL_SIZE <= fuel)%nat ->
  p = NULL
  \/ (p mod ALIGNMENT = 0
      /\ base + HEADER_SIZE ILP32 <= p <= base + POOL_SIZE) ->
  exists c bs,
    run ILP32 fuel (fresh ILP32 base) ops = Some c
    /\ blocks_of ILP32 fuel (heap c) = Some bs
    /\ let b := p - HEADER_SIZE ILP32 in
       my_free ILP32 (heap c) p = heap c
       \/ (In b bs
           /\ verify_header ILP32 (pool (heap c)) b = true
           /\ get ILP32 f_free (pool (heap c)) b = 0
           /\ get ILP32 f_free (pool (my_free ILP32 (heap c) p)) b = 1
           /\ total_allocated (my_free ILP32 (heap c) p)
              = total_allocated (heap c) - get ILP32 f_size (pool (heap c)) b
           /\ total_free (my_free ILP32 (heap c) p)
              = total_free (heap c) + get ILP32 f_size (pool (heap c)) b
           /\ allocation_count (my_free ILP32 (heap c) p)
              = allocation_count (heap c) - 1
           /\ 0 <= total_allocated (my_free ILP32 (heap c) p)
           /\ memory_pool (my_free ILP32 (heap c) p) = memory_pool (heap c)
           /\ free_list_head (my_free ILP32 (heap c) p)
              = free_list_head (heap c)).
Proof.
  intros Hbase Hfuel Hp.
  destruct (reachable_cases ILP32 base fuel ops Hbase Hfuel)
    as (c & Hrun & bs & Hinv).
  exists c, bs. split; [exact Hrun|].
  pose proof (invariant_length _ _ _ Hinv) as Hlen.
  split; [apply (invariant_block_list _ _ _ _ Hbase Hinv); lia|].
  cbv zeta. change (HEADER_SIZE ILP32) with 24.
  apply (free_released_ILP32 base c bs p Hbase Hinv).
  destruct Hp as [->|(Hp8 & Hlo & Hhi)]; [now left|right].
  destruct Hbase as (H0 & _ & Hend).
  change (size_modulus ILP32) with 4294967296 in Hend.
  change (HEADER_SIZE ILP32) with 24 in Hlo. unfold ALIGNMENT in Hp8.
  split; [exact Hp8|]. lia.
Qed.

(** After three allocations the payload address of the second block is
    released; an aligned address eight bytes into that payload is
    refused. *)
Lemma free_refuses_or_releases_witness :
  let fuel := Z.to_nat POOL_SIZE in
  let ops := [Malloc 128; Malloc 256; Malloc 64] in
  let p := example_base + 176 in
  (pool_address ILP32 example_base /\ (Z.to_nat POOL_SIZE <= fuel)%nat
   /\ (p = NULL
       \/ (p mod ALIGNMENT = 0
           /\ example_base + HEADER_SIZE ILP32 <= p
              <= example_base + POOL_SIZE)))
  /\ (exists c bs,
         run ILP32 fuel (fresh ILP32 example_base) ops = Some c
         /\ blocks_of ILP32 fuel (heap c) = Some bs
         /\ In (p - HEADER_SIZE ILP32) bs
         /\ get ILP32 f_free (pool (heap c)) (p - HEADER_SIZE ILP32) = 0
         /\ get ILP32 f_free (pool (my_free ILP32 (heap c) p))
                (p - HEADER_SIZE ILP32) = 1
         /\ allocation_count (my_free ILP32 (heap c) p)
            = allocation_count (heap c) - 1)
  /\ (exists c bs,
         run ILP32 fuel (fresh ILP32 example_base) ops = Some c
         /\ blocks_of ILP32 fuel (heap c) = Some bs
         /\ ~ In (p + 8 - HEADER_SIZE ILP32) bs
         /\ my_free ILP32 (heap c) (p + 8) = heap c).
Proof.
  cbv zeta.
  assert (Hb : pool_address ILP32 example_base)
    by (repeat split; vm_compute; reflexivity).
  assert (H1 : example_base + 176 = NULL
               \/ ((example_base + 176) mod ALIGNMENT = 0
                   /\ example_base + HEADER_SIZE ILP32 <= example_base + 176
                      <= example_base + POOL_SIZE)).
  { right. split; [reflexivity|]. split; vm_compute; discriminate. }
  assert (H2 : example_base + 176 + 8 = NULL
               \/ ((example_base + 176 + 8) mod ALIGNMENT = 0
                   /\ example_base + HEADER_SIZE ILP32
                      <= example_base + 176 + 8
                      <= example_base + POOL_SIZE)).
  { right. split; [reflexivity|]. split; vm_compute; discriminate. }
  split; [split; [exact Hb|]; split; [apply le_n | exact H1]|].
  assert (Hl : option_map (fun c => blocks_of ILP32 (Z.to_nat POOL_SIZE) (heap c))
                 (run ILP32 (Z.to_nat POOL_SIZE) (fresh ILP32 example_base)
                      [Malloc 128; Malloc 256; Malloc 64])
               = Some (Some [example_base; example_base + 152;
                             example_base + 432; example_base + 520]))
    by (vm_compute; reflexivity).
  assert (Hc : option_map
                 (fun c => allocation_count
                             (my_free ILP32 (heap c) (example_base + 176))
                           - allocation_count (heap c))
                 (run ILP32 (Z.to_nat POOL_SIZE) (fresh ILP32 example_base)
                      [Malloc 128; Malloc 256; Malloc 64])
               = Some (-1)) by (vm_compute; reflexivity).
  split.
  - destruct (free_refuses_or_releases example_base (Z.to_nat POOL_SIZE)
                [Malloc 128; Malloc 256; Malloc 64] (example_base + 176)
                Hb (le_n _) H1) as (c & bs & Hrun & Hbl & Hout).
    exists c, bs. split; [exact Hrun|]. split; [exact Hbl|].
    rewrite Hrun in Hc. cbn [option_map] in Hc.
    cbv zeta in Hout. destruct Hout as [E|(G1 & _ & G3 & G4 & _ & _ & G7 & _)].
    + exfalso. rewrite E in Hc. injection Hc as Hc. lia.
    + auto.
  - destruct (free_refuses_or_releases example_base (Z.to_nat POOL_SIZE)
                [Malloc 128; Malloc 256; Malloc 64] (example_base + 176 + 8)
                Hb (le_n _) H2) as (c & bs & Hrun & Hbl & Hout).
    exists c, bs. split; [exact Hrun|]. split; [exact Hbl|].
    rewrite Hrun in Hl. cbn [option_map] in Hl.
    assert (Ebs : bs = [example_base; example_base + 152;
                        example_base + 432; example_base + 520])
      by congruence.
    assert (Hnin : ~ In (example_base + 176 + 8 - HEADER_SIZE ILP32) bs).
    { rewrite Ebs. cbn [In]. intros [E|[E|[E|[E|[]]]]]; discriminate E. }
    split; [exact Hnin|].
    cbv zeta in Hout. destruct Hout as [E|(G1 & _)]; [exact E|].
    contradiction.
Defined.

(** X19.  Whatever the pool held before, [init_allocator] leaves a list
    of one block at the start of the pool: free, of size
    [POOL_SIZE - HEADER_SIZE], with no neighbours, and (with the 24-byte
    header) verifying; [total_free] is set to that size, while
    [total_allocated] and [allocation_count] are left as they were. *)
Theorem init_leaves_one_free_block (a : abi) (st : allocator) (fuel : nat) :
  memory_pool st <> NULL -> (0 < fuel)%nat ->
  let st' := init_allocator a st in
  let b := memory_pool st in
  blocks_of a fuel st' = Some [b]
  /\ get a f_magic (pool st') b = MAGIC_COOKIE
  /\ get a f_size (pool st') b = POOL_SIZE - HEADER_SIZE a
  /\ get a f_free (pool st') b = 1
  /\ get a f_prev (pool st') b = NULL
  /\ (a = ILP32 -> verify_header a (pool st') b = true)
  /\ total_free st' = POOL_SIZE - HEADER_SIZE a
  /\ total_allocated st' = total_allocated st
  /\ allocation_count st' = allocation_count st.
Proof.
  intros Hb Hfuel. cbv zeta. unfold init_allocator. cbv zeta.
  cbn [pool total_free total_allocated allocation_count].
  set (b := memory_pool st) in *.
  assert (Es : to_size a (POOL_SIZE - HEADER_SIZE a) = POOL_SIZE - HEADER_SIZE a).
  { rewrite header_size_value. destruct a; reflexivity. }
  rewrite Es.
  assert (Hsz : (POOL_SIZE - HEADER_SIZE a)
                mod 256 ^ Z.of_nat (width a f_size)
                = POOL_SIZE - HEADER_SIZE a).
  { rewrite header_size_value. destruct a; reflexivity. }
  assert (Hmag : forall m, get a f_magic (set a f_magic m b MAGIC_COOKIE) b
                           = MAGIC_COOKIE).
  { intros m. rewrite get_set_same. destruct a; reflexivity. }
  assert (Hfr : forall m, get a f_free (set a f_free m b 1) b = 1).
  { intros m. rewrite get_set_same. destruct a; reflexivity. }
  assert (Hnull : forall f m, get a f (set a f m b NULL) b = NULL).
  { intros f m. rewrite get_set_same. unfold NULL. apply Z.mod_0_l.
    apply Z.pow_nonzero; lia. }
  split.
  { unfold blocks_of. cbn [pool free_list_head].
    destruct fuel as [|f]; [lia|]. cbn [block_list].
    destruct (Z.eqb_spec b NULL); [contradiction|].
    rewrite !get_set_field by discriminate. rewrite Hnull.
    destruct f; reflexivity. }
  split.
  { rewrite !get_set_field by discriminate. apply Hmag. }
  split.
  { rewrite !get_set_field by discriminate. rewrite get_set_same. exact Hsz. }
  split.
  { rewrite !get_set_field by discriminate. apply Hfr. }
  split.
  { rewrite !get_set_field by discriminate. apply Hnull. }
  split.
  { intros ->. apply sealed_verifies.
    rewrite !get_set_field by discriminate. apply Hmag. }
  split.
  { rewrite !get_set_field by discriminate. rewrite get_set_same. exact Hsz. }
  split; reflexivity.
Qed.

Lemma init_leaves_one_free_block_witness :
  let st := state_after ILP32 16 example_base demo_basic in
  (memory_pool st <> NULL /\ (0 < 4)%nat)
  /\ let st' := init_allocator ILP32 st in
     let b := memory_pool st in
     blocks_of ILP32 4 st' = Some [b]
     /\ get ILP32 f_magic (pool st') b = MAGIC_COOKIE
     /\ get ILP32 f_size (pool st') b = POOL_SIZE - HEADER_SIZE ILP32
     /\ get ILP32 f_free (pool st') b = 1
     /\ get ILP32 f_prev (pool st') b = NULL
     /\ (ILP32 = ILP32 -> verify_header ILP32 (pool st') b = true)
     /\ total_free st' = POOL_SIZE - HEADER_SIZE ILP32
     /\ total_allocated st' = total_allocated st
     /\ allocation_count st' = allocation_count st.
Proof.
  cbv zeta.
  assert (H1 : memory_pool (state_after ILP32 16 example_base demo_basic)
               <> NULL) by (vm_compute; discriminate).
  assert (H2 : (0 < 4)%nat) by lia.
  split; [split; assumption|].
  exact (init_leaves_one_free_block ILP32 _ 4 H1 H2).
Defined.

(** X20.  After every sequence of calls [print_statistics] terminates;
    the allocated and free figures it prints are not negative and add up
    to [POOL_SIZE - HEADER_SIZE], the fragmentation score it prints lies
    between 0 and 100, it leaves the pool and the counters alone, and
    calling it again prints the same figures. *)
Theorem statistics_are_consistent (a : abi) (base : Z) (fuel : nat)
        (ops : list call) :
  pool_address a base -> (Z.to_nat POOL_SIZE <= fuel)%nat ->
  exists c s st',
    run a fuel (fresh a base) ops = Some c
    /\ print_statistics a fuel (heap c) = Some (s, st')
    /\ shown_allocated s + shown_free s = POOL_SIZE - HEADER_SIZE a
    /\ 0 <= shown_allocated s /\ 0 <= shown_free s
    /\ 0 <= shown_score s <= 100
    /\ shown_active s = allocation_count (heap c)
    /\ pool st' = pool (heap c)
    /\ print_statistics a fuel st' = Some (s, st').
Proof.
  intros Hbase Hfuel.
  destruct (reachable_summary a base fuel ops Hbase Hfuel)
    as (c & bs & Hrun & Hbl & Hal & Hsum & Hcov).
  destruct (reachable_layout a base fuel ops Hbase Hfuel)
    as (c0 & bs0 & Hrun0 & Hbl0 & Hhd & _).
  rewrite Hrun in Hrun0. injection Hrun0 as <-.
  rewrite Hbl in Hbl0. injection Hbl0 as <-.
  assert (Hne : bs <> []).
  { destruct bs; [|discriminate]. cbn [hd] in Hhd.
    destruct Hbase as (Hb0 & _). unfold NULL in Hhd. lia. }
  pose proof (allocated_leaves_a_header a (pool (heap c)) bs Hne) as Hah.
  unfold blocks_of in Hbl.
  destruct (score_in_range a fuel (pool (heap c)) _ bs Hbl Hcov)
    as (k & l & t & Hwalk & Hscore).
  set (st' := {| pool := pool (heap c);
                 memory_pool := memory_pool (heap c);
                 free_list_head := free_list_head (heap c);
                 total_allocated := total_allocated (heap c);
                 total_free := total_free (heap c);
                 allocation_count := allocation_count (heap c);
                 fragmentation_score := score_of a k l t |}).
  assert (E1 : calculate_fragmentation a fuel (heap c) = Some st').
  { unfold calculate_fragmentation. rewrite Hwalk. reflexivity. }
  assert (E2 : calculate_fragmentation a fuel st' = Some st').
  { unfold calculate_fragmentation. cbn [pool free_list_head st'].
    rewrite Hwalk. reflexivity. }
  exists c. unfold print_statistics. rewrite E1.
  eexists _, st'. split; [exact Hrun|]. split; [reflexivity|].
  rewrite E2.
  cbn [shown_allocated shown_free shown_score shown_active total_allocated
       total_free fragmentation_score allocation_count pool st'].
  split; [exact Hsum|]. split; [lia|]. split; [lia|]. split; [exact Hscore|].
  split; [reflexivity|]. split; reflexivity.
Qed.

Lemma statistics_are_consistent_witness :
  (pool_address ILP32 example_base
   /\ (Z.to_nat POOL_SIZE <= Z.to_nat POOL_SIZE)%nat)
  /\ exists c s st',
      run ILP32 (Z.to_nat POOL_SIZE) (fresh ILP32 example_base) demo_basic
      = Some c
      /\ print_statistics ILP32 (Z.to_nat POOL_SIZE) (heap c) = Some (s, st')
      /\ shown_allocated s + shown_free s = POOL_SIZE - HEADER_SIZE ILP32
      /\ 0 <= shown_allocated s /\ 0 <= shown_free s
      /\ 0 <= shown_score s <= 100
      /\ shown_active s = allocation_count (heap c)
      /\ pool st' = pool (heap c)
      /\ print_statistics ILP32 (Z.to_nat POOL_SIZE) st' = Some (s, st').
Proof.
  assert (Hb : pool_address ILP32 example_base)
    by (repeat split; vm_compute; reflexivity).
  split; [split; [exact Hb | apply le_n]|].
  exact (statistics_are_consistent ILP32 example_base (Z.to_nat POOL_SIZE)
           demo_basic Hb (le_n _)).
Defined.

(** X21.  [print_memory_map] does not bound the bar it draws: a first
    header that verifies with a [size] of at least 62/60 of the pool
    and below [2^24] bytes (as a corruption that balances the checksum
    can leave it; below [2^24] the product of line 307 does not wrap)
    gives a bar longer than the 61 bytes of [bar], which the [memset]
    of lines 314 and 316 then overruns. *)
Theorem large_size_overruns_the_bar (a : abi) (st : allocator) :
  verify_header a (pool st) (memory_pool st) = true ->
  (VISUALIZER_WIDTH + 2) * POOL_SIZE
  <= get a f_size (pool st) (memory_pool st) * VISUALIZER_WIDTH ->
  get a f_size (pool st) (memory_pool st) < 2 ^ 24 ->
  exists r rest,
    print_memory_map a st = r :: rest
    /\ VISUALIZER_WIDTH + 1 < bar_length r.
Proof.
  intros Hv Hbig Hsmall. unfold print_memory_map.
  change 101%nat with (S 100). cbn [map_rows]. rewrite Hv. cbn [negb].
  eexists _, _. split; [reflexivity|]. cbn [map_row bar_length].
  set (s := get a f_size (pool st) (memory_pool st)) in *.
  unfold visual_size_of, VISUALIZER_WIDTH, POOL_SIZE in *.
  change (1024 * 64) with 65536 in *.
  assert (Hmod : 4294967296 <= size_modulus a)
    by (destruct a; vm_compute; discriminate).
  rewrite to_size_small by lia.
  assert (Hq : 62 <= s * 60 / 65536 < 2 ^ 24).
  { split; [apply Z.div_le_lower_bound; lia|].
    apply Z.div_lt_upper_bound; lia. }
  cbv zeta. unfold to_int. rewrite Z.mod_small by lia.
  destruct (Z.ltb_spec (s * 60 / 65536 + 2 ^ 31 - 2 ^ 31) 1); lia.
Qed.

Lemma large_size_overruns_the_bar_witness :
  let st := overwrite (overwrite (heap (fresh ILP32 example_base))
                                 (example_base + 6) 1)
                      (example_base + 4) 231 in
  (verify_header ILP32 (pool st) (memory_pool st) = true
   /\ (VISUALIZER_WIDTH + 2) * POOL_SIZE
      <= get ILP32 f_size (pool st) (memory_pool st) * VISUALIZER_WIDTH
   /\ get ILP32 f_size (pool st) (memory_pool st) < 2 ^ 24)
  /\ exists r rest,
      print_memory_map ILP32 st = r :: rest
      /\ VISUALIZER_WIDTH + 1 < bar_length r.
Proof.
  cbv zeta.
  set (st := overwrite (overwrite (heap (fresh ILP32 example_base))
                                  (example_base + 6) 1)
                       (example_base + 4) 231).
  assert (H1 : verify_header ILP32 (pool st) (memory_pool st) = true)
    by (vm_compute; reflexivity).
  assert (H2 : (VISUALIZER_WIDTH + 2) * POOL_SIZE
               <= get ILP32 f_size (pool st) (memory_pool st)
                  * VISUALIZER_WIDTH) by (vm_compute; discriminate).
  assert (H3 : get ILP32 f_size (pool st) (memory_pool st) < 2 ^ 24)
    by (vm_compute; reflexivity).
  split; [split; [exact H1|]; split; assumption|].
  exact (large_size_overruns_the_bar ILP32 st H1 H2 H3).
Defined.

(** X22.  With 8-byte [size_t] and pointers the whole program serves
    nothing: wherever the pool lies, [main] prints three memory maps
    that consist of the corruption warning alone and three times the
    same statistics, nothing allocated and no active allocation. *)
Theorem main_on_LP64 (base : Z) (fuel : nat) :
  base <> NULL -> (0 < fuel)%nat ->
  let idle := {| shown_pool_size := POOL_SIZE;
                 shown_allocated := 0;
                 shown_free := POOL_SIZE - HEADER_SIZE LP64;
                 shown_active := 0;
                 shown_score := 0;
                 shown_header_size := HEADER_SIZE LP64;
                 shown_alignment := ALIGNMENT |} in
  main LP64 fuel base
  = Some [Map [Warning]; Stats idle; Map [Warning]; Map [Warning];
          Stats idle; Stats idle].
Proof.
  intros Hb Hf. cbv zeta. unfold main, demo_basic_output. cbv zeta.
  change (init_allocator LP64 (boot base)) with (heap (fresh LP64 base)).
  rewrite (malloc_LP64_fresh base fuel _ 128 Hb Hf eq_refl).
  cbn [and_then fst snd].
  rewrite (malloc_LP64_fresh base fuel _ 256 Hb Hf eq_refl).
  cbn [and_then fst snd].
  rewrite (malloc_LP64_fresh base fuel _ 64 Hb Hf eq_refl).
  cbn [and_then fst snd].
  rewrite (statistics_LP64_fresh base fuel Hb Hf). cbn [and_then fst snd].
  assert (E : my_free LP64 (heap (fresh LP64 base)) NULL
              = heap (fresh LP64 base)) by reflexivity.
  rewrite !E.
  rewrite (statistics_LP64_fresh base fuel Hb Hf). cbn [and_then fst snd].
  rewrite (statistics_LP64_fresh base fuel Hb Hf). cbn [and_then fst snd app].
  rewrite (map_LP64_fresh base _ eq_refl). reflexivity.
Qed.

Lemma main_on_LP64_witness :
  (example_base <> NULL /\ (0 < 8)%nat)
  /\ main LP64 8 example_base
     = Some [Map [Warning];
             Stats {| shown_pool_size := POOL_SIZE;
                      shown_allocated := 0;
                      shown_free := POOL_SIZE - HEADER_SIZE LP64;
                      shown_active := 0;
                      shown_score := 0;
                      shown_header_size := HEADER_SIZE LP64;
                      shown_alignment := ALIGNMENT |};
             Map [Warning]; Map [Warning];
             Stats {| shown_pool_size := POOL_SIZE;
                      shown_allocated := 0;
                      shown_free := POOL_SIZE - HEADER_SIZE LP64;
                      shown_active := 0;
                      shown_score := 0;
                      shown_header_size := HEADER_SIZE LP64;
                      shown_alignment := ALIGNMENT |};
             Stats {| shown_pool_size := POOL_SIZE;
                      shown_allocated := 0;
                      shown_free := POOL_SIZE - HEADER_SIZE LP64;
                      shown_active := 0;
                      shown_score := 0;
                      shown_header_size := HEADER_SIZE LP64;
                      shown_alignment := ALIGNMENT |}].
Proof.
  assert (H1 : example_base <> NULL) by (vm_compute; discriminate).
  assert (H2 : (0 < 8)%nat) by lia.
  split; [split; assumption|].
  exact (main_on_LP64 example_base 8 H1 H2).
Defined.

(** X23.  Freed memory can be used again: after every sequence of calls,
    when [my_malloc(n)] succeeds and its result is freed at once, a
    second [my_malloc(n)] succeeds too, and returns the same address or
    a lower one (lower when the freed block was merged into the block
    before it). *)
Theorem freed_block_can_be_taken_again (a : abi) (base : Z) (fuel : nat)
        (ops : list call) (n : Z) :
  pool_address a base -> (Z.to_nat POOL_SIZE <= fuel)%nat ->
  exists c p st',
    run a fuel (fresh a base) ops = Some c
    /\ my_malloc a fuel (heap c) n = Some (p, st')
    /\ (p = NULL
        \/ exists p' st'',
            my_malloc a fuel (my_free a st' p) n = Some (p', st'')
            /\ p' <> NULL /\ p' <= p).
Proof.
  intros Hbase Hfuel.
  destruct (reachable_cases a base fuel ops Hbase Hfuel) as (c & Hrun & Hc).
  exists c. destruct a.
  - destruct Hc as [bs Hinv].
    pose proof (invariant_length _ _ _ Hinv) as Hlen.
    assert (Hf : (length bs <= fuel)%nat) by lia.
    destruct (malloc_invariant base c bs fuel n Hbase Hinv Hf)
      as (c' & bs' & Hstep & _).
    cbn [step] in Hstep.
    destruct (my_malloc ILP32 fuel (heap c) n) as [[p st']|] eqn:Em;
      [|discriminate].
    exists p, st'. split; [exact Hrun|]. split; [reflexivity|].
    destruct (Z.eq_dec p NULL) as [E|E]; [now left|right].
    apply (retake_ILP32 base c bs); assumption.
  - destruct Hc as [Hc _]. exists NULL, (heap c).
    split; [exact Hrun|]. split; [|now left].
    destruct Hbase as (Hb0 & _).
    apply (malloc_LP64_fresh base); [unfold NULL; lia | | exact Hc].
    unfold POOL_SIZE in Hfuel. lia.
Qed.

Lemma freed_block_can_be_taken_again_witness :
  (pool_address ILP32 example_base
   /\ (Z.to_nat POOL_SIZE <= Z.to_nat POOL_SIZE)%nat)
  /\ exists c p st',
      run ILP32 (Z.to_nat POOL_SIZE) (fresh ILP32 example_base) demo_basic
      = Some c
      /\ my_malloc ILP32 (Z.to_nat POOL_SIZE) (heap c) 100 = Some (p, st')
      /\ (p = NULL
          \/ exists p' st'',
              my_malloc ILP32 (Z.to_nat POOL_SIZE) (my_free ILP32 st' p) 100
              = Some (p', st'')
              /\ p' <> NULL /\ p' <= p).
Proof.
  assert (Hb : pool_address ILP32 example_base)
    by (repeat split; vm_compute; reflexivity).
  split; [split; [exact Hb | apply le_n]|].
  exact (freed_block_can_be_taken_again ILP32 example_base
           (Z.to_nat POOL_SIZE) demo_basic 100 Hb (le_n _)).
Defined.

(** X24.  After every sequence of calls [allocation_count] is the number
    of blocks of the list that are marked in use; so it is never
    negative and never more than the number of blocks. *)
Theorem allocation_count_counts_blocks_in_use (a : abi) (base : Z)
        (fuel : nat) (ops : list call) :
  pool_address a base -> (Z.to_nat POOL_SIZE <= fuel)%nat ->
  exists c bs,
    run a fuel (fresh a base) ops = Some c
    /\ blocks_of a fuel (heap c) = Some bs
    /\ allocation_count (heap c) = blocks_in_use a (pool (heap c)) bs
    /\ 0 <= allocation_count (heap c) <= Z.of_nat (length bs).
Proof.
  intros Hbase Hfuel.
  assert (H : exists c bs,
             run a fuel (fresh a base) ops = Some c
             /\ blocks_of a fuel (heap c) = Some bs
             /\ allocation_count (heap c)
                = blocks_in_use a (pool (heap c)) bs).
  { destruct a.
    - destruct (run_count base fuel ops Hbase Hfuel _ _
                  (init_invariant base Hbase) (fresh_count base))
        as (c & bs & Hrun & Hinv & Hcount).
      exists c, bs. split; [exact Hrun|]. split; [|exact Hcount].
      pose proof (invariant_length _ _ _ Hinv).
      apply (invariant_block_list base); (assumption || lia).
    - destruct (reachable_layout LP64 base fuel ops Hbase Hfuel)
        as (c & bs & Hrun & Hbl & _).
      destruct (reachable_cases LP64 base fuel ops Hbase Hfuel)
        as (c0 & Hrun0 & Hc & _).
      rewrite Hrun in Hrun0. injection Hrun0 as <-.
      exists c, bs. split; [exact Hrun|]. split; [exact Hbl|].
      destruct (fresh_LP64_fields base) as (_ & _ & Hfr & Hnx).
      cbv zeta in Hfr, Hnx. rewrite Hc in *.
      assert (E : bs = [base]).
      { unfold blocks_of in Hbl.
        change (free_list_head (heap (fresh LP64 base))) with base in Hbl.
        destruct fuel as [|f]; [unfold POOL_SIZE in Hfuel; lia|].
        cbn [block_list] in Hbl. destruct Hbase as (Hb0 & _).
        destruct (Z.eqb_spec base NULL) as [E|_]; [unfold NULL in E; lia|].
        rewrite Hnx in Hbl. destruct f; cbn in Hbl; congruence. }
      rewrite E, blocks_in_use_cons, Hfr. reflexivity. }
  destruct H as (c & bs & Hrun & Hbl & Hcount).
  exists c, bs. split; [exact Hrun|]. split; [exact Hbl|].
  split; [exact Hcount|]. rewrite Hcount. apply blocks_in_use_nonneg.
Qed.

Lemma allocation_count_counts_blocks_in_use_witness :
  (pool_address ILP32 example_base
   /\ (Z.to_nat POOL_SIZE <= Z.to_nat POOL_SIZE)%nat)
  /\ exists c bs,
      run ILP32 (Z.to_nat POOL_SIZE) (fresh ILP32 example_base) demo_basic
      = Some c
      /\ blocks_of ILP32 (Z.to_nat POOL_SIZE) (heap c) = Some bs
      /\ allocation_count (heap c) = blocks_in_use ILP32 (pool (heap c)) bs
      /\ 0 <= allocation_count (heap c) <= Z.of_nat (length bs).
Proof.
  assert (Hb : pool_address ILP32 example_base)
    by (repeat split; vm_compute; reflexivity).
  split; [split; [exact Hb | apply le_n]|].
  exact (allocation_count_counts_blocks_in_use ILP32 example_base
           (Z.to_nat POOL_SIZE) demo_basic Hb (le_n _)).
Defined.



(** X26.  After every sequence of calls, a further [my_malloc(n)]
    returns; when it fails (returns [NULL]) it leaves the state as it
    was, and when it succeeds it moves exactly the aligned size from
    [total_free] to [total_allocated] and counts one more allocation,
    without any wrap-around: [total_free] stays non-negative and
    [total_allocated] at most [POOL_SIZE - HEADER_SIZE]. *)
Theorem malloc_moves_the_aligned_size (a : abi) (base : Z) (fuel : nat)
        (ops : list call) (n : Z) :
  pool_address a base -> (Z.to_nat POOL_SIZE <= fuel)%nat ->
  exists c p st',
    run a fuel (fresh a base) ops = Some c
    /\ my_malloc a fuel (heap c) n = Some (p, st')
    /\ (p = NULL -> st' = heap c)
    /\ (p <> NULL ->
        total_allocated st' = total_allocated (heap c) + align_size a n
        /\ total_free st' = total_free (heap c) - align_size a n
        /\ allocation_count st' = allocation_count (heap c) + 1
        /\ 0 <= total_free st'
        /\ total_allocated st' <= POOL_SIZE - HEADER_SIZE a).
Proof.
  intros Hbase Hfuel.
  destruct (reachable_cases a base fuel ops Hbase Hfuel) as (c & Hrun & Hc).
  exists c. destruct a.
  - destruct Hc as [bs Hinv].
    pose proof (invariant_length _ _ _ Hinv) as Hlen.
    assert (Hf : (length bs <= fuel)%nat) by lia.
    destruct (malloc_invariant base c bs fuel n Hbase Hinv Hf)
      as (c' & bs' & Hstep & _).
    cbn [step] in Hstep.
    destruct (my_malloc ILP32 fuel (heap c) n) as [[p st']|] eqn:Em;
      [|discriminate].
    exists p, st'. split; [exact Hrun|]. split; [reflexivity|].
    destruct (malloc_block_ILP32 base c bs fuel n p st' Hbase Hinv Hf Em)
      as [[Hn Hs]|(b & _ & Hp & _ & Hlo & _ & _ & _ & _ & _ & _ & Ta & Tf & Tc
                   & T0 & T1)].
    + split; [intros _; exact Hs | intros Hne; contradiction].
    + destruct Hbase as (Hb0 & _). split; [unfold NULL; intros Hn; lia|].
      intros _. pose proof (inv_free _ _ _ Hinv) as I5.
      change (HEADER_SIZE ILP32) with 24. unfold POOL_SIZE in *.
      repeat split; lia.
  - destruct Hc as [Hc _]. exists NULL, (heap c).
    split; [exact Hrun|]. split; [|split; [reflexivity | intros H; contradiction]].
    destruct Hbase as (Hb0 & _).
    apply (malloc_LP64_fresh base); [unfold NULL; lia | | exact Hc].
    unfold POOL_SIZE in Hfuel. lia.
Qed.

(** After [demo_basic] a request of 300 bytes succeeds, at the start of
    the pool, and moves 304 bytes; one of 1000 bytes fails there and
    changes nothing. *)
Lemma malloc_moves_the_aligned_size_witness :
  (pool_address ILP32 example_base
   /\ (Z.to_nat POOL_SIZE <= Z.to_nat POOL_SIZE)%nat)
  /\ (exists c p st',
         run ILP32 (Z.to_nat POOL_SIZE) (fresh ILP32 example_base) demo_basic
         = Some c
         /\ my_malloc ILP32 (Z.to_nat POOL_SIZE) (heap c) 300 = Some (p, st')
         /\ p = example_base + 24
         /\ total_allocated st' = total_allocated (heap c) + 304
         /\ total_free st' = total_free (heap c) - 304
         /\ allocation_count st' = allocation_count (heap c) + 1
         /\ 0 <= total_free st'
         /\ total_allocated st' <= POOL_SIZE - HEADER_SIZE ILP32)
  /\ (exists c p st',
         run ILP32 (Z.to_nat POOL_SIZE) (fresh ILP32 example_base) demo_basic
         = Some c
         /\ my_malloc ILP32 (Z.to_nat POOL_SIZE) (heap c) 1000 = Some (p, st')
         /\ p = NULL
         /\ st' = heap c).
Proof.
  assert (Hb : pool_address ILP32 example_base)
    by (repeat split; vm_compute; reflexivity).
  split; [split; [exact Hb | apply le_n]|].
  split.
  - destruct (malloc_moves_the_aligned_size ILP32 example_base
                (Z.to_nat POOL_SIZE) demo_basic 300 Hb (le_n _))
      as (c & p & st' & Hrun & Em & _ & Hok).
    assert (Hs : state_after ILP32 (Z.to_nat POOL_SIZE) example_base demo_basic
                 = heap c) by (unfold state_after; rewrite Hrun; reflexivity).
    assert (Hp : option_map fst
                   (my_malloc ILP32 (Z.to_nat POOL_SIZE)
                      (state_after ILP32 (Z.to_nat POOL_SIZE) example_base
                                   demo_basic) 300)
                 = Some (example_base + 24)) by (vm_compute; reflexivity).
    rewrite Hs, Em in Hp. cbn [option_map fst] in Hp.
    assert (Ep : p = example_base + 24) by congruence.
    exists c, p, st'. split; [exact Hrun|]. split; [exact Em|].
    split; [exact Ep|].
    change 304 with (align_size ILP32 300). apply Hok.
    rewrite Ep. discriminate.
  - destruct (malloc_moves_the_aligned_size ILP32 example_base
                (Z.to_nat POOL_SIZE) demo_basic 1000 Hb (le_n _))
      as (c & p & st' & Hrun & Em & Hfail & _).
    assert (Hs : state_after ILP32 (Z.to_nat POOL_SIZE) example_base demo_basic
                 = heap c) by (unfold state_after; rewrite Hrun; reflexivity).
    assert (Hp : option_map fst
                   (my_malloc ILP32 (Z.to_nat POOL_SIZE)
                      (state_after ILP32 (Z.to_nat POOL_SIZE) example_base
                                   demo_basic) 1000)
                 = Some NULL) by (vm_compute; reflexivity).
    rewrite Hs, Em in Hp. cbn [option_map fst] in Hp.
    assert (Ep : p = NULL) by congruence.
    exists c, p, st'. split; [exact Hrun|]. split; [exact Em|].
    split; [exact Ep|]. apply Hfail. exact Ep.
Defined.

(** X27.  After every sequence of calls, a [my_free] of a pointer that
    [my_malloc] returned either changes nothing or releases a block that
    was in use: it leaves the block marked free, moves exactly the size
    of the block from [total_allocated] to [total_free] without
    wrap-around, and counts one allocation less. *)
Theorem free_moves_the_block_size (a : abi) (base : Z) (fuel : nat)
        (ops : list call) (k : nat) :
  pool_address a base -> (Z.to_nat POOL_SIZE <= fuel)%nat ->
  exists c,
    run a fuel (fresh a base) ops = Some c
    /\ let p := nth k (returned c) NULL in
       let b := to_size a (p - HEADER_SIZE a) in
       my_free a (heap c) p = heap c
       \/ (get a f_free (pool (heap c)) b = 0
           /\ get a f_free (pool (my_free a (heap c) p)) b = 1
           /\ total_allocated (my_free a (heap c) p)
              = total_allocated (heap c) - get a f_size (pool (heap c)) b
           /\ total_free (my_free a (heap c) p)
              = total_free (heap c) + get a f_size (pool (heap c)) b
           /\ allocation_count (my_free a (heap c) p)
              = allocation_count (heap c) - 1
           /\ 0 <= total_allocated (my_free a (heap c) p)).
Proof.
  intros Hbase Hfuel.
  destruct (reachable_cases a base fuel ops Hbase Hfuel) as (c & Hrun & Hc).
  exists c. split; [exact Hrun|]. destruct a.
  - destruct Hc as [bs Hinv]. apply (free_counters_ILP32 base c bs k Hbase Hinv).
  - destruct Hc as [_ Hr]. cbv zeta. rewrite (nth_all_null _ k Hr).
    left. reflexivity.
Qed.

Lemma free_moves_the_block_size_witness :
  (pool_address ILP32 example_base
   /\ (Z.to_nat POOL_SIZE <= Z.to_nat POOL_SIZE)%nat)
  /\ exists c,
      run ILP32 (Z.to_nat POOL_SIZE) (fresh ILP32 example_base)
          [Malloc 128; Malloc 256; Malloc 64] = Some c
      /\ let p := nth 1 (returned c) NULL in
         let b := to_size ILP32 (p - HEADER_SIZE ILP32) in
         my_free ILP32 (heap c) p = heap c
         \/ (get ILP32 f_free (pool (heap c)) b = 0
             /\ get ILP32 f_free (pool (my_free ILP32 (heap c) p)) b = 1
             /\ total_allocated (my_free ILP32 (heap c) p)
                = total_allocated (heap c)
                  - get ILP32 f_size (pool (heap c)) b
             /\ total_free (my_free ILP32 (heap c) p)
                = total_free (heap c) + get ILP32 f_size (pool (heap c)) b
             /\ allocation_count (my_free ILP32 (heap c) p)
                = allocation_count (heap c) - 1
             /\ 0 <= total_allocated (my_free ILP32 (heap c) p)).
Proof.
  assert (Hb : pool_address ILP32 example_base)
    by (repeat split; vm_compute; reflexivity).
  split; [split; [exact Hb | apply le_n]|].
  exact (free_moves_the_block_size ILP32 example_base (Z.to_nat POOL_SIZE)
           [Malloc 128; Malloc 256; Malloc 64] 1 Hb (le_n _)).
Defined.

(** X28.  The first block is always sound with the 24-byte header:
    after every sequence of calls the block at the start of the pool
    verifies, so the search of [my_malloc] never aborts at the head of
    the list and [print_memory_map] starts with a row; with 8-byte
    [size_t] and pointers it never verifies and the map starts with the
    warning. *)
Theorem first_block_verifies_on_ILP32_only (a : abi) (base : Z) (fuel : nat)
        (ops : list call) :
  pool_address a base -> (Z.to_nat POOL_SIZE <= fuel)%nat ->
  exists c,
    run a fuel (fresh a base) ops = Some c
    /\ free_list_head (heap c) = base
    /\ verify_header a (pool (heap c)) base
       = match a with ILP32 => true | LP64 => false end
    /\ hd Warning (print_memory_map a (heap c))
       = match a with
         | ILP32 => map_row a (pool (heap c)) base 0
         | LP64 => Warning
         end.
Proof.
  intros Hbase Hfuel.
  assert (H : exists c,
             run a fuel (fresh a base) ops = Some c
             /\ verify_header a (pool (heap c)) base
                = match a with ILP32 => true | LP64 => false end).
  { destruct a.
    - apply (run_first_block base fuel ops Hbase Hfuel _ [base]);
        [apply init_invariant; exact Hbase | apply fresh_verifies].
    - destruct (reachable_cases LP64 base fuel ops Hbase Hfuel)
        as (c & Hrun & Hc & _).
      exists c. split; [exact Hrun|]. rewrite Hc.
      apply (fresh_LP64_fields base). }
  destruct H as (c & Hrun & Hv).
  destruct (reachable_heads a base fuel ops c Hbase Hfuel Hrun) as [Hp Hh].
  exists c. split; [exact Hrun|]. split; [exact Hh|]. split; [exact Hv|].
  unfold print_memory_map. rewrite Hp. change 101%nat with (S 100).
  cbn [map_rows]. rewrite Hv. destruct a; reflexivity.
Qed.

Lemma first_block_verifies_on_ILP32_only_witness :
  (pool_address ILP32 example_base
   /\ (Z.to_nat POOL_SIZE <= Z.to_nat POOL_SIZE)%nat)
  /\ exists c,
      run ILP32 (Z.to_nat POOL_SIZE) (fresh ILP32 example_base) demo_basic
      = Some c
      /\ free_list_head (heap c) = example_base
      /\ verify_header ILP32 (pool (heap c)) example_base = true
      /\ hd Warning (print_memory_map ILP32 (heap c))
         = map_row ILP32 (pool (heap c)) example_base 0.
Proof.
  assert (Hb : pool_address ILP32 example_base)
    by (repeat split; vm_compute; reflexivity).
  split; [split; [exact Hb | apply le_n]|].
  exact (first_block_verifies_on_ILP32_only ILP32 example_base
           (Z.to_nat POOL_SIZE) demo_basic Hb (le_n _)).
Defined.

(** X29.  After every sequence of calls the list has at least one block
    and no more blocks than headers fit into the pool:
    [length * HEADER_SIZE <= POOL_SIZE]. *)
Theorem list_is_never_empty_nor_long (a : abi) (base : Z) (fuel : nat)
        (ops : list call) :
  pool_address a base -> (Z.to_nat POOL_SIZE <= fuel)%nat ->
  exists c bs,
    run a fuel (fresh a base) ops = Some c
    /\ blocks_of a fuel (heap c) = Some bs
    /\ 1 <= Z.of_nat (length bs)
    /\ Z.of_nat (length bs) * HEADER_SIZE a <= POOL_SIZE.
Proof.
  intros Hbase Hfuel.
  destruct (reachable_layout a base fuel ops Hbase Hfuel)
    as (c & bs & Hrun & Hbl & Hhd & Hord & _).
  exists c, bs. split; [exact Hrun|]. split; [exact Hbl|].
  assert (H24 : 0 < HEADER_SIZE a)
    by (rewrite header_size_value; destruct a; lia).
  split.
  - destruct bs as [|x r]; [|cbn [length]; lia].
    cbn [hd] in Hhd. destruct Hbase as (Hb0 & _). unfold NULL in Hhd. lia.
  - unfold in_address_order in Hord. clear - Hord H24.
    assert (G : forall l lo hi,
               one_after_another (block_end a (pool (heap c))) lo l hi ->
               lo + Z.of_nat (length l) * HEADER_SIZE a <= hi).
    { induction l as [|x r IH]; intros lo hi; cbn [one_after_another length].
      - lia.
      - intros [Hlo Hr]. apply IH in Hr. unfold block_end in Hr.
        pose proof (get_range a f_size (pool (heap c)) x). lia. }
    apply G in Hord. lia.
Qed.

Lemma list_is_never_empty_nor_long_witness :
  (pool_address ILP32 example_base
   /\ (Z.to_nat POOL_SIZE <= Z.to_nat POOL_SIZE)%nat)
  /\ exists c bs,
      run ILP32 (Z.to_nat POOL_SIZE) (fresh ILP32 example_base) demo_basic
      = Some c
      /\ blocks_of ILP32 (Z.to_nat POOL_SIZE) (heap c) = Some bs
      /\ 1 <= Z.of_nat (length bs)
      /\ Z.of_nat (length bs) * HEADER_SIZE ILP32 <= POOL_SIZE.
Proof.
  assert (Hb : pool_address ILP32 example_base)
    by (repeat split; vm_compute; reflexivity).
  split; [split; [exact Hb | apply le_n]|].
  exact (list_is_never_empty_nor_long ILP32 example_base (Z.to_nat POOL_SIZE)
           demo_basic Hb (le_n _)).
Defined.
